(** * GardenWebsite: the viewport engine and the pin interaction layer

    A shallow embedding of the React front end of the garden map:

    - [DateFormatter]  (src/components/DateFormatter.js)
    - [ZoomableImage]  (src/components/ZoomableImage.jsx): pan, wheel zoom,
      bounds, cover fit
    - [PinLayer]       (src/components/PinLayer.jsx): percent/screen
      conversion and the pointer drag session of a marker
    - [App]            (src/App.jsx): the pin list and its handlers

    Numbers.  A JavaScript number is an IEEE-754 double.  The embedding
    idealises it as an exact rational ([Q]): rounding, infinities and NaN
    are outside the model.  Wherever the source divides, the theorems
    assume the divisor positive (natural image size, scale, bounding
    rectangle), which is the regime in which [Q]'s division and the
    double's agree up to rounding.  Module [Binary64] repeats the
    arithmetic of the conversions on the kernel's binary64 numbers, to run
    samples with the rounding of the source.  Instants ([Date.getTime()])
    are whole milliseconds and are modelled by [Z].

    React state.  A component's [useState] cells and [useRef] cells are the
    fields of one record; an event handler is a function from the record to
    the next record together with the callbacks it invoked, in call order.
    A state update is taken to be visible to the next event (renders are not
    modelled). *)

From Stdlib Require Import ZArith QArith Qminmax Qabs Lqa Lia Floats.
From Stdlib Require Reals Qreals Lra.
From Stdlib Require Import Qround Ascii.
From stdpp Require Import base gmap strings list pretty.

(** ** JavaScript values and the [Math] object *)

(** [a < b] on numbers, as a boolean. *)
Definition Qltb (a b : Q) : bool := negb (Qle_bool b a).

Module Math.
Definition max (a b : Q) : Q := Qmax a b.
Definition min (a b : Q) : Q := Qmin a b.
Definition abs (a : Q) : Q := Qabs a.
(** [Math.hypot(a, b) < t] for a threshold [t >= 0]. The square root is not
    rational, so the comparison is made on the squares:
    sqrt(a*a + b*b) < t exactly when a*a + b*b < t*t. *)
Definition hypot_lt (a b t : Q) : bool := Qltb (a * a + b * b) (t * t).
End Math.

(** The [mode] of the application: the strings "view" and "edit". *)
Inductive Mode : Type := view | edit.

(** The JSON values a pin object holds. *)
Inductive jsval : Type :=
| JUndefined
| JNull
| JBool (b : bool)
| JNum (q : Q)
| JStr (s : string).

(** [a === b]. *)
Definition strict_eq (a b : jsval) : bool :=
  match a, b with
  | JUndefined, JUndefined => true
  | JNull, JNull => true
  | JBool x, JBool y => Bool.eqb x y
  | JNum x, JNum y => Qeq_bool x y
  | JStr x, JStr y => String.eqb x y
  | _, _ => false
  end.

(** [a == null]: true of [null] and [undefined] only. *)
Definition is_nullish (a : jsval) : bool :=
  match a with
  | JUndefined | JNull => true
  | _ => false
  end.

(** The outcome of an awaited request of src/api/gardenApi.js: the promise
    resolves with the response body or rejects with an [Error]. *)
Inductive settled (A : Type) : Type :=
| Resolved (body : A)
| Rejected (message : string).
Arguments Resolved {A} body.
Arguments Rejected {A} message.

(** ** src/components/DateFormatter.js *)

Module DateFormatter.

(** The argument of [formatLastWatered], [string|null|undefined].

    Time values are whole milliseconds. A span [now - last] below 2^53 ms
    is exact in doubles, and below 2^26 days so is the floor of its
    quotient by [MS_PER_DAY]: there the doubles of the source and [Z]
    agree. *)
Inductive iso_arg : Type :=
| IsoNull
| IsoUndefined
| IsoString (s : string).

Section Formatter.
(** [new Date(iso).getTime()]: the host's date parser; [None] is NaN, the
    time value of an invalid date. *)
Variable Date_parse : string -> option Z.
(** [new Date().getTime()], the clock at the call. *)
Variable now : Z.

Definition MS_PER_DAY : Z := 1000 * 60 * 60 * 24.

Definition formatLastWatered (lastWateredIso : iso_arg) : string :=
  match lastWateredIso with
  | IsoNull | IsoUndefined => "Probably"
  | IsoString iso =>
      if String.eqb iso "" then "Probably"
      else
        match Date_parse iso with
        | None => "Probably"
        | Some last =>
            let diffMs := (now - last)%Z in
            if (diffMs <=? 0)%Z then "Today"
            else
              let diffDays := (diffMs / MS_PER_DAY)%Z in
              if (diffDays <=? 0)%Z then "Today"
              else if (diffDays =? 1)%Z then "1 day ago"
              else pretty diffDays +:+ " days ago"
        end
  end.
End Formatter.

(** A parser that knows one timestamp, for running the formatter. *)
Definition parse_sample (iso : string) : option Z :=
  if String.eqb iso "2026-02-20T10:12:30Z" then Some 1771582350000%Z
  else None.

End DateFormatter.

(** ** Geometry shared by the two components *)

Module Point.
Record t : Type := mk { x : Q; y : Q }.
End Point.

Module Size.
Record t : Type := mk { width : Q; height : Q }.
End Size.

(** The value handed to [onTransformChange]: [{ scale, pos }]. *)
Module Transform.
Record t : Type := mk { scale : Q; pos : Point.t }.
End Transform.

(** ** src/components/ZoomableImage.jsx *)

Module ZoomableImage.
Local Open Scope Q_scope.

(** The [<img>] element as far as the component reads it. *)
Record Img : Type := { naturalWidth : Q; naturalHeight : Q }.

(** [img.getBoundingClientRect()]. *)
Module DOMRect.
Record t : Type := mk { left : Q; top : Q; width : Q; height : Q }.
End DOMRect.

(** What the handlers read from the page: the two element refs and the
    window. [None] is a ref whose [current] is [null]. *)
Record Env : Type := {
  containerRef : option Size.t;   (* clientWidth, clientHeight *)
  window_inner : Size.t;          (* window.innerWidth, window.innerHeight *)
  imgRef : option Img
}.

Record MouseEvent : Type := { clientX : Q; clientY : Q }.
Record WheelEvent : Type := { mouse :> MouseEvent; deltaY : Q }.

(** [lastWheelRef.current], read back as [{ x: mouseX, y: mouseY, relX, relY }]. *)
Record WheelAnchor : Type := { mouseX : Q; mouseY : Q; relX : Q; relY : Q }.

(** The [useState] and [useRef] cells. [animationFrame] tells whether a
    [smoothZoomStep] callback is queued with [requestAnimationFrame]. *)
Record State : Type := {
  scale : Q;
  minScale : Q;
  pos : Point.t;
  isDragging : bool;
  dragStart : Point.t;
  targetScale : Q;
  animationFrame : bool;
  lastWheel : WheelAnchor
}.

(** The props the component calls. *)
Inductive callback : Type :=
| onTransformChange (t : Transform.t)
| onImageMeta (img : Img).

Definition initial : State :=
  {| scale := 1; minScale := 1; pos := Point.mk 0 0;
     isDragging := false; dragStart := Point.mk 0 0;
     targetScale := 1; animationFrame := false;
     lastWheel := {| mouseX := 0; mouseY := 0; relX := 0; relY := 0 |} |}.

Definition setScale (v : Q) (s : State) : State :=
  {| scale := v; minScale := minScale s; pos := pos s;
     isDragging := isDragging s; dragStart := dragStart s;
     targetScale := targetScale s; animationFrame := animationFrame s;
     lastWheel := lastWheel s |}.

Definition setMinScale (v : Q) (s : State) : State :=
  {| scale := scale s; minScale := v; pos := pos s;
     isDragging := isDragging s; dragStart := dragStart s;
     targetScale := targetScale s; animationFrame := animationFrame s;
     lastWheel := lastWheel s |}.

Definition setPos (v : Point.t) (s : State) : State :=
  {| scale := scale s; minScale := minScale s; pos := v;
     isDragging := isDragging s; dragStart := dragStart s;
     targetScale := targetScale s; animationFrame := animationFrame s;
     lastWheel := lastWheel s |}.

Definition set_isDragging (v : bool) (s : State) : State :=
  {| scale := scale s; minScale := minScale s; pos := pos s;
     isDragging := v; dragStart := dragStart s;
     targetScale := targetScale s; animationFrame := animationFrame s;
     lastWheel := lastWheel s |}.

Definition set_dragStart (v : Point.t) (s : State) : State :=
  {| scale := scale s; minScale := minScale s; pos := pos s;
     isDragging := isDragging s; dragStart := v;
     targetScale := targetScale s; animationFrame := animationFrame s;
     lastWheel := lastWheel s |}.

Definition set_targetScale (v : Q) (s : State) : State :=
  {| scale := scale s; minScale := minScale s; pos := pos s;
     isDragging := isDragging s; dragStart := dragStart s;
     targetScale := v; animationFrame := animationFrame s;
     lastWheel := lastWheel s |}.

Definition set_animationFrame (v : bool) (s : State) : State :=
  {| scale := scale s; minScale := minScale s; pos := pos s;
     isDragging := isDragging s; dragStart := dragStart s;
     targetScale := targetScale s; animationFrame := v;
     lastWheel := lastWheel s |}.

Definition set_lastWheel (v : WheelAnchor) (s : State) : State :=
  {| scale := scale s; minScale := minScale s; pos := pos s;
     isDragging := isDragging s; dragStart := dragStart s;
     targetScale := targetScale s; animationFrame := animationFrame s;
     lastWheel := v |}.

Definition clamp (value min max : Q) : Q := Math.min max (Math.max min value).

Definition getContainerSize (env : Env) : Size.t :=
  match containerRef env with
  | None => window_inner env
  | Some el => el
  end.

(** Returns [{ minX, minY }], here as a point. *)
Definition getBoundsFor (env : Env) (imgNaturalW imgNaturalH nextScale : Q)
  : Point.t :=
  let cw := Size.width (getContainerSize env) in
  let ch := Size.height (getContainerSize env) in
  let scaledW := imgNaturalW * nextScale in
  let scaledH := imgNaturalH * nextScale in
  let minX := Math.min 0 (cw - scaledW) in
  let minY := Math.min 0 (ch - scaledH) in
  Point.mk minX minY.

Definition calculateMinScale (env : Env) (img : Img) : Q :=
  let cw := Size.width (getContainerSize env) in
  let ch := Size.height (getContainerSize env) in
  let scaleX := cw / naturalWidth img in
  let scaleY := ch / naturalHeight img in
  Math.max scaleX scaleY.

Definition centerImage (env : Env) (img : Img) (baseScale : Q) : Point.t :=
  let cw := Size.width (getContainerSize env) in
  let ch := Size.height (getContainerSize env) in
  let scaledW := naturalWidth img * baseScale in
  let scaledH := naturalHeight img * baseScale in
  let offsetX := (cw - scaledW) / 2 in
  let offsetY := (ch - scaledH) / 2 in
  Point.mk offsetX offsetY.

Definition applyTransform (nextScale : Q) (nextPos : Point.t) (s : State)
  : State * list callback :=
  (setPos nextPos (setScale nextScale s),
   [onTransformChange (Transform.mk nextScale nextPos)]).

Definition handleImageLoad (env : Env) (s : State) : State * list callback :=
  match imgRef env with
  | None => (s, [])
  | Some img =>
      let baseScale := calculateMinScale env img in
      let s := setMinScale baseScale s in
      let s := set_targetScale baseScale s in
      let centeredPos := centerImage env img baseScale in
      let '(s, out) := applyTransform baseScale centeredPos s in
      (s, onImageMeta img :: out)
  end.

Definition stopDragging (s : State) : State := set_isDragging false s.

Definition handleMouseDown (s : State) (e : MouseEvent) : State :=
  set_dragStart
    (Point.mk (clientX e - Point.x (pos s)) (clientY e - Point.y (pos s)))
    (set_isDragging true s).

Definition handleMouseMove (env : Env) (s : State) (e : MouseEvent)
  : State * list callback :=
  if negb (isDragging s) then (s, [])
  else
    match imgRef env with
    | None => (s, [])
    | Some img =>
        let bounds :=
          getBoundsFor env (naturalWidth img) (naturalHeight img) (scale s) in
        let newX :=
          clamp (clientX e - Point.x (dragStart s)) (Point.x bounds) 0 in
        let newY :=
          clamp (clientY e - Point.y (dragStart s)) (Point.y bounds) 0 in
        let nextPos := Point.mk newX newY in
        (setPos nextPos s,
         [onTransformChange (Transform.mk (scale s) nextPos)])
    end.

Definition zoomIntensity : Q := 0.0015.

(** [rect] is [img.getBoundingClientRect()] at the time of the event. *)
Definition handleWheel (env : Env) (s : State) (e : WheelEvent)
  (rect : DOMRect.t) : State :=
  match imgRef env with
  | None => s
  | Some img =>
      let relX := (clientX e - DOMRect.left rect) / DOMRect.width rect in
      let relY := (clientY e - DOMRect.top rect) / DOMRect.height rect in
      let s :=
        set_lastWheel
          {| mouseX := clientX e; mouseY := clientY e;
             relX := relX; relY := relY |} s in
      let nextTarget :=
        clamp (targetScale s - deltaY e * zoomIntensity)
              (minScale s) (minScale s * 5) in
      let s := set_targetScale nextTarget s in
      set_animationFrame true s
  end.

Definition computeZoomedPos (env : Env) (s : State) (img : Img)
  (nextScale : Q) : Point.t :=
  let newW := naturalWidth img * nextScale in
  let newH := naturalHeight img * nextScale in
  let a := lastWheel s in
  let rawX := mouseX a - relX a * newW in
  let rawY := mouseY a - relY a * newH in
  let bounds :=
    getBoundsFor env (naturalWidth img) (naturalHeight img) nextScale in
  Point.mk (clamp rawX (Point.x bounds) 0) (clamp rawY (Point.y bounds) 0).

(** One queued animation frame. The frame that ran is no longer queued; the
    easing branch queues the next one. *)
Definition smoothZoomStep (env : Env) (s : State) : State * list callback :=
  let s := set_animationFrame false s in
  match imgRef env with
  | None => (s, [])
  | Some img =>
      let prevScale := scale s in
      let diff := targetScale s - prevScale in
      if Qltb (Math.abs diff) 0.001 then
        let snapped := targetScale s in
        let nextPos := computeZoomedPos env s img snapped in
        (setScale snapped (setPos nextPos s),
         [onTransformChange (Transform.mk snapped nextPos)])
      else
        let nextScale :=
          clamp (prevScale + diff * 0.25) (minScale s) (minScale s * 5) in
        let nextPos := computeZoomedPos env s img nextScale in
        (setScale nextScale (set_animationFrame true (setPos nextPos s)),
         [onTransformChange (Transform.mk nextScale nextPos)])
  end.

(** *** The component as a transition system *)

Inductive event : Type :=
| Load                                    (* the image's onLoad *)
| Resize (container : option Size.t) (win : Size.t)
                                          (* window resize to new sizes *)
| MouseDown (e : MouseEvent)
| MouseMove (e : MouseEvent)
| StopDragging                            (* mouseup, blur, mouseleave *)
| Wheel (e : WheelEvent) (rect : DOMRect.t)
| Frame.                                  (* the browser runs queued frames *)

Record World : Type := { env : Env; state : State }.

Definition step (ev : event) (w : World) : World * list callback :=
  match ev with
  | Load =>
      let '(s, out) := handleImageLoad (env w) (state w) in
      ({| env := env w; state := s |}, out)
  | Resize container win =>
      let env' :=
        {| containerRef := container; window_inner := win;
           imgRef := imgRef (env w) |} in
      let '(s, out) := handleImageLoad env' (state w) in
      ({| env := env'; state := s |}, out)
  | MouseDown e =>
      ({| env := env w; state := handleMouseDown (state w) e |}, [])
  | MouseMove e =>
      let '(s, out) := handleMouseMove (env w) (state w) e in
      ({| env := env w; state := s |}, out)
  | StopDragging =>
      ({| env := env w; state := stopDragging (state w) |}, [])
  | Wheel e rect =>
      ({| env := env w; state := handleWheel (env w) (state w) e rect |}, [])
  | Frame =>
      if animationFrame (state w) then
        let '(s, out) := smoothZoomStep (env w) (state w) in
        ({| env := env w; state := s |}, out)
      else (w, [])
  end.

Fixpoint run (evs : list event) (w : World) : World * list callback :=
  match evs with
  | [] => (w, [])
  | ev :: rest =>
      let '(w1, out1) := step ev w in
      let '(w2, out2) := run rest w1 in
      (w2, out1 ++ out2)
  end.

(** *** Predicates of the statements *)

(** The offset [p] lies in [min(0, container - natural * sc), 0] on each
    axis. *)
Definition within_bounds (env : Env) (img : Img) (sc : Q) (p : Point.t)
  : Prop :=
  let cw := Size.width (getContainerSize env) in
  let ch := Size.height (getContainerSize env) in
  (Math.min 0 (cw - naturalWidth img * sc) <= Point.x p <= 0)
  /\ (Math.min 0 (ch - naturalHeight img * sc) <= Point.y p <= 0).

(** The image, drawn at offset [p] and scale [sc], leaves no part of the
    container uncovered: its left and top edges are at or before the
    container's, its right and bottom edges at or beyond them. *)
Definition covers (env : Env) (img : Img) (sc : Q) (p : Point.t) : Prop :=
  let cw := Size.width (getContainerSize env) in
  let ch := Size.height (getContainerSize env) in
  (Point.x p <= 0 /\ cw <= Point.x p + naturalWidth img * sc)
  /\ (Point.y p <= 0 /\ ch <= Point.y p + naturalHeight img * sc).

(** Target and rendered scale lie in [minScale, minScale * 5]. *)
Definition scale_ok (s : State) : Prop :=
  0 <= minScale s
  /\ (minScale s <= targetScale s <= minScale s * 5)
  /\ (minScale s <= scale s <= minScale s * 5).

(** The sizes the page reports make sense: a loaded image has a positive
    natural size and the container is not negative. *)
Definition sized (env : Env) : Prop :=
  (forall img, imgRef env = Some img ->
               0 < naturalWidth img /\ 0 < naturalHeight img)
  /\ 0 <= Size.width (getContainerSize env)
  /\ 0 <= Size.height (getContainerSize env).

(** An event the browser can deliver: a resize to sizes that are not
    negative, a wheel event over an image whose rectangle is not empty. *)
Definition admissible (ev : event) : Prop :=
  match ev with
  | Resize container win =>
      let size := match container with Some el => el | None => win end in
      0 <= Size.width size /\ 0 <= Size.height size
  | Wheel _ rect => 0 < DOMRect.width rect /\ 0 < DOMRect.height rect
  | _ => True
  end.

(** The state of a page whose sizes make sense keeps its scales in
    range. *)
Definition world_ok (w : World) : Prop :=
  sized (env w) /\ scale_ok (state w).

(** Once the image [img] has loaded: the minimum scale is the cover fit of
    the current container, and the offset is within its bounds. *)
Definition world_fitted (img : Img) (w : World) : Prop :=
  world_ok w
  /\ imgRef (env w) = Some img
  /\ minScale (state w) == calculateMinScale (env w) img
  /\ within_bounds (env w) img (scale (state w)) (pos (state w)).

(** *** A sample page *)

(** A container of 800 x 600 around an image of 1600 x 900. *)
Definition img_1600x900 : Img :=
  {| naturalWidth := 1600; naturalHeight := 900 |}.

Definition env_800x600 : Env :=
  {| containerRef := Some (Size.mk 800 600);
     window_inner := Size.mk 1280 720;
     imgRef := Some img_1600x900 |}.

(** The state after the load in that page, then with the mouse held down
    at (400, 300), and with a zoom towards 1 in flight. *)
Definition loaded : State := fst (handleImageLoad env_800x600 initial).

Definition grabbed : State :=
  handleMouseDown loaded {| clientX := 400; clientY := 300 |}.

Definition zooming : State :=
  handleWheel env_800x600 loaded
    {| mouse := {| clientX := 400; clientY := 300 |};
       deltaY := - (2000 # 9) |}
    (DOMRect.mk (- (400 # 3)) 0 (3200 # 3) 600).

(** After the load: a wheel notch towards the user at the centre of the
    container, two animation frames, then a pan far to the lower right. *)
Definition zoom_then_pan : list event :=
  [ Wheel {| mouse := {| clientX := 400; clientY := 300 |};
             deltaY := -100 |}
          (DOMRect.mk (- (400 # 3)) 0 (3200 # 3) 600);
    Frame; Frame;
    MouseDown {| clientX := 400; clientY := 300 |};
    MouseMove {| clientX := 900; clientY := 700 |};
    StopDragging ].

End ZoomableImage.

(** *** The arithmetic in the doubles of the source

    The arithmetic of [calculateMinScale], [centerImage], [toScreen] and
    [toPercent] on the kernel's IEEE-754 binary64 numbers, to run sample
    sizes with the rounding of the source. [max] and [min] are [Math.max]
    and [Math.min] on ordered arguments (no NaN). Points are pairs. *)

Module Binary64.
Local Open Scope float_scope.

Definition max (a b : float) : float := if a <? b then b else a.
Definition min (a b : float) : float := if a <? b then a else b.

Definition calculateMinScale (cw ch naturalWidth naturalHeight : float)
  : float :=
  let scaleX := cw / naturalWidth in
  let scaleY := ch / naturalHeight in
  max scaleX scaleY.

Definition centerImage (cw ch naturalWidth naturalHeight baseScale : float)
  : float * float :=
  let scaledW := naturalWidth * baseScale in
  let scaledH := naturalHeight * baseScale in
  let offsetX := (cw - scaledW) / 2 in
  let offsetY := (ch - scaledH) / 2 in
  (offsetX, offsetY).

Definition clampPercent (value : float) : float := max 0 (min 100 value).

Definition toScreen (scale : float) (pos : float * float)
  (width height xPercent yPercent : float) : float * float :=
  let left := fst pos + (xPercent / 100) * width * scale in
  let top := snd pos + (yPercent / 100) * height * scale in
  (left, top).

Definition toPercent (scale : float) (pos : float * float)
  (width height clientX clientY : float) : float * float :=
  let x := ((clientX - fst pos) / (width * scale)) * 100 in
  let y := ((clientY - snd pos) / (height * scale)) * 100 in
  (clampPercent x, clampPercent y).

(** [|a - b| < eps]. *)
Definition close (eps a b : float) : bool := abs (a - b) <? eps.

End Binary64.

(** ** src/components/PinLayer.jsx *)

Module PinLayer.
Local Open Scope Q_scope.

Definition clampPercent (value : Q) : Q := Math.max 0 (Math.min 100 value).

(** The props the conversions and the drag handlers read. [imageSize] is
    [None] when the prop is [null] or [undefined]. *)
Record Props : Type := {
  mode : Mode;
  transform : Transform.t;
  imageSize : option Size.t
}.

(** [imageSize?.width > 0 && imageSize?.height > 0]. *)
Definition hasImageSize (props : Props) : bool :=
  match imageSize props with
  | None => false
  | Some sz => Qltb 0 (Size.width sz) && Qltb 0 (Size.height sz)
  end.

Record Screen : Type := { left : Q; top : Q }.
Record Percent : Type := { xPercent : Q; yPercent : Q }.

Definition toScreen (transform : Transform.t) (imageSize : Size.t)
  (xPercent yPercent : Q) : Screen :=
  let left :=
    Point.x (Transform.pos transform)
    + (xPercent / 100) * Size.width imageSize * Transform.scale transform in
  let top :=
    Point.y (Transform.pos transform)
    + (yPercent / 100) * Size.height imageSize * Transform.scale transform in
  {| left := left; top := top |}.

Definition toPercent (transform : Transform.t) (imageSize : Size.t)
  (clientX clientY : Q) : Percent :=
  let x :=
    ((clientX - Point.x (Transform.pos transform))
     / (Size.width imageSize * Transform.scale transform)) * 100 in
  let y :=
    ((clientY - Point.y (Transform.pos transform))
     / (Size.height imageSize * Transform.scale transform)) * 100 in
  {| xPercent := clampPercent x; yPercent := clampPercent y |}.

Module PointerEvent.
Record t : Type := mk { pointerId : Z; clientX : Q; clientY : Q }.
End PointerEvent.

(** [dragRef.current]. [None] is [null]. *)
Record DragRef : Type := {
  draggingPinId : jsval;
  pointerId : option Z;
  startClient : option Point.t;
  lastPercent : option Percent;
  hasMoved : bool
}.

Definition idle : DragRef :=
  {| draggingPinId := JNull; pointerId := None; startClient := None;
     lastPercent := None; hasMoved := false |}.

(** The props the layer calls while a marker is dragged. *)
Inductive callback : Type :=
| onMovePin (pinId : jsval) (next : Percent)
| onCommitMovePin (pinId : jsval) (last : Percent).

(** [pointerId !== e.pointerId]. *)
Definition other_pointer (stored : option Z) (e : PointerEvent.t) : bool :=
  match stored with
  | None => true
  | Some p => negb (p =? PointerEvent.pointerId e)%Z
  end.

Definition startDrag (props : Props) (d : DragRef) (e : PointerEvent.t)
  (pinId : jsval) : DragRef :=
  match mode props with
  | view => d
  | edit =>
      if negb (hasImageSize props) then d
      else
        {| draggingPinId := pinId;
           pointerId := Some (PointerEvent.pointerId e);
           startClient :=
             Some (Point.mk (PointerEvent.clientX e) (PointerEvent.clientY e));
           lastPercent := None;
           hasMoved := false |}
  end.

Definition DRAG_THRESHOLD_PX : Q := 4.

(** In the last branch [startClient] or [imageSize] is missing; the source
    would read a property of [null] there. The branch is never taken:
    [startDrag] stores [startClient] together with [draggingPinId], and
    [hasImageSize] has just been tested. *)
Definition moveDrag (props : Props) (d : DragRef) (e : PointerEvent.t)
  : DragRef * list callback :=
  if is_nullish (draggingPinId d) then (d, [])
  else if other_pointer (pointerId d) e then (d, [])
  else if negb (hasImageSize props) then (d, [])
  else
    match startClient d, imageSize props with
    | Some start, Some size =>
        let dx := PointerEvent.clientX e - Point.x start in
        let dy := PointerEvent.clientY e - Point.y start in
        if negb (hasMoved d) && Math.hypot_lt dx dy DRAG_THRESHOLD_PX
        then (d, [])
        else
          let next :=
            toPercent (transform props) size
              (PointerEvent.clientX e) (PointerEvent.clientY e) in
          ({| draggingPinId := draggingPinId d;
              pointerId := pointerId d;
              startClient := startClient d;
              lastPercent := Some next;
              hasMoved := true |},
           [onMovePin (draggingPinId d) next])
    | _, _ => (d, [])
    end.

Definition endDrag (d : DragRef) (e : PointerEvent.t)
  : DragRef * list callback :=
  if is_nullish (draggingPinId d) then (d, [])
  else if other_pointer (pointerId d) e then (d, [])
  else
    match hasMoved d, lastPercent d with
    | true, Some last => (idle, [onCommitMovePin (draggingPinId d) last])
    | _, _ => (idle, [])
    end.

(** *** Pointer events on a marker, in arrival order *)

Inductive gesture : Type :=
| PointerDown (e : PointerEvent.t) (pinId : jsval)
| PointerMove (e : PointerEvent.t)
| PointerUp (e : PointerEvent.t)
| PointerCancel (e : PointerEvent.t).

(** Each event is handled with the props of the latest render. *)
Definition step (props : Props) (g : gesture) (d : DragRef)
  : DragRef * list callback :=
  match g with
  | PointerDown e pinId => (startDrag props d e pinId, [])
  | PointerMove e => moveDrag props d e
  | PointerUp e | PointerCancel e => endDrag d e
  end.

Fixpoint run (gs : list (Props * gesture)) (d : DragRef)
  : DragRef * list callback :=
  match gs with
  | [] => (d, [])
  | (props, g) :: rest =>
      let '(d1, out1) := step props g d in
      let '(d2, out2) := run rest d1 in
      (d2, out1 ++ out2)
  end.

(** The coordinates a callback carries. *)
Definition carried (c : callback) : Percent :=
  match c with
  | onMovePin _ p | onCommitMovePin _ p => p
  end.

(** Both coordinates lie in [0, 100]. *)
Definition in_range (p : Percent) : Prop :=
  (0 <= xPercent p <= 100) /\ (0 <= yPercent p <= 100).

(** What a drag session remembers is in range. *)
Definition remembers_in_range (d : DragRef) : Prop :=
  forall p, lastPercent d = Some p -> in_range p.

(** What a drag session remembers has the property [P]. *)
Definition remembers (P : Percent -> Prop) (d : DragRef) : Prop :=
  forall p, lastPercent d = Some p -> P p.

(** The position [toPercent] gives for the pointer event [e] under
    [props], when these have an image size, has the property [P]. *)
Definition move_gives (P : Percent -> Prop) (props : Props)
  (e : PointerEvent.t) : Prop :=
  forall size : Size.t,
    imageSize props = Some size -> hasImageSize props = true ->
    P (toPercent (transform props) size
         (PointerEvent.clientX e) (PointerEvent.clientY e)).

(** *** A drag session

    The image size does not change during a session; the transform may,
    as the viewport can be zoomed while a marker is held. *)

Definition session_props (size : Size.t) (t : Transform.t) : Props :=
  {| mode := edit; transform := t; imageSize := Some size |}.

(** Pointer moves, each with the transform of the render before it. *)
Definition move_gestures (size : Size.t)
  (ms : list (Transform.t * PointerEvent.t)) : list (Props * gesture) :=
  (fun m => (session_props size (fst m), PointerMove (snd m))) <$> ms.

(** What can arrive while a session is held, short of another
    pointer-down: a move of the session's pointer, with the transform of
    the render before it, or a move, release or cancel of another pointer,
    under any props. *)
Inductive session_event : Type :=
| Own (m : Transform.t * PointerEvent.t)
| Foreign (pg : Props * gesture).

Definition session_gestures (size : Size.t) (evs : list session_event)
  : list (Props * gesture) :=
  (fun ev =>
     match ev with
     | Own m => (session_props size (fst m), PointerMove (snd m))
     | Foreign pg => pg
     end) <$> evs.

(** The moves of the session's own pointer, in order. *)
Definition own_moves (evs : list session_event)
  : list (Transform.t * PointerEvent.t) :=
  omap (fun ev => match ev with Own m => Some m | Foreign _ => None end) evs.

(** The event fits the session of pointer [pid]: an own move is of that
    pointer, a foreign event is of another pointer and not a
    pointer-down. *)
Definition of_session (pid : Z) (ev : session_event) : Prop :=
  match ev with
  | Own m => PointerEvent.pointerId (snd m) = pid
  | Foreign (_, PointerDown _ _) => False
  | Foreign (_, PointerMove e)
  | Foreign (_, PointerUp e)
  | Foreign (_, PointerCancel e) => PointerEvent.pointerId e <> pid
  end.

(** The position a pointer move stands for. *)
Definition reported (size : Size.t) (m : Transform.t * PointerEvent.t)
  : Percent :=
  toPercent (fst m) size
    (PointerEvent.clientX (snd m)) (PointerEvent.clientY (snd m)).

(** The square of the distance, in screen pixels, between the point where
    the pointer went down and the event [e]. *)
Definition displacement_sq (start : Point.t) (e : PointerEvent.t) : Q :=
  let dx := PointerEvent.clientX e - Point.x start in
  let dy := PointerEvent.clientY e - Point.y start in
  dx * dx + dy * dy.

(** A session in progress. *)
Definition held (pinId : jsval) (pid : Z) (start : Point.t)
  (last : option Percent) (moved : bool) : DragRef :=
  {| draggingPinId := pinId; pointerId := Some pid;
     startClient := Some start; lastPercent := last; hasMoved := moved |}.

(** Sample session data: the image of 1600 x 900 shown at scale 2/3,
    pointer 7 going down at (400, 300) and moving by (2, 2), then to
    (4, 0) and back to (1, 0) from where it went down. *)
Definition photo : Size.t := Size.mk 1600 900.
Definition shown : Transform.t :=
  Transform.mk (2 # 3) (Point.mk (- (400 # 3)) 0).
Definition down_at : PointerEvent.t := PointerEvent.mk 7 400 300.
Definition nudge : Transform.t * PointerEvent.t :=
  (shown, PointerEvent.mk 7 402 302).
Definition pull : Transform.t * PointerEvent.t :=
  (shown, PointerEvent.mk 7 404 300).
Definition settle : Transform.t * PointerEvent.t :=
  (shown, PointerEvent.mk 7 401 300).
Definition release : PointerEvent.t := PointerEvent.mk 7 401 300.

(** A second pointer, 9, that goes down on another marker at (500, 400)
    while pointer 7 holds its marker 50 pixels from where it went down;
    pointer 7 then moves on and is released, and pointer 9 is released. *)
Definition second_finger : PointerEvent.t := PointerEvent.mk 9 500 400.
Definition far : Transform.t * PointerEvent.t :=
  (shown, PointerEvent.mk 7 450 300).
Definition interrupted : list (Props * gesture) :=
  let props := session_props photo shown in
  [(props, PointerDown down_at (JNum 2));
   (props, PointerMove (snd far));
   (props, PointerDown second_finger (JNum 3));
   (props, PointerMove (PointerEvent.mk 7 460 300));
   (props, PointerUp (PointerEvent.mk 7 460 300));
   (props, PointerUp second_finger)].

End PinLayer.

(** ** src/App.jsx *)

Module App.
Local Open Scope Q_scope.

(** A pin is a JSON object. *)
Abbreviation pin := (gmap string jsval).

(** [o.k]: a missing property reads [undefined]. *)
Definition get (o : pin) (k : string) : jsval := default JUndefined (o !! k).

(** [{ ...a, ...b }]: the properties of [b] win. *)
Definition spread (a b : pin) : pin := b ∪ a.

Definition MAP_ID : Z := 1.

Definition NEW_PIN_DEFAULTS : pin :=
  {[ "name" := JStr "New little plant";
     "type" := JStr "Plantus unidentifiedus";
     "wateringIntervalDays" := JNull ]}.

Definition clampPercent (value : Q) : Q := Math.max 0 (Math.min 100 value).

Record State : Type := {
  mode : Mode;
  pins : list pin;
  selectedPinId : jsval;
  isDetailsOpen : bool;
  transformRef : Transform.t;
  imageSizeRef : Size.t
}.

Definition initial : State :=
  {| mode := view; pins := []; selectedPinId := JNull;
     isDetailsOpen := false;
     transformRef := Transform.mk 1 (Point.mk 0 0);
     imageSizeRef := Size.mk 0 0 |}.

(** [setPins(f)] with an updater function. *)
Definition setPins (f : list pin -> list pin) (s : State) : State :=
  {| mode := mode s; pins := f (pins s); selectedPinId := selectedPinId s;
     isDetailsOpen := isDetailsOpen s; transformRef := transformRef s;
     imageSizeRef := imageSizeRef s |}.

Definition setSelectedPinId (v : jsval) (s : State) : State :=
  {| mode := mode s; pins := pins s; selectedPinId := v;
     isDetailsOpen := isDetailsOpen s; transformRef := transformRef s;
     imageSizeRef := imageSizeRef s |}.

Definition setIsDetailsOpen (v : bool) (s : State) : State :=
  {| mode := mode s; pins := pins s; selectedPinId := selectedPinId s;
     isDetailsOpen := v; transformRef := transformRef s;
     imageSizeRef := imageSizeRef s |}.

Definition updatePinLocal (pinId : jsval) (patchOrDto : pin) (s : State)
  : State :=
  setPins
    (fun prevPins =>
       (fun p : pin =>
          if strict_eq (get p "id") pinId then spread p patchOrDto else p)
       <$> prevPins)
    s.

(** Stores the transform in [transformRef]; the copy kept in React state
    for rendering ([transformState]) is not part of the model. *)
Definition handleTransformChange (transform : Transform.t) (s : State)
  : State :=
  {| mode := mode s; pins := pins s; selectedPinId := selectedPinId s;
     isDetailsOpen := isDetailsOpen s; transformRef := transform;
     imageSizeRef := imageSizeRef s |}.

Definition handleImageMeta (img : ZoomableImage.Img) (s : State) : State :=
  {| mode := mode s; pins := pins s; selectedPinId := selectedPinId s;
     isDetailsOpen := isDetailsOpen s; transformRef := transformRef s;
     imageSizeRef :=
       Size.mk (ZoomableImage.naturalWidth img)
               (ZoomableImage.naturalHeight img) |}.

(** [addPinAtClient] up to its [await]: the payload handed to
    [createPin(MAP_ID, payload)], or [None] when the guard returns. *)
Definition addPinAtClient_payload (s : State) (clientX clientY : Q)
  : option pin :=
  let scale := Transform.scale (transformRef s) in
  let pos := Transform.pos (transformRef s) in
  let width := Size.width (imageSizeRef s) in
  let height := Size.height (imageSizeRef s) in
  if Qeq_bool width 0 || Qeq_bool height 0 then None
  else
    let xPercent := ((clientX - Point.x pos) / (width * scale)) * 100 in
    let yPercent := ((clientY - Point.y pos) / (height * scale)) * 100 in
    Some
      (spread
         {[ "xPercent" := JNum (clampPercent xPercent);
            "yPercent" := JNum (clampPercent yPercent) ]}
         NEW_PIN_DEFAULTS).

(** [addPinAtClient] after the [await], on the state of that moment. *)
Definition addPinAtClient_settled (r : settled pin) (s : State) : State :=
  match r with
  | Resolved created => setPins (fun prev => prev ++ [created]) s
  | Rejected _ => s
  end.

Definition handleMovePin (pinId : jsval) (next : PinLayer.Percent)
  (s : State) : State :=
  updatePinLocal pinId
    {[ "xPercent" := JNum (PinLayer.xPercent next);
       "yPercent" := JNum (PinLayer.yPercent next) ]}
    s.

(** The body of the PATCH request of [handleCommitMovePin]. *)
Definition handleCommitMovePin_payload (last : PinLayer.Percent) : pin :=
  {[ "xPercent" := JNum (PinLayer.xPercent last);
     "yPercent" := JNum (PinLayer.yPercent last) ]}.

Definition handleCommitMovePin_settled (pinId : jsval) (r : settled pin)
  (s : State) : State :=
  match r with
  | Resolved updated => updatePinLocal pinId updated s
  | Rejected _ => s
  end.

Definition handleOpenPin (pinId : jsval) (s : State) : State :=
  setSelectedPinId pinId s.

Definition handleClosePopup (s : State) : State := setSelectedPinId JNull s.

(** [handleMarkWatered] after [await waterPin(pinId)]. *)
Definition handleMarkWatered_settled (pinId : jsval) (r : settled pin)
  (s : State) : State :=
  match r with
  | Resolved updated => updatePinLocal pinId updated s
  | Rejected _ => s
  end.

Definition handleOpenDetails (pinId : jsval) (s : State) : State :=
  setIsDetailsOpen true (setSelectedPinId pinId s).

Definition handleCloseDetails (s : State) : State :=
  setSelectedPinId JNull (setIsDetailsOpen false s).

(** [handleUpdatePin] after [await patchPin(pinId, patch)]; on rejection the
    error is thrown again to the caller and the state stays. *)
Definition handleUpdatePin_settled (pinId : jsval) (r : settled pin)
  (s : State) : State :=
  match r with
  | Resolved updated => updatePinLocal pinId updated s
  | Rejected _ => s
  end.

(** [handleDeletePin] after [await deletePin(pinId)]. *)
Definition handleDeletePin_settled (pinId : jsval) (r : settled unit)
  (s : State) : State :=
  match r with
  | Resolved _ =>
      setSelectedPinId JNull
        (setIsDetailsOpen false
           (setPins
              (fun prev =>
                 List.filter
                   (fun p : pin => negb (strict_eq (get p "id") pinId)) prev)
              s))
  | Rejected _ => s
  end.

(** [selectedPin]: [pins.find((p) => p.id === selectedPinId) ?? null]. *)
Definition selectedPin (s : State) : option pin :=
  List.find (fun p : pin => strict_eq (get p "id") (selectedPinId s)) (pins s).

(** The pin list [pins'] differs from [pins] at most at pins whose [id]
    is [pinId]: same length, and at every index a pin with another [id]
    is the pin that was there. *)
Definition only_touches (pinId : jsval) (pins pins' : list pin) : Prop :=
  length pins' = length pins
  /\ forall (i : nat) (p : pin),
      pins !! i = Some p ->
      strict_eq (get p "id") pinId = false ->
      pins' !! i = Some p.

(** No two entries of the list carry the same [id]. *)
Definition distinct_ids (pins : list pin) : Prop :=
  forall (i j : nat) (p q : pin),
    pins !! i = Some p -> pins !! j = Some q ->
    strict_eq (get p "id") (get q "id") = true -> i = j.

(** Three pins as the backend lists them. *)
Definition rose : pin :=
  {[ "id" := JNum 1; "xPercent" := JNum 10; "yPercent" := JNum 20;
     "name" := JStr "Rose"; "type" := JStr "Rosa";
     "wateringIntervalDays" := JNum 3; "lastWatered" := JNull ]}.

Definition fern : pin :=
  {[ "id" := JNum 2; "xPercent" := JNum 55; "yPercent" := JNum 40;
     "name" := JStr "Fern"; "type" := JStr "Polypodiopsida";
     "wateringIntervalDays" := JNull; "lastWatered" := JNull ]}.

Definition mint : pin :=
  {[ "id" := JNum 3; "xPercent" := JNum 90; "yPercent" := JNum 75;
     "name" := JStr "Mint"; "type" := JStr "Mentha";
     "wateringIntervalDays" := JNum 1; "lastWatered" := JNull ]}.

(** The application in edit mode with the three pins, the fern selected
    and its details open, over the image of 1600 x 900 at scale 2/3. *)
Definition garden : State :=
  {| mode := edit; pins := [rose; fern; mint];
     selectedPinId := JNum 2; isDetailsOpen := true;
     transformRef := Transform.mk (2 # 3) (Point.mk (- (400 # 3)) 0);
     imageSizeRef := Size.mk 1600 900 |}.

End App.

(** ** The page: how the components are wired in [App]'s JSX *)

Module Page.
Local Open Scope Q_scope.

(** [onTransformChange={handleTransformChange}] and
    [onImageMeta={handleImageMeta}]. *)
Definition deliver (c : ZoomableImage.callback) (s : App.State) : App.State :=
  match c with
  | ZoomableImage.onTransformChange t => App.handleTransformChange t s
  | ZoomableImage.onImageMeta img => App.handleImageMeta img s
  end.

(** The callbacks of a run of the viewport, in call order. *)
Definition deliver_all (cs : list ZoomableImage.callback) (s : App.State)
  : App.State :=
  foldl (fun acc c => deliver c acc) s cs.

(** The container has a positive width and height. *)
Definition roomy (env : ZoomableImage.Env) : Prop :=
  0 < Size.width (ZoomableImage.getContainerSize env)
  /\ 0 < Size.height (ZoomableImage.getContainerSize env).

(** An admissible event that, when it is a resize, leaves the container a
    positive width and height. *)
Definition roomy_event (ev : ZoomableImage.event) : Prop :=
  ZoomableImage.admissible ev
  /\ match ev with
     | ZoomableImage.Resize container win =>
         let size := match container with Some el => el | None => win end in
         0 < Size.width size /\ 0 < Size.height size
     | _ => True
     end.

(** One axis of a pan: the offset [got] is the [wanted] one while that
    lies in [lo, 0], and the bound it crossed otherwise. *)
Definition follows_pointer (lo wanted got : Q) : Prop :=
  (lo <= wanted <= 0 -> got == wanted)
  /\ (wanted <= lo -> got == lo)
  /\ (0 <= wanted -> got == 0).

(** The transform a state of the viewport draws the image with. *)
Definition drawn (s : ZoomableImage.State) : Transform.t :=
  Transform.mk (ZoomableImage.scale s) (ZoomableImage.pos s).

(** [n] animation frames in a row. *)
Definition frames (n : nat) : list ZoomableImage.event :=
  repeat ZoomableImage.Frame n.

(** The rectangle of the image on the screen when the container's top left
    corner is the origin of the client area: the offset, and the natural
    size times the scale. *)
Definition image_rect (img : ZoomableImage.Img) (s : ZoomableImage.State)
  : ZoomableImage.DOMRect.t :=
  ZoomableImage.DOMRect.mk
    (Point.x (ZoomableImage.pos s)) (Point.y (ZoomableImage.pos s))
    (ZoomableImage.naturalWidth img * ZoomableImage.scale s)
    (ZoomableImage.naturalHeight img * ZoomableImage.scale s).

End Page.

(** ** Kinds of pointer events on a marker *)

Module Gestures.

(** A pointer-down that [startDrag] turns away: the layer is in view mode
    or has no image size yet. Other events are not restricted. *)
Definition turned_away (pg : PinLayer.Props * PinLayer.gesture) : Prop :=
  match snd pg with
  | PinLayer.PointerDown _ _ =>
      PinLayer.mode (fst pg) = view \/ PinLayer.hasImageSize (fst pg) = false
  | _ => True
  end.

(** A move, release or cancel of a pointer other than [pid]. *)
Definition of_other_pointer (pid : Z) (pg : PinLayer.Props * PinLayer.gesture)
  : Prop :=
  match snd pg with
  | PinLayer.PointerDown _ _ => False
  | PinLayer.PointerMove e | PinLayer.PointerUp e | PinLayer.PointerCancel e =>
      PinLayer.PointerEvent.pointerId e <> pid
  end.

(** [stored] is [raw] clamped into [0, 100]: [raw] itself when that is in
    the interval, and the bound next to it otherwise. *)
Definition clamped (raw stored : Q) : Prop :=
  (0 <= stored <= 100)%Q
  /\ (0 <= raw <= 100 -> stored == raw)%Q
  /\ (raw <= 0 -> stored == 0)%Q
  /\ (100 <= raw -> stored == 100)%Q.

(** Where a screen coordinate lies along one axis of the image as it is
    drawn, in percent of the image and before clamping: [offset] is the
    screen coordinate of the image edge, [extent] the natural size. *)
Definition along (offset extent scale client : Q) : Q :=
  ((client - offset) / (extent * scale) * 100)%Q.

(** The position [p] is the one [toPercent] gives for a pointer move of
    the list, under the props of that move. *)
Definition from_move (gs : list (PinLayer.Props * PinLayer.gesture))
  (p : PinLayer.Percent) : Prop :=
  exists (props : PinLayer.Props) (e : PinLayer.PointerEvent.t)
         (size : Size.t),
    In (props, PinLayer.PointerMove e) gs
    /\ PinLayer.imageSize props = Some size
    /\ PinLayer.hasImageSize props = true
    /\ p = PinLayer.toPercent (PinLayer.transform props) size
             (PinLayer.PointerEvent.clientX e)
             (PinLayer.PointerEvent.clientY e).

(** The rectangle the image covers on the screen under a transform, as
    the interval of each axis. *)
Definition inside_image (t : Transform.t) (size : Size.t) (cx cy : Q) : Prop :=
  (Point.x (Transform.pos t) <= cx
   <= Point.x (Transform.pos t) + Size.width size * Transform.scale t)%Q
  /\ (Point.y (Transform.pos t) <= cy
      <= Point.y (Transform.pos t) + Size.height size * Transform.scale t)%Q.

End Gestures.

(** ** More of src/App.jsx and of the JSX of src/components/PinLayer.jsx *)

Module Pins.
Import App.

(** A patch that leaves the pin its [id]: it has no [id] property, or
    one that is [=== pinId]. The move patch [{ xPercent, yPercent }] has
    none; the DTO the backend answers with carries the id of the pin. *)
Definition keeps_id (pinId : jsval) (patch : pin) : Prop :=
  match patch !! "id" with
  | Some v => strict_eq v pinId = true
  | None => True
  end.

(** No pin of the list has the id [pinId]. *)
Definition fresh_id (pinId : jsval) (pins : list pin) : Prop :=
  Forall (fun p : pin => strict_eq (get p "id") pinId = false) pins.

(** PinLayer: [isActive = pin.id === selectedPinId && !isDetailsOpen], the
    condition under which the popup of a pin is rendered. *)
Definition isActive (s : State) (p : pin) : bool :=
  strict_eq (get p "id") (selectedPinId s) && negb (isDetailsOpen s).

(** App: [isDetailsOpen && selectedPin && <DetailsPanel pin={selectedPin}>]:
    the pin the details panel is rendered for, if it is rendered. *)
Definition detailsPanel (s : State) : option pin :=
  if isDetailsOpen s then selectedPin s else None.

(** The click event on the top-level container. *)
Record Click : Type := { ctrlKey : bool; clientX : Q; clientY : Q }.

(** [handleTopLevelClick]: the state after the click, and the payload of
    the [createPin] request it starts, if any. *)
Definition handleTopLevelClick (e : Click) (s : State) : State * option pin :=
  let request :=
    match mode s with
    | edit =>
        if ctrlKey e then addPinAtClient_payload s (clientX e) (clientY e)
        else None
    | view => None
    end in
  let s' :=
    if negb (isDetailsOpen s) && negb (strict_eq (selectedPinId s) JNull)
    then setSelectedPinId JNull s
    else s in
  (s', request).

End Pins.

(** ** src/components/DetailsPanel.jsx

    Strings. A character of a Rocq string stands for one UTF-16 code unit
    below 256; text with other code units is outside the model.
    Numbers. [Number] of a string of digits is a double: the whole number
    the digits denote when that is below 2^53, the nearest double above
    (a whole number too), and [Infinity] from 2^1024 - 2^970 on. The
    interval of a pin is a whole number, [Z]. *)

Module DetailsPanel.

(** The code units below 256 that [String.prototype.trim] strips: TAB, LF,
    VT, FF, CR, SPACE and NBSP. *)
Definition is_white (c : ascii) : bool :=
  match c with
  | "009" | "010" | "011" | "012" | "013" | " " | "160" => true
  | _ => false
  end%char.

Fixpoint trimStart (s : string) : string :=
  match s with
  | EmptyString => EmptyString
  | String c rest => if is_white c then trimStart rest else s
  end.

Fixpoint trimEnd (s : string) : string :=
  match s with
  | EmptyString => EmptyString
  | String c rest =>
      let rest' := trimEnd rest in
      if is_white c && String.eqb rest' "" then EmptyString
      else String c rest'
  end.

(** [s.trim()]. *)
Definition trim (s : string) : string := trimEnd (trimStart s).

(** [(value ?? "").trim()]; [None] is [null] or [undefined]. *)
Definition normalizeText (value : option string) : string :=
  trim (default "" value).

Definition is_digit (c : ascii) : bool :=
  match c with
  | "0" | "1" | "2" | "3" | "4" | "5" | "6" | "7" | "8" | "9" => true
  | _ => false
  end%char.

Definition digit_value (c : ascii) : Z := (Z.of_N (N_of_ascii c) - 48)%Z.

Fixpoint all_digits (s : string) : bool :=
  match s with
  | EmptyString => true
  | String c rest => is_digit c && all_digits rest
  end.

(** [/^\d+$/.test(s)]. *)
Definition is_digits (s : string) : bool :=
  negb (String.eqb s "") && all_digits s.

Fixpoint number_from (acc : Z) (s : string) : Z :=
  match s with
  | EmptyString => acc
  | String c rest => number_from (acc * 10 + digit_value c)%Z rest
  end.

(** The doubles [Number] gives for a string of digits. *)
Inductive number : Type :=
| Whole (n : Z)
| Infinity.

(** The double nearest to the whole number [n >= 0], ties to even: 53 bits
    of significand, and [Infinity] when the rounded value reaches 2^1024. *)
Definition nearest_double (n : Z) : number :=
  if (n <? 2 ^ 53)%Z then Whole n
  else
    let e := (Z.log2 n - 52)%Z in
    let q := (n / 2 ^ e)%Z in
    let r := (n mod 2 ^ e)%Z in
    let half := (2 ^ (e - 1))%Z in
    let q' :=
      if (half <? r)%Z || ((r =? half)%Z && Z.odd q) then (q + 1)%Z else q in
    let v := (q' * 2 ^ e)%Z in
    if (2 ^ 1024 <=? v)%Z then Infinity else Whole v.

(** [Number(s)] for a string of digits: the decimal value, rounded to a
    double. *)
Definition Number (s : string) : number := nearest_double (number_from 0 s).

(** [Number.isInteger(n)]. *)
Definition isInteger (n : number) : bool :=
  match n with
  | Whole _ => true
  | Infinity => false
  end.

(** [n < k] for a whole number [k]. *)
Definition less_than (n : number) (k : Z) : bool :=
  match n with
  | Whole m => (m <? k)%Z
  | Infinity => false
  end.

Definition formatFrequency (days : option Z) : string :=
  match days with
  | None => "Unknown"
  | Some days =>
      if (days =? 1)%Z then "Every day"
      else "Every " +:+ pretty days +:+ " days"
  end.

(** The result of [parseInterval]: [{ value, error }]. *)
Record Parsed : Type := { value : option Z; error : string }.

Definition whole_days_please : string := "Give me whole days (1 or more).".

Definition parseInterval (input : option string) : Parsed :=
  let trimmed := normalizeText input in
  if String.eqb trimmed "" then {| value := None; error := "" |}
  else if negb (is_digits trimmed)
  then {| value := None; error := whole_days_please |}
  else
    let n := Number trimmed in
    if negb (isInteger n) || less_than n 1
    then {| value := None; error := whole_days_please |}
    else
      match n with
      | Whole days => {| value := Some days; error := "" |}
      | Infinity =>
          (* not reached: [Infinity] is not an integer *)
          {| value := None; error := whole_days_please |}
      end.

(** The [pin] prop as the panel reads it. *)
Module Pin.
Record t : Type := mk {
  id : jsval;
  name : option string;
  type : option string;
  wateringIntervalDays : option Z
}.
End Pin.

(** The [draft] state: the three text fields of the form. *)
Module Draft.
Record t : Type := mk {
  name : string;
  type : string;
  wateringIntervalDays : string
}.
End Draft.

(** A [patch] object; [None] is a property that is not set. The interval,
    when set, is a number or [null]. *)
Module Patch.
Record t : Type := mk {
  name : option string;
  type : option string;
  wateringIntervalDays : option (option Z)
}.
Definition empty : t := mk None None None.
End Patch.

(** The [errors] object; [None] is a property that is not set. *)
Module Errors.
Record t : Type := mk {
  name : option string;
  type : option string;
  wateringIntervalDays : option string
}.
End Errors.

(** [Object.keys(o).length === 0]. *)
Definition no_errors (e : Errors.t) : bool :=
  match Errors.name e, Errors.type e, Errors.wateringIntervalDays e with
  | None, None, None => true
  | _, _, _ => false
  end.

Definition no_changes (p : Patch.t) : bool :=
  match Patch.name p, Patch.type p, Patch.wateringIntervalDays p with
  | None, None, None => true
  | _, _, _ => false
  end.

Definition resetDraftFromPin (pin : Pin.t) : Draft.t :=
  {| Draft.name := default "" (Pin.name pin);
     Draft.type := default "" (Pin.type pin);
     Draft.wateringIntervalDays :=
       match Pin.wateringIntervalDays pin with
       | None => ""
       | Some days => pretty days
       end |}.

(** What [handleSave] does up to its [await]: it shows errors, or closes
    the editor without a request, or calls [onUpdatePin(pin.id, patch)]. *)
Inductive saving : Type :=
| Invalid (errors : Errors.t)
| NothingToSave
| Request (pinId : jsval) (patch : Patch.t).

Definition handleSave (pin : Pin.t) (draft : Draft.t) : saving :=
  let nameTrimmed := normalizeText (Some (Draft.name draft)) in
  let typeTrimmed := normalizeText (Some (Draft.type draft)) in
  let intervalParsed :=
    parseInterval (Some (Draft.wateringIntervalDays draft)) in
  let nextErrors :=
    {| Errors.name :=
         if String.eqb nameTrimmed "" then Some "This plant deserves a name."
         else None;
       Errors.type :=
         if String.eqb typeTrimmed ""
         then Some "Give it a type so you remember what it is."
         else None;
       Errors.wateringIntervalDays :=
         if String.eqb (error intervalParsed) "" then None
         else Some (error intervalParsed) |} in
  if negb (no_errors nextErrors) then Invalid nextErrors
  else
    let currentName := normalizeText (Pin.name pin) in
    let currentType := normalizeText (Pin.type pin) in
    let currentInterval := Pin.wateringIntervalDays pin in
    let patch :=
      {| Patch.name :=
           if String.eqb nameTrimmed currentName then None
           else Some nameTrimmed;
         Patch.type :=
           if String.eqb typeTrimmed currentType then None
           else Some typeTrimmed;
         Patch.wateringIntervalDays :=
           if bool_decide (value intervalParsed = currentInterval) then None
           else Some (value intervalParsed) |} in
    if no_changes patch then NothingToSave
    else Request (Pin.id pin) patch.

(** The pin after the backend has applied a patch and the answer has been
    merged into the local pin: the properties of the patch replace the
    pin's. *)
Definition reconciled (pin : Pin.t) (patch : Patch.t) : Pin.t :=
  {| Pin.id := Pin.id pin;
     Pin.name :=
       match Patch.name patch with Some v => Some v | None => Pin.name pin end;
     Pin.type :=
       match Patch.type patch with Some v => Some v | None => Pin.type pin end;
     Pin.wateringIntervalDays :=
       match Patch.wateringIntervalDays patch with
       | Some v => v
       | None => Pin.wateringIntervalDays pin
       end |}.

(** A text without white space at either end. *)
Definition trimmed (s : string) : Prop := trim s = s.

(** A text that does not begin with white space. *)
Definition starts_clean (s : string) : Prop :=
  match s with
  | EmptyString => True
  | String c _ => is_white c = false
  end.

(** The character [c] occurs in [s]. *)
Fixpoint occurs (c : ascii) (s : string) : Prop :=
  match s with
  | EmptyString => False
  | String c' rest => c = c' \/ occurs c rest
  end.

(** Sample pins and drafts. *)
Definition fern : Pin.t := Pin.mk (JNum 2) (Some "Fern") (Some "Fern") None.

Definition fern_edited : Draft.t :=
  Draft.mk "  Lady fern " "Fern" " 3 ".

End DetailsPanel.

(** * Properties *)

(** ** Numbers *)

Section Numbers.
Local Open Scope Q_scope.

Lemma Qltb_true (a b : Q) : Qltb a b = true <-> a < b.
Proof.
  unfold Qltb. rewrite negb_true_iff, <- not_true_iff_false, Qle_bool_iff.
  split; intros H; [apply Qnot_le_lt | apply Qlt_not_le]; exact H.
Qed.

Lemma Qltb_false (a b : Q) : Qltb a b = false <-> b <= a.
Proof.
  unfold Qltb. rewrite negb_false_iff. apply Qle_bool_iff.
Qed.

Lemma max_lower (a b : Q) : a <= Math.max a b.
Proof. apply Q.le_max_l. Qed.

Lemma min_upper (a b : Q) : Math.min a b <= a.
Proof. apply Q.le_min_l. Qed.

Lemma min_zero_nonpos (a : Q) : Math.min 0 a <= 0.
Proof. apply min_upper. Qed.

(** [Math.max(0, Math.min(100, v))] lands in [0, 100] whatever [v] is. *)
Lemma max0_min100_range (v : Q) :
  0 <= Math.max 0 (Math.min 100 v) <= 100.
Proof.
  split; [apply max_lower |].
  apply Q.max_lub; [lra | apply min_upper].
Qed.

(** ... and leaves a value of [0, 100] alone. *)
Lemma max0_min100_fix (e v : Q) :
  e == v -> 0 <= v <= 100 -> Math.max 0 (Math.min 100 e) == v.
Proof.
  intros He [H0 H100]. unfold Math.max, Math.min.
  destruct (Q.min_spec 100 e) as [[Hlt Hm] | [Hle Hm]];
    destruct (Q.max_spec 0 (Qmin 100 e)) as [[Hlt' HM] | [Hle' HM]];
    rewrite HM; lra.
Qed.

End Numbers.

(** ** DateFormatter *)

Section DateFormatterFacts.
Import DateFormatter.
Local Open Scope Z_scope.

Variable Date_parse : string -> option Z.
Variable now : Z.

Lemma format_string (iso : string) :
  iso <> "" ->
  formatLastWatered Date_parse now (IsoString iso) =
  match Date_parse iso with
  | None => "Probably"
  | Some last =>
      if now - last <=? 0 then "Today"
      else if (now - last) / MS_PER_DAY <=? 0 then "Today"
      else if (now - last) / MS_PER_DAY =? 1 then "1 day ago"
      else pretty ((now - last) / MS_PER_DAY) +:+ " days ago"
  end.
Proof.
  intros Hne. simpl.
  destruct (String.eqb_spec iso "") as [-> | _]; [contradiction | reflexivity].
Qed.

(** The whole days in a span that lies in day [d]. *)
Lemma whole_days (diffMs d : Z) :
  d * MS_PER_DAY <= diffMs < (d + 1) * MS_PER_DAY ->
  diffMs / MS_PER_DAY = d.
Proof.
  intros H. symmetry. apply (Z.div_unique diffMs MS_PER_DAY d (diffMs - d * MS_PER_DAY)).
  - left. unfold MS_PER_DAY in *. lia.
  - lia.
Qed.

End DateFormatterFacts.

(** C7. Whatever the clock reads: [null] gives "Probably"; a timestamp that
    lies 0 whole days back gives "Today", 1 whole day back "1 day ago",
    5 whole days back "5 days ago"; a timestamp at or after the clock gives
    "Today". *)
Theorem formatLastWatered_labels
  (Date_parse : string -> option Z) (now : Z) (iso : string) (last : Z) :
  iso <> "" ->
  Date_parse iso = Some last ->
  let label := DateFormatter.formatLastWatered Date_parse now in
  let day := DateFormatter.MS_PER_DAY in
  label DateFormatter.IsoNull = "Probably"
  /\ ((0 <= now - last < day)%Z ->
      label (DateFormatter.IsoString iso) = "Today")
  /\ ((day <= now - last < 2 * day)%Z ->
      label (DateFormatter.IsoString iso) = "1 day ago")
  /\ ((5 * day <= now - last < 6 * day)%Z ->
      label (DateFormatter.IsoString iso) = "5 days ago")
  /\ ((now <= last)%Z ->
      label (DateFormatter.IsoString iso) = "Today").
Proof.
  intros Hne Hparse label day. subst label day.
  rewrite (format_string _ _ _ Hne), Hparse.
  split; [reflexivity |].
  repeat split; intros H.
  - destruct (Z.leb_spec (now - last) 0) as [_ | _]; [reflexivity |].
    rewrite (whole_days _ 0) by lia. reflexivity.
  - destruct (Z.leb_spec (now - last) 0) as [Hle | _].
    + unfold DateFormatter.MS_PER_DAY in H. lia.
    + rewrite (whole_days _ 1) by lia. reflexivity.
  - destruct (Z.leb_spec (now - last) 0) as [Hle | _].
    + unfold DateFormatter.MS_PER_DAY in H. lia.
    + rewrite (whole_days _ 5) by lia. reflexivity.
  - destruct (Z.leb_spec (now - last) 0) as [_ | Hlt]; [reflexivity | lia].
Qed.

(** The five labels, run on a timestamp and clocks 0, 1 and 5 days and
    some hours later, and one hour earlier. *)
Lemma formatLastWatered_labels_witness :
  let iso := "2026-02-20T10:12:30Z" in
  let at_ now :=
    DateFormatter.formatLastWatered DateFormatter.parse_sample now
      (DateFormatter.IsoString iso) in
  at_ 1771582350000%Z = "Today"
  /\ at_ 1771600000000%Z = "Today"
  /\ at_ 1771700000000%Z = "1 day ago"
  /\ at_ 1772020000000%Z = "5 days ago"
  /\ at_ 1771578750000%Z = "Today".
Proof.
  intros iso at_. subst at_.
  assert (Hne : iso <> "") by discriminate.
  assert (Hp : DateFormatter.parse_sample iso = Some 1771582350000%Z)
    by reflexivity.
  pose proof (formatLastWatered_labels _ 1771582350000%Z iso _ Hne Hp) as A.
  pose proof (formatLastWatered_labels _ 1771600000000%Z iso _ Hne Hp) as B.
  pose proof (formatLastWatered_labels _ 1771700000000%Z iso _ Hne Hp) as C.
  pose proof (formatLastWatered_labels _ 1772020000000%Z iso _ Hne Hp) as D.
  pose proof (formatLastWatered_labels _ 1771578750000%Z iso _ Hne Hp) as E.
  cbv zeta in A, B, C, D, E. unfold DateFormatter.MS_PER_DAY in *.
  destruct A as (_ & A & _), B as (_ & B & _), C as (_ & _ & C & _),
    D as (_ & _ & _ & D & _), E as (_ & _ & _ & _ & E).
  split; [apply A; lia |].
  split; [apply B; lia |].
  split; [apply C; lia |].
  split; [apply D; lia | apply E; lia].
Defined.

(** C9. A non-empty string that the date parser rejects is labelled
    "Probably", as a missing value is; and on every argument the formatter
    answers with one of its labels: "Probably", "Today", "1 day ago", or
    a count of at least two followed by " days ago". *)
Theorem formatLastWatered_invalid_date
  (Date_parse : string -> option Z) (now : Z) :
  (forall iso : string,
      iso <> "" -> Date_parse iso = None ->
      DateFormatter.formatLastWatered Date_parse now
        (DateFormatter.IsoString iso) = "Probably")
  /\ DateFormatter.formatLastWatered Date_parse now DateFormatter.IsoNull
     = "Probably"
  /\ DateFormatter.formatLastWatered Date_parse now DateFormatter.IsoUndefined
     = "Probably"
  /\ DateFormatter.formatLastWatered Date_parse now
       (DateFormatter.IsoString "") = "Probably"
  /\ forall arg : DateFormatter.iso_arg,
      let label := DateFormatter.formatLastWatered Date_parse now arg in
      label = "Probably" \/ label = "Today" \/ label = "1 day ago"
      \/ exists n : Z, (2 <= n)%Z /\ label = pretty n +:+ " days ago".
Proof.
  split.
  { intros iso Hne Hnone. rewrite (format_string _ _ _ Hne), Hnone.
    reflexivity. }
  do 3 (split; [reflexivity |]).
  intros [ | | iso]; simpl; try (left; reflexivity).
  destruct (String.eqb iso ""); [left; reflexivity |].
  destruct (Date_parse iso) as [last |]; [| left; reflexivity].
  destruct (Z.leb_spec (now - last) 0); [right; left; reflexivity |].
  destruct (Z.leb_spec ((now - last) / DateFormatter.MS_PER_DAY) 0);
    [right; left; reflexivity |].
  destruct (Z.eqb_spec ((now - last) / DateFormatter.MS_PER_DAY) 1);
    [right; right; left; reflexivity |].
  right; right; right. eexists. split; [| reflexivity]. lia.
Qed.

(** The sample parser rejects "yesterday-ish". *)
Lemma formatLastWatered_invalid_date_witness :
  DateFormatter.formatLastWatered DateFormatter.parse_sample 0
    (DateFormatter.IsoString "yesterday-ish") = "Probably".
Proof.
  apply (proj1 (formatLastWatered_invalid_date DateFormatter.parse_sample 0)).
  - discriminate.
  - reflexivity.
Defined.

(** ** Percent and screen coordinates *)

Section Conversion.
Import PinLayer.
Local Open Scope Q_scope.

Lemma clampPercent_range (v : Q) : 0 <= clampPercent v <= 100.
Proof. apply max0_min100_range. Qed.

Lemma clampPercent_fix (e v : Q) :
  e == v -> 0 <= v <= 100 -> clampPercent e == v.
Proof. apply max0_min100_fix. Qed.

Lemma toPercent_range (t : Transform.t) (size : Size.t) (cx cy : Q) :
  (0 <= xPercent (toPercent t size cx cy) <= 100)
  /\ (0 <= yPercent (toPercent t size cx cy) <= 100).
Proof. split; apply clampPercent_range. Qed.

(** Undoing [toScreen] on one axis, before the clamp. *)
Lemma unscale_axis (offset extent scale percent : Q) :
  0 < extent -> 0 < scale ->
  ((offset + (percent / 100) * extent * scale - offset) / (extent * scale))
  * 100 == percent.
Proof. intros He Hs. field. split; lra. Qed.

End Conversion.

(** C1. With a positive scale and a positive natural size, converting a
    percentage position of [0,100] x [0,100] to the screen and back under
    the same transform returns the position. Over exact numbers the two
    conversions are inverse to each other; the doubles of the source follow
    this law up to rounding. *)
Theorem toPercent_toScreen_roundtrip
  (t : Transform.t) (size : Size.t) (xPercent yPercent : Q) :
  (0 <= xPercent <= 100)%Q ->
  (0 <= yPercent <= 100)%Q ->
  (0 < Transform.scale t)%Q ->
  (0 < Size.width size)%Q ->
  (0 < Size.height size)%Q ->
  let screen := PinLayer.toScreen t size xPercent yPercent in
  let back :=
    PinLayer.toPercent t size (PinLayer.left screen) (PinLayer.top screen) in
  (PinLayer.xPercent back == xPercent)%Q
  /\ (PinLayer.yPercent back == yPercent)%Q.
Proof.
  intros Hx Hy Hs Hw Hh screen back. subst back screen.
  unfold PinLayer.toPercent, PinLayer.toScreen. cbn [PinLayer.xPercent
    PinLayer.yPercent PinLayer.left PinLayer.top].
  split; apply clampPercent_fix; auto using unscale_axis.
Qed.

(** A pin at (37.5, 80) on a 1600 x 900 image shown at scale 2/3 and
    shifted by (-400/3, 0) goes to the screen and comes back. *)
Lemma toPercent_toScreen_roundtrip_witness :
  let t := Transform.mk (2 # 3) (Point.mk (- (400 # 3)) 0) in
  let size := Size.mk 1600 900 in
  let screen := PinLayer.toScreen t size 37.5 80 in
  let back :=
    PinLayer.toPercent t size (PinLayer.left screen) (PinLayer.top screen) in
  (PinLayer.xPercent back == 37.5)%Q /\ (PinLayer.yPercent back == 80)%Q.
Proof.
  apply (toPercent_toScreen_roundtrip
           (Transform.mk (2 # 3) (Point.mk (- (400 # 3)) 0))
           (Size.mk 1600 900) 37.5 80); cbn; lra.
Defined.

(** The same pin in binary64, under the transform the load computes for
    the container of 800 x 600: the round trip returns the position to
    within 1e-12 on both axes. *)
Example binary64_roundtrip :
  let scale := Binary64.calculateMinScale 800 600 1600 900 in
  let pos := Binary64.centerImage 800 600 1600 900 scale in
  let screen := Binary64.toScreen scale pos 1600 900 37.5 80 in
  let back :=
    Binary64.toPercent scale pos 1600 900 (fst screen) (snd screen) in
  Binary64.close 0x1p-40 (fst back) 37.5 = true
  /\ Binary64.close 0x1p-40 (snd back) 80 = true.
Proof. cbv zeta. split; vm_compute; reflexivity. Qed.

(** ** Initialisation on image load *)

Section CoverFit.
Import ZoomableImage.
Local Open Scope Q_scope.

Lemma handleImageLoad_state (env : Env) (s : State) (img : Img) :
  imgRef env = Some img ->
  let base := calculateMinScale env img in
  let s' := fst (handleImageLoad env s) in
  scale s' = base /\ minScale s' = base /\ targetScale s' = base
  /\ pos s' = centerImage env img base
  /\ isDragging s' = isDragging s /\ dragStart s' = dragStart s
  /\ animationFrame s' = animationFrame s /\ lastWheel s' = lastWheel s
  /\ snd (handleImageLoad env s)
     = [onImageMeta img;
        onTransformChange (Transform.mk base (centerImage env img base))].
Proof.
  intros Himg. unfold handleImageLoad. rewrite Himg. cbn.
  repeat split; reflexivity.
Qed.

End CoverFit.

(** C5, the claim as written fails. For the container of 800 x 600 and the
    image of 1600 x 900 the load does not give a zero offset on both
    axes. *)
Lemma load_800x600_offsets_not_both_zero :
  let s :=
    fst (ZoomableImage.handleImageLoad ZoomableImage.env_800x600
           ZoomableImage.initial) in
  ~ ((Point.y (ZoomableImage.pos s) == 0)%Q
     /\ (Point.x (ZoomableImage.pos s) == 0)%Q).
Proof.
  cbv zeta. intros [_ Hx]. vm_compute in Hx. discriminate Hx.
Qed.

(** C5, amended. The load sets the scale to max(800/1600, 600/900) = 2/3
    and centres the image: the height fits exactly, so [offset.y = 0], and
    the width overflows by 800/3, so [offset.x = (800 - 1600 * 2/3) / 2 =
    -400/3]. The transform reported to the parent is the same. *)
Theorem load_800x600_centred :
  let r :=
    ZoomableImage.handleImageLoad ZoomableImage.env_800x600
      ZoomableImage.initial in
  let s := fst r in
  (ZoomableImage.minScale s == 2 # 3)%Q
  /\ (ZoomableImage.scale s == 2 # 3)%Q
  /\ (Point.y (ZoomableImage.pos s) == 0)%Q
  /\ (Point.x (ZoomableImage.pos s) == - (400 # 3))%Q
  /\ snd r
     = [ZoomableImage.onImageMeta
          {| ZoomableImage.naturalWidth := 1600;
             ZoomableImage.naturalHeight := 900 |};
        ZoomableImage.onTransformChange
          (Transform.mk (ZoomableImage.scale s) (ZoomableImage.pos s))].
Proof.
  cbv zeta. repeat split; vm_compute; reflexivity.
Qed.

(** The same sizes in binary64: the scale is the double next to 2/3, the
    vertical offset is exactly 0 and the horizontal one is about -133.33. *)
Example binary64_cover_fit :
  let base := Binary64.calculateMinScale 800 600 1600 900 in
  base = 0x1.5555555555555p-1%float          (* 0.66666666666666663 *)
  /\ Binary64.centerImage 800 600 1600 900 base
     = ((-0x1.0aaaaaaaaaaa8p+7)%float, 0%float).  (* -133.33333333333326 *)
Proof. cbv zeta. split; vm_compute; reflexivity. Qed.

(** ** Stored coordinates *)

Section StoredCoordinates.
Import PinLayer.
Local Open Scope Q_scope.

Lemma idle_remembers_in_range : remembers_in_range idle.
Proof. intros p H. discriminate H. Qed.

Lemma toPercent_in_range t size cx cy : in_range (toPercent t size cx cy).
Proof. apply toPercent_range. Qed.

Lemma moveDrag_in_range (props : Props) (d : DragRef) (e : PointerEvent.t) :
  remembers_in_range d ->
  remembers_in_range (fst (moveDrag props d e))
  /\ Forall (fun c => in_range (carried c)) (snd (moveDrag props d e)).
Proof.
  intros Hd. unfold moveDrag.
  destruct (is_nullish (draggingPinId d));
    [cbn [fst snd]; split; [exact Hd | constructor] |].
  destruct (other_pointer (pointerId d) e);
    [cbn [fst snd]; split; [exact Hd | constructor] |].
  destruct (negb (hasImageSize props));
    [cbn [fst snd]; split; [exact Hd | constructor] |].
  destruct (startClient d) as [start |];
    [| cbn [fst snd]; split; [exact Hd | constructor]].
  destruct (imageSize props) as [size |];
    [| cbn [fst snd]; split; [exact Hd | constructor]].
  destruct (negb (hasMoved d) && _); cbn [fst snd].
  - split; [exact Hd | constructor].
  - split.
    + intros p [= <-]. apply toPercent_in_range.
    + constructor; [apply toPercent_in_range | constructor].
Qed.

Lemma endDrag_in_range (d : DragRef) (e : PointerEvent.t) :
  remembers_in_range d ->
  remembers_in_range (fst (endDrag d e))
  /\ Forall (fun c => in_range (carried c)) (snd (endDrag d e)).
Proof.
  intros Hd. unfold endDrag.
  destruct (is_nullish (draggingPinId d));
    [cbn [fst snd]; split; [exact Hd | constructor] |].
  destruct (other_pointer (pointerId d) e);
    [cbn [fst snd]; split; [exact Hd | constructor] |].
  destruct (hasMoved d), (lastPercent d) as [last |] eqn:Hlast;
    cbn [fst snd]; (split; [apply idle_remembers_in_range |]);
    try (constructor; fail).
  constructor; [| constructor]. cbn [carried]. apply Hd. exact Hlast.
Qed.

Lemma step_in_range (props : Props) (g : gesture) (d : DragRef) :
  remembers_in_range d ->
  remembers_in_range (fst (step props g d))
  /\ Forall (fun c => in_range (carried c)) (snd (step props g d)).
Proof.
  intros Hd. destruct g as [e pinId | e | e | e]; cbn [step].
  - cbn [fst snd]. split; [| constructor]. unfold startDrag.
    destruct (mode props); [exact Hd |].
    destruct (negb (hasImageSize props)); [exact Hd |].
    intros p H. discriminate H.
  - by apply moveDrag_in_range.
  - by apply endDrag_in_range.
  - by apply endDrag_in_range.
Qed.

Lemma run_in_range (gs : list (Props * gesture)) (d : DragRef) :
  remembers_in_range d ->
  remembers_in_range (fst (run gs d))
  /\ Forall (fun c => in_range (carried c)) (snd (run gs d)).
Proof.
  revert d. induction gs as [| [props g] rest IH]; intros d Hd; cbn [run].
  - by split.
  - destruct (step_in_range props g d Hd) as [H1 Hout1].
    destruct (step props g d) as [d1 out1]. cbn [fst snd] in *.
    destruct (IH d1 H1) as [H2 Hout2].
    destruct (run rest d1) as [d2 out2]. cbn [fst snd] in *.
    split; [exact H2 | by apply Forall_app].
Qed.

Lemma payload_lookup_x (vx vy : jsval) :
  App.spread {[ "xPercent" := vx; "yPercent" := vy ]} App.NEW_PIN_DEFAULTS
    !! "xPercent" = Some vx.
Proof.
  unfold App.spread, App.NEW_PIN_DEFAULTS.
  rewrite lookup_union_r by reflexivity. by simplify_map_eq.
Qed.

Lemma payload_lookup_y (vx vy : jsval) :
  App.spread {[ "xPercent" := vx; "yPercent" := vy ]} App.NEW_PIN_DEFAULTS
    !! "yPercent" = Some vy.
Proof.
  unfold App.spread, App.NEW_PIN_DEFAULTS.
  rewrite lookup_union_r by reflexivity. by simplify_map_eq.
Qed.

(** [Math.max(0, Math.min(100, v))] is [v] clamped. *)
Lemma max0_min100_clamped (v : Q) :
  Gestures.clamped v (Math.max 0 (Math.min 100 v)).
Proof.
  split; [apply max0_min100_range |].
  unfold Math.max, Math.min.
  destruct (Q.min_spec 100 v) as [[? Em] | [? Em]];
    destruct (Q.max_spec 0 (Qmin 100 v)) as [[? EM] | [? EM]];
    repeat split; intros; rewrite EM; lra.
Qed.

Lemma toPercent_clamped (t : Transform.t) (size : Size.t) (cx cy : Q) :
  Gestures.clamped
    (Gestures.along (Point.x (Transform.pos t)) (Size.width size)
       (Transform.scale t) cx)
    (xPercent (toPercent t size cx cy))
  /\ Gestures.clamped
       (Gestures.along (Point.y (Transform.pos t)) (Size.height size)
          (Transform.scale t) cy)
       (yPercent (toPercent t size cx cy)).
Proof. split; apply max0_min100_clamped. Qed.

(** What the drag handlers remember and report comes from [toPercent] at
    a pointer move: [P] is any property of those positions. *)
Section Carried.

Variable P : Percent -> Prop.

Lemma moveDrag_carried (props : Props) (d : DragRef) (e : PointerEvent.t) :
  move_gives P props e -> remembers P d ->
  remembers P (fst (moveDrag props d e))
  /\ Forall (fun c => P (carried c)) (snd (moveDrag props d e)).
Proof.
  intros Hmove Hd. unfold moveDrag.
  destruct (is_nullish (draggingPinId d));
    [cbn [fst snd]; split; [exact Hd | constructor] |].
  destruct (other_pointer (pointerId d) e);
    [cbn [fst snd]; split; [exact Hd | constructor] |].
  destruct (hasImageSize props) eqn:Hsize; cbn [negb];
    [| cbn [fst snd]; split; [exact Hd | constructor]].
  destruct (startClient d) as [start |];
    [| cbn [fst snd]; split; [exact Hd | constructor]].
  destruct (imageSize props) as [size |] eqn:Esize;
    [| cbn [fst snd]; split; [exact Hd | constructor]].
  destruct (negb (hasMoved d) && _); cbn [fst snd].
  - split; [exact Hd | constructor].
  - split.
    + intros p [= <-]. by apply Hmove.
    + constructor; [by apply Hmove | constructor].
Qed.

Lemma endDrag_carried (d : DragRef) (e : PointerEvent.t) :
  remembers P d ->
  remembers P (fst (endDrag d e))
  /\ Forall (fun c => P (carried c)) (snd (endDrag d e)).
Proof.
  intros Hd. unfold endDrag.
  destruct (is_nullish (draggingPinId d));
    [cbn [fst snd]; split; [exact Hd | constructor] |].
  destruct (other_pointer (pointerId d) e);
    [cbn [fst snd]; split; [exact Hd | constructor] |].
  destruct (hasMoved d), (lastPercent d) as [last |] eqn:Hlast;
    cbn [fst snd]; (split; [intros p H; discriminate H |]);
    try (constructor; fail).
  constructor; [| constructor]. cbn [carried]. apply Hd. exact Hlast.
Qed.

Lemma run_carried (gs : list (Props * gesture)) (d : DragRef) :
  (forall props e, In (props, PointerMove e) gs -> move_gives P props e) ->
  remembers P d ->
  remembers P (fst (run gs d))
  /\ Forall (fun c => P (carried c)) (snd (run gs d)).
Proof.
  revert d. induction gs as [| [props g] rest IH]; intros d Hgs Hd; cbn [run].
  - by split.
  - assert (Hstep : remembers P (fst (step props g d))
                    /\ Forall (fun c => P (carried c))
                         (snd (step props g d))).
    { destruct g as [e pinId | e | e | e]; cbn [step].
      - cbn [fst snd]. split; [| constructor]. unfold startDrag.
        destruct (mode props); [exact Hd |].
        destruct (negb (hasImageSize props)); [exact Hd |].
        intros p H. discriminate H.
      - apply moveDrag_carried; [| exact Hd]. apply Hgs. by left.
      - by apply endDrag_carried.
      - by apply endDrag_carried. }
    destruct Hstep as [H1 Hout1].
    destruct (step props g d) as [d1 out1]. cbn [fst snd] in *.
    destruct (IH d1) as [H2 Hout2]; [| exact H1 |].
    { intros props' e' Hin. apply Hgs. by right. }
    destruct (run rest d1) as [d2 out2]. cbn [fst snd] in *.
    split; [exact H2 | by apply Forall_app].
Qed.

End Carried.

(** Every position a run reports comes from a pointer move of the run. *)
Lemma run_from_move (gs : list (Props * gesture)) (c : callback) :
  In c (snd (run gs idle)) -> Gestures.from_move gs (carried c).
Proof.
  intros Hin.
  destruct (run_carried (Gestures.from_move gs) gs idle) as [_ Hall].
  - intros props e Hmove size Esize Hsize. by exists props, e, size.
  - intros p H. discriminate H.
  - rewrite List.Forall_forall in Hall. by apply Hall.
Qed.

End StoredCoordinates.

(** C6. The two operations that produce pin coordinates clamp the
    converted coordinate into [0, 100] for every screen point, inside the
    image or not. The converted coordinate is where the point lies along
    the drawn image, ((client - offset) / (natural * scale)) * 100; its
    clamp is the value itself when that is in [0, 100], 0 when it is
    below and 100 when it is above.
    - The payload [addPinAtClient] hands to [createPin] holds the clamp
      of the click point under the current transform, and the guard lets
      through every image with a non-zero size.
    - [toPercent] gives the clamp of its point; every position a marker
      drag reports, live ([onMovePin]) or on release ([onCommitMovePin]),
      is [toPercent] of a pointer move of the drag under the props of
      that move, whatever the pointer events and the transforms.
    - The object [handleMovePin] merges into the pin and
      [handleCommitMovePin] sends holds exactly the reported position. *)
Theorem stored_coordinates_clamped :
  (forall (s : App.State) (clientX clientY : Q),
      (0 < Transform.scale (App.transformRef s))%Q ->
      (0 < Size.width (App.imageSizeRef s))%Q ->
      (0 < Size.height (App.imageSizeRef s))%Q ->
      let t := App.transformRef s in
      let size := App.imageSizeRef s in
      exists (payload : gmap string jsval) (xp yp : Q),
        App.addPinAtClient_payload s clientX clientY = Some payload
        /\ payload !! "xPercent" = Some (JNum xp)
        /\ payload !! "yPercent" = Some (JNum yp)
        /\ Gestures.clamped
             (Gestures.along (Point.x (Transform.pos t)) (Size.width size)
                (Transform.scale t) clientX) xp
        /\ Gestures.clamped
             (Gestures.along (Point.y (Transform.pos t)) (Size.height size)
                (Transform.scale t) clientY) yp)
  /\ (forall (t : Transform.t) (size : Size.t) (clientX clientY : Q),
        (0 < Transform.scale t)%Q ->
        (0 < Size.width size)%Q ->
        (0 < Size.height size)%Q ->
        let p := PinLayer.toPercent t size clientX clientY in
        Gestures.clamped
          (Gestures.along (Point.x (Transform.pos t)) (Size.width size)
             (Transform.scale t) clientX) (PinLayer.xPercent p)
        /\ Gestures.clamped
             (Gestures.along (Point.y (Transform.pos t)) (Size.height size)
                (Transform.scale t) clientY) (PinLayer.yPercent p))
  /\ (forall (gs : list (PinLayer.Props * PinLayer.gesture))
        (c : PinLayer.callback),
        Forall
          (fun pg => (0 < Transform.scale (PinLayer.transform (fst pg)))%Q)
          gs ->
        In c (snd (PinLayer.run gs PinLayer.idle)) ->
        PinLayer.in_range (PinLayer.carried c)
        /\ Gestures.from_move gs (PinLayer.carried c))
  /\ (forall (pinId : jsval) (next : PinLayer.Percent) (s : App.State),
        App.handleMovePin pinId next s
        = App.updatePinLocal pinId (App.handleCommitMovePin_payload next) s
        /\ App.handleCommitMovePin_payload next !! "xPercent"
           = Some (JNum (PinLayer.xPercent next))
        /\ App.handleCommitMovePin_payload next !! "yPercent"
           = Some (JNum (PinLayer.yPercent next))).
Proof.
  split; [| split; [| split]].
  - intros s cx cy Hs Hw Hh t size. subst t size.
    unfold App.addPinAtClient_payload.
    assert (Hw0 : Qeq_bool (Size.width (App.imageSizeRef s)) 0 = false).
    { apply not_true_iff_false. rewrite Qeq_bool_iff. lra. }
    assert (Hh0 : Qeq_bool (Size.height (App.imageSizeRef s)) 0 = false).
    { apply not_true_iff_false. rewrite Qeq_bool_iff. lra. }
    rewrite Hw0, Hh0. cbn [orb].
    eexists _, _, _. split; [reflexivity |].
    split; [apply payload_lookup_x |].
    split; [apply payload_lookup_y |].
    split; apply max0_min100_clamped.
  - intros t size cx cy _ _ _ p. subst p. apply toPercent_clamped.
  - intros gs c _ Hin. split.
    + destruct (run_in_range gs PinLayer.idle idle_remembers_in_range)
        as [_ Hall].
      rewrite List.Forall_forall in Hall. by apply Hall.
    + by apply run_from_move.
  - intros pinId next s. split; [reflexivity |].
    unfold App.handleCommitMovePin_payload. split; by simplify_map_eq.
Qed.

(** A click far to the right of and above the image is stored at (100, 0),
    a click on the image where it is, and a drag that leaves the image at
    the bottom left reports (0, 100). *)
Lemma stored_coordinates_clamped_witness :
  (exists payload : gmap string jsval,
      App.addPinAtClient_payload App.garden 5000 (-20) = Some payload
      /\ exists xp yp : Q,
          payload !! "xPercent" = Some (JNum xp)
          /\ payload !! "yPercent" = Some (JNum yp)
          /\ (xp == 100)%Q /\ (yp == 0)%Q)
  /\ (let p :=
        PinLayer.toPercent (Transform.mk (2 # 3) (Point.mk (- (400 # 3)) 0))
          (Size.mk 1600 900) 400 150 in
      (PinLayer.xPercent p == 50)%Q /\ (PinLayer.yPercent p == 25)%Q)
  /\ PinLayer.in_range
       (PinLayer.carried
          (PinLayer.onMovePin (JNum 2)
             (PinLayer.toPercent
                (Transform.mk (2 # 3) (Point.mk (- (400 # 3)) 0))
                (Size.mk 1600 900) (-300) 900))).
Proof.
  destruct stored_coordinates_clamped as (Hadd & Hto & Hdrag & _).
  split; [| split].
  - destruct (Hadd App.garden 5000%Q (-20)%Q)
      as (payload & xp & yp & E & Ex & Ey & Hx & Hy);
      [reflexivity | reflexivity | reflexivity |].
    exists payload. split; [exact E |]. exists xp, yp.
    split; [exact Ex |]. split; [exact Ey |].
    destruct Hx as (_ & _ & _ & Hx). destruct Hy as (_ & _ & Hy & _).
    split; [apply Hx | apply Hy]; vm_compute; discriminate.
  - destruct (Hto (Transform.mk (2 # 3) (Point.mk (- (400 # 3)) 0))
                (Size.mk 1600 900) 400%Q 150%Q)
      as [(_ & Hx & _) (_ & Hy & _)];
      [reflexivity | reflexivity | reflexivity |].
    cbv zeta. split.
    + rewrite Hx; [reflexivity |]. split; vm_compute; discriminate.
    + rewrite Hy; [reflexivity |]. split; vm_compute; discriminate.
  - pose (props :=
            {| PinLayer.mode := edit;
               PinLayer.transform :=
                 Transform.mk (2 # 3) (Point.mk (- (400 # 3)) 0);
               PinLayer.imageSize := Some (Size.mk 1600 900) |}).
    apply (Hdrag
             [(props,
               PinLayer.PointerDown (PinLayer.PointerEvent.mk 7 400 300)
                 (JNum 2));
              (props,
               PinLayer.PointerMove (PinLayer.PointerEvent.mk 7 (-300) 900))]).
    + repeat (constructor; [cbn; lra |]). constructor.
    + left. reflexivity.
Defined.

(** ** The viewport engine *)

Section Viewport.
Import ZoomableImage.
Local Open Scope Q_scope.

Lemma div_le_iff (a b c : Q) : 0 < b -> (a / b <= c <-> a <= b * c).
Proof.
  intros Hb. split; intros H.
  - assert (E : a == a / b * b) by (field; lra).
    rewrite E, (Qmult_comm b c). apply Qmult_le_compat_r; lra.
  - apply Qle_shift_div_r; [exact Hb |]. rewrite Qmult_comm. exact H.
Qed.

Lemma div_nonneg (a b : Q) : 0 <= a -> 0 < b -> 0 <= a / b.
Proof. intros Ha Hb. apply Qle_shift_div_l; lra. Qed.

Lemma clamp_upper (v lo hi : Q) : clamp v lo hi <= hi.
Proof. apply min_upper. Qed.

Lemma clamp_lower (v lo hi : Q) : lo <= hi -> lo <= clamp v lo hi.
Proof. intros H. apply Q.min_glb; [exact H | apply max_lower]. Qed.

Lemma clamp_range (v lo hi : Q) : lo <= hi -> lo <= clamp v lo hi <= hi.
Proof. intros H. split; [by apply clamp_lower | apply clamp_upper]. Qed.

(** What the clamp returns, by the position of the candidate. *)
Lemma clamp_cases (v lo hi : Q) :
  lo <= hi ->
  (v <= lo -> clamp v lo hi == lo)
  /\ (hi <= v -> clamp v lo hi == hi)
  /\ (lo <= v <= hi -> clamp v lo hi == v).
Proof.
  intros H. unfold clamp, Math.min, Math.max.
  destruct (Q.max_spec lo v) as [[H1 E1] | [H1 E1]];
    destruct (Q.min_spec hi (Qmax lo v)) as [[H2 E2] | [H2 E2]];
    repeat split; intros; rewrite E2; lra.
Qed.

(** The clamp of the pan and zoom offsets: the lower bound is a minimum
    with 0, so the interval is never empty. *)
Lemma clamp_offset (v a : Q) :
  Math.min 0 a <= clamp v (Math.min 0 a) 0 <= 0.
Proof. apply clamp_range, min_zero_nonpos. Qed.

Lemma computeZoomedPos_within (env : Env) (s : State) (img : Img) (sc : Q) :
  within_bounds env img sc (computeZoomedPos env s img sc).
Proof. split; apply clamp_offset. Qed.

(** The cover fit: [calculateMinScale] is the least scale at which the
    image is at least as wide and as high as the container. *)
Lemma calculateMinScale_least (env : Env) (img : Img) (sc : Q) :
  0 < naturalWidth img -> 0 < naturalHeight img ->
  calculateMinScale env img <= sc
  <-> Size.width (getContainerSize env) <= naturalWidth img * sc
      /\ Size.height (getContainerSize env) <= naturalHeight img * sc.
Proof.
  intros Hw Hh. unfold calculateMinScale, Math.max.
  rewrite Q.max_lub_iff, !div_le_iff by assumption. reflexivity.
Qed.

Lemma calculateMinScale_nonneg (env : Env) (img : Img) :
  0 < naturalWidth img -> 0 <= Size.width (getContainerSize env) ->
  0 <= calculateMinScale env img.
Proof.
  intros Hw Hc. unfold calculateMinScale.
  apply Qle_trans with (Size.width (getContainerSize env) / naturalWidth img);
    [by apply div_nonneg | apply max_lower].
Qed.

(** An offset within its bounds, at a scale that covers, shows no gap. *)
Lemma within_bounds_covers (env : Env) (img : Img) (sc : Q) (p : Point.t) :
  0 < naturalWidth img -> 0 < naturalHeight img ->
  calculateMinScale env img <= sc ->
  within_bounds env img sc p -> covers env img sc p.
Proof.
  intros Hw Hh Hsc [[Hx0 Hx1] [Hy0 Hy1]].
  apply calculateMinScale_least in Hsc as [Hcw Hch]; [| assumption ..].
  unfold Math.min in *.
  destruct (Q.min_spec 0 (Size.width (getContainerSize env)
                          - naturalWidth img * sc)) as [[_ Ex] | [_ Ex]];
    destruct (Q.min_spec 0 (Size.height (getContainerSize env)
                            - naturalHeight img * sc)) as [[_ Ey] | [_ Ey]];
    rewrite Ex in Hx0; rewrite Ey in Hy0; repeat split; lra.
Qed.

Ltac fields :=
  cbn [fst snd scale minScale targetScale pos isDragging dragStart
       animationFrame lastWheel setScale setMinScale setPos set_isDragging
       set_dragStart set_targetScale set_animationFrame set_lastWheel
       applyTransform handleMouseDown stopDragging env state] in *.

(** *** What each handler does to the scales and the offset *)

Lemma handleImageLoad_scale_ok (env : Env) (s : State) :
  sized env -> scale_ok s -> scale_ok (fst (handleImageLoad env s)).
Proof.
  intros (Himg & Hcw & Hch) Hs. unfold handleImageLoad.
  destruct (imgRef env) as [img |] eqn:E; [| exact Hs].
  destruct (Himg img eq_refl) as [Hw Hh].
  pose proof (calculateMinScale_nonneg env img Hw Hcw) as H0.
  fields. unfold scale_ok. fields. lra.
Qed.

Lemma handleImageLoad_fitted (env : Env) (s : State) (img : Img) :
  imgRef env = Some img ->
  0 < naturalWidth img -> 0 < naturalHeight img ->
  let s' := fst (handleImageLoad env s) in
  minScale s' == calculateMinScale env img
  /\ within_bounds env img (scale s') (pos s').
Proof.
  intros E Hw Hh. unfold handleImageLoad. rewrite E. fields.
  split; [reflexivity |].
  assert (Hbase : calculateMinScale env img <= calculateMinScale env img)
    by lra.
  apply calculateMinScale_least in Hbase as [Hcw Hch]; [| assumption ..].
  unfold within_bounds, centerImage, Math.min. cbn [Point.x Point.y].
  set (base := calculateMinScale env img) in *.
  destruct (Q.min_spec 0 (Size.width (getContainerSize env)
                          - naturalWidth img * base)) as [[Lx Ex] | [Lx Ex]];
    destruct (Q.min_spec 0 (Size.height (getContainerSize env)
                            - naturalHeight img * base)) as [[Ly Ey] | [Ly Ey]];
    rewrite Ex, Ey; repeat split;
    try (apply Qle_shift_div_l; lra); try (apply Qle_shift_div_r; lra).
Qed.

Lemma handleMouseMove_scales (env : Env) (s : State) (e : MouseEvent) :
  let s' := fst (handleMouseMove env s e) in
  scale s' = scale s /\ minScale s' = minScale s
  /\ targetScale s' = targetScale s.
Proof.
  unfold handleMouseMove.
  destruct (negb (isDragging s)); [by fields |].
  destruct (imgRef env); by fields.
Qed.

Lemma handleMouseMove_pan (env : Env) (s : State) (e : MouseEvent)
  (img : Img) :
  imgRef env = Some img -> isDragging s = true ->
  let r := handleMouseMove env s e in
  within_bounds env img (scale (fst r)) (pos (fst r))
  /\ snd r = [onTransformChange (Transform.mk (scale (fst r)) (pos (fst r)))].
Proof.
  intros E Hdrag. unfold handleMouseMove. rewrite E, Hdrag. fields.
  split; [| reflexivity]. split; apply clamp_offset.
Qed.

Lemma handleMouseMove_idle (env : Env) (s : State) (e : MouseEvent) :
  isDragging s = false -> handleMouseMove env s e = (s, []).
Proof. intros H. unfold handleMouseMove. by rewrite H. Qed.

Lemma handleWheel_scales (env : Env) (s : State) (e : WheelEvent)
  (rect : DOMRect.t) :
  let s' := handleWheel env s e rect in
  scale s' = scale s /\ minScale s' = minScale s /\ pos s' = pos s.
Proof. unfold handleWheel. destruct (imgRef env); by fields. Qed.

Lemma handleWheel_target (env : Env) (s : State) (e : WheelEvent)
  (rect : DOMRect.t) (img : Img) :
  imgRef env = Some img ->
  targetScale (handleWheel env s e rect)
  = clamp (targetScale s - deltaY e * zoomIntensity)
          (minScale s) (minScale s * 5).
Proof. intros E. unfold handleWheel. rewrite E. by fields. Qed.

Lemma handleWheel_scale_ok (env : Env) (s : State) (e : WheelEvent)
  (rect : DOMRect.t) :
  scale_ok s -> scale_ok (handleWheel env s e rect).
Proof.
  intros Hs. unfold handleWheel.
  destruct (imgRef env); [| exact Hs].
  destruct Hs as (H0 & Ht & Hsc). unfold scale_ok. fields.
  split; [exact H0 |]. split; [apply clamp_range; lra | exact Hsc].
Qed.

Lemma smoothZoomStep_zoom (env : Env) (s : State) (img : Img) :
  imgRef env = Some img ->
  let r := smoothZoomStep env s in
  within_bounds env img (scale (fst r)) (pos (fst r))
  /\ snd r = [onTransformChange (Transform.mk (scale (fst r)) (pos (fst r)))]
  /\ minScale (fst r) = minScale s
  /\ targetScale (fst r) = targetScale s.
Proof.
  intros E. unfold smoothZoomStep. rewrite E. fields.
  destruct (Qltb _ _); fields;
    (split; [apply computeZoomedPos_within | by repeat split]).
Qed.

Lemma smoothZoomStep_scale_ok (env : Env) (s : State) :
  scale_ok s -> scale_ok (fst (smoothZoomStep env s)).
Proof.
  intros Hs. unfold smoothZoomStep.
  destruct (imgRef env); [| exact Hs].
  destruct Hs as (H0 & Ht & Hsc).
  fields. destruct (Qltb _ _); unfold scale_ok; fields.
  - split; [exact H0 |]. split; exact Ht.
  - split; [exact H0 |]. split; [exact Ht | apply clamp_range; lra].
Qed.

(** *** The scales and the offset along a run *)

Lemma step_world_ok (ev : event) (w : World) :
  admissible ev -> world_ok w -> world_ok (fst (step ev w)).
Proof.
  intros Hev [Hsized Hs]. destruct ev as [| c win | e | e | | e rect |];
    cbn [step].
  - pose proof (handleImageLoad_scale_ok _ _ Hsized Hs) as H.
    destruct (handleImageLoad (env w) (state w)) as [s' out].
    by split.
  - set (env' := {| containerRef := c; window_inner := win;
                    imgRef := imgRef (env w) |}).
    assert (Hsized' : sized env').
    { destruct Hsized as (Himg & _ & _). split; [exact Himg |].
      unfold getContainerSize. cbn [containerRef window_inner env'].
      destruct c; exact Hev. }
    pose proof (handleImageLoad_scale_ok _ _ Hsized' Hs) as H.
    destruct (handleImageLoad env' (state w)) as [s' out].
    by split.
  - by split.
  - pose proof (handleMouseMove_scales (env w) (state w) e) as (E1 & E2 & E3).
    destruct (handleMouseMove (env w) (state w) e) as [s' out]. fields.
    split; [exact Hsized |]. unfold scale_ok in *. fields.
    by rewrite E1, E2, E3.
  - by split.
  - split; [exact Hsized | by apply handleWheel_scale_ok].
  - destruct (animationFrame (state w)); [| by split].
    pose proof (smoothZoomStep_scale_ok (env w) _ Hs) as H.
    destruct (smoothZoomStep (env w) (state w)) as [s' out].
    by split.
Qed.

Lemma step_world_fitted (img : Img) (ev : event) (w : World) :
  admissible ev -> world_fitted img w -> world_fitted img (fst (step ev w)).
Proof.
  intros Hev (Hok & Himg & Hmin & Hpos).
  split; [by apply step_world_ok |].
  pose proof (step_world_ok ev w Hev Hok) as [Hsized' _].
  destruct Hok as [(Hnat & _ & _) _]. destruct (Hnat img Himg) as [Hw Hh].
  destruct ev as [| c win | e | e | | e rect |]; cbn [step] in *.
  - pose proof (handleImageLoad_fitted _ (state w) _ Himg Hw Hh) as H.
    destruct (handleImageLoad (env w) (state w)) as [s' out]. fields.
    split; [exact Himg | exact H].
  - set (env' := {| containerRef := c; window_inner := win;
                    imgRef := imgRef (env w) |}) in *.
    pose proof (handleImageLoad_fitted env' (state w) img Himg Hw Hh) as H.
    destruct (handleImageLoad env' (state w)) as [s' out]. fields.
    split; [exact Himg | exact H].
  - fields. exact (conj Himg (conj Hmin Hpos)).
  - destruct (isDragging (state w)) eqn:Hdrag.
    + pose proof (handleMouseMove_scales (env w) (state w) e)
        as (_ & E2 & _).
      pose proof (handleMouseMove_pan _ _ e _ Himg Hdrag) as [H _].
      destruct (handleMouseMove (env w) (state w) e) as [s' out]. fields.
      split; [exact Himg |]. split; [by rewrite E2 | exact H].
    + rewrite (handleMouseMove_idle _ _ _ Hdrag). fields.
      exact (conj Himg (conj Hmin Hpos)).
  - fields. exact (conj Himg (conj Hmin Hpos)).
  - pose proof (handleWheel_scales (env w) (state w) e rect)
      as (E1 & E2 & E3). fields.
    split; [exact Himg |]. split; [by rewrite E2 | by rewrite E1, E3].
  - destruct (animationFrame (state w));
      [| fields; exact (conj Himg (conj Hmin Hpos))].
    pose proof (smoothZoomStep_zoom _ (state w) _ Himg) as (H & _ & E2 & _).
    destruct (smoothZoomStep (env w) (state w)) as [s' out]. fields.
    split; [exact Himg |]. split; [by rewrite E2 | exact H].
Qed.

Lemma run_world_ok (evs : list event) (w : World) :
  Forall admissible evs -> world_ok w -> world_ok (fst (run evs w)).
Proof.
  revert w. induction evs as [| ev rest IH]; intros w Hevs Hw;
    cbn [run]; [exact Hw |].
  apply Forall_cons in Hevs as [Hev Hrest].
  pose proof (step_world_ok ev w Hev Hw) as H1.
  destruct (step ev w) as [w1 out1]. fields.
  pose proof (IH w1 Hrest H1) as H2.
  by destruct (run rest w1) as [w2 out2].
Qed.

Lemma run_world_fitted (img : Img) (evs : list event) (w : World) :
  Forall admissible evs -> world_fitted img w ->
  world_fitted img (fst (run evs w)).
Proof.
  revert w. induction evs as [| ev rest IH]; intros w Hevs Hw;
    cbn [run]; [exact Hw |].
  apply Forall_cons in Hevs as [Hev Hrest].
  pose proof (step_world_fitted img ev w Hev Hw) as H1.
  destruct (step ev w) as [w1 out1]. fields.
  pose proof (IH w1 Hrest H1) as H2.
  by destruct (run rest w1) as [w2 out2].
Qed.

Lemma initial_scale_ok : scale_ok initial.
Proof. unfold scale_ok, initial. fields. lra. Qed.

(** The first load after the mount fits the image. *)
Lemma load_world_fitted (env0 : Env) (img : Img) :
  sized env0 -> imgRef env0 = Some img ->
  world_fitted img (fst (step Load {| env := env0; state := initial |})).
Proof.
  intros Hsized Himg.
  assert (Hok : world_ok {| env := env0; state := initial |})
    by (split; [exact Hsized | apply initial_scale_ok]).
  pose proof (step_world_ok Load _ I Hok) as Hok'.
  split; [exact Hok' |]. cbn [step] in *. fields.
  destruct Hsized as (Hnat & _ & _). destruct (Hnat img Himg) as [Hw Hh].
  pose proof (handleImageLoad_fitted env0 initial img Himg Hw Hh) as H.
  destruct (handleImageLoad env0 initial) as [s' out]. fields.
  split; [exact Himg | exact H].
Qed.

Lemma world_fitted_covers (img : Img) (w : World) :
  world_fitted img w ->
  covers (env w) img (scale (state w)) (pos (state w)).
Proof.
  intros ((Hsized & _ & _ & Hsc & _) & Himg & Hmin & Hpos).
  destruct Hsized as (Hnat & _ & _). destruct (Hnat img Himg) as [Hw Hh].
  apply within_bounds_covers; try assumption. rewrite <- Hmin. exact Hsc.
Qed.

End Viewport.

Section ViewportSamples.
Import ZoomableImage.
Local Open Scope Q_scope.

Lemma env_800x600_sized : sized env_800x600.
Proof.
  split; [| split; cbn; lra].
  intros img [= <-]. cbn. lra.
Defined.

Lemma zoom_then_pan_admissible : Forall admissible zoom_then_pan.
Proof.
  unfold zoom_then_pan.
  constructor; [cbn; lra |].
  do 5 (constructor; [exact I |]). constructor.
Defined.

End ViewportSamples.

(** C2. After a pan pointer-move and after a zoom animation step, snapping
    or easing, each axis of the offset lies in
    [min(0, container - natural * scale), 0] for the scale just rendered,
    and that offset is the one reported to the parent; this holds from any
    state. Along every run of events after the image load the offset stays
    within these bounds and the image covers the container: no space
    beyond its edges is shown. *)
Theorem offset_within_bounds :
  (forall (env : ZoomableImage.Env) (s : ZoomableImage.State)
      (e : ZoomableImage.MouseEvent) (img : ZoomableImage.Img),
      ZoomableImage.imgRef env = Some img ->
      ZoomableImage.isDragging s = true ->
      let r := ZoomableImage.handleMouseMove env s e in
      ZoomableImage.within_bounds env img
        (ZoomableImage.scale (fst r)) (ZoomableImage.pos (fst r))
      /\ snd r
         = [ZoomableImage.onTransformChange
              (Transform.mk (ZoomableImage.scale (fst r))
                            (ZoomableImage.pos (fst r)))])
  /\ (forall (env : ZoomableImage.Env) (s : ZoomableImage.State)
        (img : ZoomableImage.Img),
        ZoomableImage.imgRef env = Some img ->
        let r := ZoomableImage.smoothZoomStep env s in
        ZoomableImage.within_bounds env img
          (ZoomableImage.scale (fst r)) (ZoomableImage.pos (fst r))
        /\ snd r
           = [ZoomableImage.onTransformChange
                (Transform.mk (ZoomableImage.scale (fst r))
                              (ZoomableImage.pos (fst r)))])
  /\ (forall (env0 : ZoomableImage.Env) (img : ZoomableImage.Img)
        (evs : list ZoomableImage.event),
        ZoomableImage.sized env0 ->
        ZoomableImage.imgRef env0 = Some img ->
        Forall ZoomableImage.admissible evs ->
        let w :=
          fst (ZoomableImage.run (ZoomableImage.Load :: evs)
                 {| ZoomableImage.env := env0;
                    ZoomableImage.state := ZoomableImage.initial |}) in
        ZoomableImage.within_bounds (ZoomableImage.env w) img
          (ZoomableImage.scale (ZoomableImage.state w))
          (ZoomableImage.pos (ZoomableImage.state w))
        /\ ZoomableImage.covers (ZoomableImage.env w) img
             (ZoomableImage.scale (ZoomableImage.state w))
             (ZoomableImage.pos (ZoomableImage.state w))).
Proof.
  split; [| split].
  - intros env s e img Himg Hdrag. by apply handleMouseMove_pan.
  - intros env s img Himg.
    destruct (smoothZoomStep_zoom env s img Himg) as (H1 & H2 & _).
    by split.
  - intros env0 img evs Hsized Himg Hevs w.
    assert (Hfit : ZoomableImage.world_fitted img w).
    { subst w. cbn [ZoomableImage.run].
      pose proof (load_world_fitted env0 img Hsized Himg) as H1.
      destruct (ZoomableImage.step ZoomableImage.Load _) as [w1 out1].
      pose proof (run_world_fitted img evs w1 Hevs H1) as H2.
      by destruct (ZoomableImage.run evs w1) as [w2 out2]. }
    split; [apply Hfit | by apply world_fitted_covers].
Qed.

(** On the sample page: a pan while the mouse is held, an easing frame of
    a zoom in flight, and the sample run, which ends with the image zoomed
    in and dragged to its upper bound; the container is still covered. *)
Lemma offset_within_bounds_witness :
  (let r :=
     ZoomableImage.handleMouseMove ZoomableImage.env_800x600
       ZoomableImage.grabbed
       {| ZoomableImage.clientX := 900; ZoomableImage.clientY := 200 |} in
   ZoomableImage.within_bounds ZoomableImage.env_800x600
     ZoomableImage.img_1600x900
     (ZoomableImage.scale (fst r)) (ZoomableImage.pos (fst r)))
  /\ (let r :=
        ZoomableImage.smoothZoomStep ZoomableImage.env_800x600
          ZoomableImage.zooming in
      ZoomableImage.within_bounds ZoomableImage.env_800x600
        ZoomableImage.img_1600x900
        (ZoomableImage.scale (fst r)) (ZoomableImage.pos (fst r)))
  /\ (let w :=
        fst (ZoomableImage.run
               (ZoomableImage.Load :: ZoomableImage.zoom_then_pan)
               {| ZoomableImage.env := ZoomableImage.env_800x600;
                  ZoomableImage.state := ZoomableImage.initial |}) in
      ZoomableImage.covers (ZoomableImage.env w) ZoomableImage.img_1600x900
        (ZoomableImage.scale (ZoomableImage.state w))
        (ZoomableImage.pos (ZoomableImage.state w))).
Proof.
  destruct offset_within_bounds as (Hpan & Hzoom & Hrun).
  split; [| split].
  - apply (Hpan ZoomableImage.env_800x600 ZoomableImage.grabbed);
      reflexivity.
  - apply (Hzoom ZoomableImage.env_800x600 ZoomableImage.zooming).
    reflexivity.
  - apply (Hrun ZoomableImage.env_800x600).
    + exact env_800x600_sized.
    + reflexivity.
    + exact zoom_then_pan_admissible.
Defined.

(** C3. The minimum scale is max(containerWidth / naturalWidth,
    containerHeight / naturalHeight): the load sets it so and it stays so
    along every run. A wheel event clamps its candidate target into
    [minScale, minScale * 5]: a candidate below becomes [minScale], one
    above becomes [minScale * 5], one inside is kept. An animation step
    renders a scale of the same interval, and along every run from the
    mount both the target and the rendered scale stay in it. *)
Theorem zoom_scale_clamped :
  (forall (env : ZoomableImage.Env) (s : ZoomableImage.State)
      (img : ZoomableImage.Img),
      ZoomableImage.imgRef env = Some img ->
      ZoomableImage.minScale (fst (ZoomableImage.handleImageLoad env s))
      = Math.max
          (Size.width (ZoomableImage.getContainerSize env)
           / ZoomableImage.naturalWidth img)
          (Size.height (ZoomableImage.getContainerSize env)
           / ZoomableImage.naturalHeight img))
  /\ (forall (env : ZoomableImage.Env) (s : ZoomableImage.State)
        (e : ZoomableImage.WheelEvent) (rect : ZoomableImage.DOMRect.t)
        (img : ZoomableImage.Img),
        ZoomableImage.imgRef env = Some img ->
        (0 <= ZoomableImage.minScale s)%Q ->
        let lo := ZoomableImage.minScale s in
        let hi := (ZoomableImage.minScale s * 5)%Q in
        let candidate :=
          (ZoomableImage.targetScale s
           - ZoomableImage.deltaY e * ZoomableImage.zoomIntensity)%Q in
        let s' := ZoomableImage.handleWheel env s e rect in
        ZoomableImage.minScale s' = lo
        /\ (lo <= ZoomableImage.targetScale s' <= hi)%Q
        /\ ((candidate <= lo)%Q -> (ZoomableImage.targetScale s' == lo)%Q)
        /\ ((hi <= candidate)%Q -> (ZoomableImage.targetScale s' == hi)%Q)
        /\ ((lo <= candidate <= hi)%Q ->
            (ZoomableImage.targetScale s' == candidate)%Q))
  /\ (forall (env : ZoomableImage.Env) (s : ZoomableImage.State),
        ZoomableImage.scale_ok s ->
        let s' := fst (ZoomableImage.smoothZoomStep env s) in
        ZoomableImage.minScale s' = ZoomableImage.minScale s
        /\ (ZoomableImage.minScale s <= ZoomableImage.scale s'
            <= ZoomableImage.minScale s * 5)%Q)
  /\ (forall (env0 : ZoomableImage.Env) (evs : list ZoomableImage.event),
        ZoomableImage.sized env0 ->
        Forall ZoomableImage.admissible evs ->
        ZoomableImage.scale_ok
          (ZoomableImage.state
             (fst (ZoomableImage.run evs
                     {| ZoomableImage.env := env0;
                        ZoomableImage.state := ZoomableImage.initial |}))))
  /\ (forall (env0 : ZoomableImage.Env) (img : ZoomableImage.Img)
        (evs : list ZoomableImage.event),
        ZoomableImage.sized env0 ->
        ZoomableImage.imgRef env0 = Some img ->
        Forall ZoomableImage.admissible evs ->
        let w :=
          fst (ZoomableImage.run (ZoomableImage.Load :: evs)
                 {| ZoomableImage.env := env0;
                    ZoomableImage.state := ZoomableImage.initial |}) in
        (ZoomableImage.minScale (ZoomableImage.state w)
         == Math.max
              (Size.width
                 (ZoomableImage.getContainerSize (ZoomableImage.env w))
               / ZoomableImage.naturalWidth img)
              (Size.height
                 (ZoomableImage.getContainerSize (ZoomableImage.env w))
               / ZoomableImage.naturalHeight img))%Q).
Proof.
  split; [| split; [| split; [| split]]].
  - intros env s img Himg.
    by destruct (handleImageLoad_state env s img Himg) as (_ & -> & _).
  - intros env s e rect img Himg H0 lo hi candidate s'.
    assert (Hlohi : (lo <= hi)%Q) by (subst lo hi; lra).
    destruct (handleWheel_scales env s e rect) as (_ & Emin & _).
    pose proof (handleWheel_target env s e rect img Himg) as Et.
    subst s'. rewrite Et. split; [exact Emin |].
    split; [by apply clamp_range | by apply clamp_cases].
  - intros env s Hs s'.
    destruct (smoothZoomStep_scale_ok env s Hs) as (_ & _ & Hsc).
    assert (Emin : ZoomableImage.minScale s' = ZoomableImage.minScale s).
    { subst s'. unfold ZoomableImage.smoothZoomStep.
      destruct (ZoomableImage.imgRef env); [| reflexivity].
      by destruct (Qltb _ _). }
    split; [exact Emin |]. subst s'. by rewrite Emin in Hsc.
  - intros env0 evs Hsized Hevs.
    apply run_world_ok; [exact Hevs |].
    split; [exact Hsized | apply initial_scale_ok].
  - intros env0 img evs Hsized Himg Hevs w.
    assert (Hfit : ZoomableImage.world_fitted img w).
    { subst w. cbn [ZoomableImage.run].
      pose proof (load_world_fitted env0 img Hsized Himg) as H1.
      destruct (ZoomableImage.step ZoomableImage.Load _) as [w1 out1].
      pose proof (run_world_fitted img evs w1 Hevs H1) as H2.
      by destruct (ZoomableImage.run evs w1) as [w2 out2]. }
    apply Hfit.
Qed.

(** On the sample page: the load gives max(800/1600, 600/900); a hard spin
    of the wheel on the mount state is cut off at [minScale * 5]; a frame of
    the zoom in flight renders a scale of [2/3, 10/3]; in the sample run,
    where the wheel notch asks for 2/3 + 0.15, the scales stay in range and
    the minimum scale is still the cover fit. *)
Lemma zoom_scale_clamped_witness :
  ZoomableImage.minScale ZoomableImage.loaded = Math.max (800 / 1600) (600 / 900)
  /\ (ZoomableImage.targetScale
        (ZoomableImage.handleWheel ZoomableImage.env_800x600
           ZoomableImage.initial
           {| ZoomableImage.mouse :=
                {| ZoomableImage.clientX := 0; ZoomableImage.clientY := 0 |};
              ZoomableImage.deltaY := -4000 |}
           (ZoomableImage.DOMRect.mk 0 0 1600 900))
      == ZoomableImage.minScale ZoomableImage.initial * 5)%Q
  /\ (ZoomableImage.minScale ZoomableImage.zooming
      <= ZoomableImage.scale
           (fst (ZoomableImage.smoothZoomStep ZoomableImage.env_800x600
                   ZoomableImage.zooming))
      <= ZoomableImage.minScale ZoomableImage.zooming * 5)%Q
  /\ (let w :=
        fst (ZoomableImage.run
               (ZoomableImage.Load :: ZoomableImage.zoom_then_pan)
               {| ZoomableImage.env := ZoomableImage.env_800x600;
                  ZoomableImage.state := ZoomableImage.initial |}) in
      ZoomableImage.scale_ok (ZoomableImage.state w)
      /\ (ZoomableImage.minScale (ZoomableImage.state w)
          == Math.max
               (Size.width
                  (ZoomableImage.getContainerSize (ZoomableImage.env w))
                / 1600)
               (Size.height
                  (ZoomableImage.getContainerSize (ZoomableImage.env w))
                / 900))%Q).
Proof.
  destruct zoom_scale_clamped as (Hload & Hwheel & Hframe & Hrun & Hfit).
  split; [| split; [| split; [| split]]].
  - apply (Hload ZoomableImage.env_800x600 ZoomableImage.initial
             ZoomableImage.img_1600x900).
    reflexivity.
  - assert (H0 : (0 <= ZoomableImage.minScale ZoomableImage.initial)%Q)
      by (vm_compute; discriminate).
    destruct (Hwheel ZoomableImage.env_800x600 ZoomableImage.initial
                {| ZoomableImage.mouse :=
                     {| ZoomableImage.clientX := 0;
                        ZoomableImage.clientY := 0 |};
                   ZoomableImage.deltaY := -4000 |}
                (ZoomableImage.DOMRect.mk 0 0 1600 900)
                _ eq_refl H0) as (_ & _ & _ & Hhi & _).
    apply Hhi. vm_compute. discriminate.
  - apply (Hframe ZoomableImage.env_800x600 ZoomableImage.zooming).
    repeat split; vm_compute; discriminate.
  - apply (Hrun ZoomableImage.env_800x600
             (ZoomableImage.Load :: ZoomableImage.zoom_then_pan)).
    + exact env_800x600_sized.
    + constructor; [exact I | exact zoom_then_pan_admissible].
  - apply (Hfit ZoomableImage.env_800x600 ZoomableImage.img_1600x900).
    + exact env_800x600_sized.
    + reflexivity.
    + exact zoom_then_pan_admissible.
Defined.

(** ** The drag session of a marker *)

(** The threshold test is made on squares. Over the reals this is the
    comparison of the distance itself: for [t >= 0],
    sqrt(a*a + b*b) < t exactly when [Math.hypot_lt a b t] holds. *)
Module RealDistance.
Import Reals Qreals Lra.

Lemma hypot_lt_sqrt (a b t : Q) :
  (0 <= t)%Q ->
  Math.hypot_lt a b t = true
  <-> (sqrt (Q2R a * Q2R a + Q2R b * Q2R b) < Q2R t)%R.
Proof.
  intros Ht. unfold Math.hypot_lt. rewrite Qltb_true.
  assert (Ht' : (0 <= Q2R t)%R).
  { apply Qle_Rle in Ht. by rewrite RMicromega.Q2R_0 in Ht. }
  assert (Hx : (0 <= Q2R a * Q2R a + Q2R b * Q2R b)%R) by nra.
  split; intros H.
  - apply Qlt_Rlt in H. rewrite Q2R_plus, !Q2R_mult in H.
    rewrite <- (sqrt_square (Q2R t)) by exact Ht'.
    apply sqrt_lt_1_alt. split; [exact Hx | exact H].
  - apply Rlt_Qlt. rewrite Q2R_plus, !Q2R_mult.
    rewrite <- (sqrt_sqrt _ Hx).
    pose proof (sqrt_pos (Q2R a * Q2R a + Q2R b * Q2R b)).
    nra.
Qed.

End RealDistance.

Section DragSession.
Import PinLayer.
Local Open Scope Q_scope.

Variable size : Size.t.
Hypothesis width_pos : 0 < Size.width size.
Hypothesis height_pos : 0 < Size.height size.

Variable pinId : jsval.
Hypothesis pinId_set : is_nullish pinId = false.

Variable pid : Z.
Variable start : Point.t.

Lemma hasImageSize_session (t : Transform.t) :
  hasImageSize (session_props size t) = true.
Proof.
  unfold hasImageSize, session_props. cbn [imageSize].
  apply andb_true_iff. split; by apply Qltb_true.
Qed.

Lemma same_pointer (e : PointerEvent.t) :
  PointerEvent.pointerId e = pid -> other_pointer (Some pid) e = false.
Proof. intros H. unfold other_pointer. by rewrite H, Z.eqb_refl. Qed.

Lemma hypot_lt_threshold (e : PointerEvent.t) :
  Math.hypot_lt (PointerEvent.clientX e - Point.x start)
                (PointerEvent.clientY e - Point.y start) DRAG_THRESHOLD_PX
  = true
  <-> displacement_sq start e < 16.
Proof.
  unfold Math.hypot_lt, displacement_sq, DRAG_THRESHOLD_PX.
  rewrite Qltb_true.
  assert (E : 4 * 4 == 16) by reflexivity. by rewrite E.
Qed.

Lemma startDrag_held (t : Transform.t) (d : DragRef) (down : PointerEvent.t) :
  PointerEvent.pointerId down = pid ->
  start = Point.mk (PointerEvent.clientX down) (PointerEvent.clientY down) ->
  startDrag (session_props size t) d down pinId
  = held pinId pid start None false.
Proof.
  intros Hp ->. rewrite <- Hp. unfold startDrag. cbn [mode session_props].
  change (hasImageSize _) with (hasImageSize (session_props size t)).
  by rewrite hasImageSize_session.
Qed.

(** Under the threshold, and not yet moved: the move is swallowed. *)
Lemma moveDrag_click (t : Transform.t) (e : PointerEvent.t) :
  PointerEvent.pointerId e = pid ->
  displacement_sq start e < 16 ->
  moveDrag (session_props size t) (held pinId pid start None false) e
  = (held pinId pid start None false, []).
Proof.
  intros Hp Hd. unfold moveDrag.
  cbn [held draggingPinId pointerId startClient hasMoved lastPercent].
  rewrite pinId_set, (same_pointer e Hp), hasImageSize_session.
  cbn [negb imageSize session_props andb].
  by rewrite (proj2 (hypot_lt_threshold e) Hd).
Qed.

(** At or over the threshold, or once moved: the move is reported. *)
Lemma moveDrag_report (t : Transform.t) (e : PointerEvent.t)
  (last : option Percent) (moved : bool) :
  PointerEvent.pointerId e = pid ->
  moved = true \/ 16 <= displacement_sq start e ->
  moveDrag (session_props size t) (held pinId pid start last moved) e
  = (held pinId pid start (Some (reported size (t, e))) true,
     [onMovePin pinId (reported size (t, e))]).
Proof.
  intros Hp Hd. unfold moveDrag.
  cbn [held draggingPinId pointerId startClient hasMoved lastPercent].
  rewrite pinId_set, (same_pointer e Hp), hasImageSize_session.
  cbn [negb imageSize session_props transform].
  destruct Hd as [-> | Hd]; [reflexivity |].
  destruct (Math.hypot_lt _ _ _) eqn:E.
  - apply hypot_lt_threshold in E. lra.
  - by rewrite andb_false_r.
Qed.

Lemma endDrag_click (e : PointerEvent.t) :
  PointerEvent.pointerId e = pid ->
  endDrag (held pinId pid start None false) e = (idle, []).
Proof.
  intros Hp. unfold endDrag.
  cbn [held draggingPinId pointerId hasMoved lastPercent].
  by rewrite pinId_set, (same_pointer e Hp).
Qed.

Lemma endDrag_commit (e : PointerEvent.t) (last : Percent) :
  PointerEvent.pointerId e = pid ->
  endDrag (held pinId pid start (Some last) true) e
  = (idle, [onCommitMovePin pinId last]).
Proof.
  intros Hp. unfold endDrag.
  cbn [held draggingPinId pointerId hasMoved lastPercent].
  by rewrite pinId_set, (same_pointer e Hp).
Qed.

Lemma run_app (gs1 gs2 : list (Props * gesture)) (d : DragRef) :
  run (gs1 ++ gs2) d
  = (fst (run gs2 (fst (run gs1 d))),
     snd (run gs1 d) ++ snd (run gs2 (fst (run gs1 d)))).
Proof.
  revert d. induction gs1 as [| [props g] rest IH]; intros d.
  - cbn [app run fst snd]. by destruct (run gs2 d).
  - cbn [app run]. destruct (step props g d) as [d1 out1].
    rewrite IH. destruct (run rest d1) as [d2 out2]. cbn [fst snd].
    by rewrite app_assoc.
Qed.

Lemma run_clicks (ms : list (Transform.t * PointerEvent.t)) :
  Forall (fun m => PointerEvent.pointerId (snd m) = pid) ms ->
  Forall (fun m => displacement_sq start (snd m) < 16) ms ->
  run (move_gestures size ms) (held pinId pid start None false)
  = (held pinId pid start None false, []).
Proof.
  induction ms as [| [t e] rest IH]; intros Hp Hd; [reflexivity |].
  apply Forall_cons in Hp as [Hp Hps]. apply Forall_cons in Hd as [Hd Hds].
  cbn [move_gestures fmap list_fmap run step fst snd] in *.
  rewrite (moveDrag_click t e Hp Hd).
  unfold move_gestures in IH. by rewrite (IH Hps Hds).
Qed.

Lemma run_reports (ms : list (Transform.t * PointerEvent.t))
  (m : Transform.t * PointerEvent.t) :
  Forall (fun m => PointerEvent.pointerId (snd m) = pid) ms ->
  run (move_gestures size ms)
      (held pinId pid start (Some (reported size m)) true)
  = (held pinId pid start (Some (reported size (List.last ms m))) true,
     (fun m' => onMovePin pinId (reported size m')) <$> ms).
Proof.
  revert m. induction ms as [| [t e] rest IH]; intros m Hp; [reflexivity |].
  apply Forall_cons in Hp as [Hp Hps].
  cbn [move_gestures fmap list_fmap run step fst snd] in *.
  rewrite (moveDrag_report t e _ true Hp (or_introl eq_refl)).
  unfold move_gestures in IH. rewrite (IH (t, e) Hps).
  f_equal. f_equal. f_equal. clear. destruct rest; [reflexivity |].
  revert p. induction rest as [| q rest IH]; intros p; [reflexivity |].
  cbn [List.last] in *. apply IH.
Qed.

Lemma last_cons {A : Type} (a d : A) (l : list A) :
  List.last (a :: l) d = List.last l a.
Proof.
  revert a d. induction l as [| b l IH]; intros a d; [reflexivity |].
  change (List.last (a :: b :: l) d) with (List.last (b :: l) d).
  by rewrite (IH b d), (IH b a).
Qed.

(** A whole session: down, moves, and the release or cancel. *)
Lemma session_click (t0 tEnd : Transform.t) (d : DragRef)
  (down eEnd : PointerEvent.t) (ms : list (Transform.t * PointerEvent.t))
  (ending : gesture) :
  PointerEvent.pointerId down = pid ->
  start = Point.mk (PointerEvent.clientX down) (PointerEvent.clientY down) ->
  Forall (fun m => PointerEvent.pointerId (snd m) = pid) ms ->
  PointerEvent.pointerId eEnd = pid ->
  ending = PointerUp eEnd \/ ending = PointerCancel eEnd ->
  Forall (fun m => displacement_sq start (snd m) < 16) ms ->
  run ((session_props size t0, PointerDown down pinId)
         :: move_gestures size ms ++ [(session_props size tEnd, ending)]) d
  = (idle, []).
Proof.
  intros Hdown Hstart Hms Hend Hending Hbelow.
  cbn [run step]. rewrite (startDrag_held t0 d down Hdown Hstart).
  rewrite run_app, (run_clicks ms Hms Hbelow). cbn [fst snd run app].
  assert (E : step (session_props size tEnd) ending
                (held pinId pid start None false) = (idle, [])).
  { destruct Hending as [-> | ->]; cbn [step]; by apply endDrag_click. }
  by rewrite E.
Qed.

Lemma session_drag (t0 tEnd : Transform.t) (d : DragRef)
  (down eEnd : PointerEvent.t)
  (pre post : list (Transform.t * PointerEvent.t))
  (m : Transform.t * PointerEvent.t) (ending : gesture) :
  PointerEvent.pointerId down = pid ->
  start = Point.mk (PointerEvent.clientX down) (PointerEvent.clientY down) ->
  Forall (fun m => PointerEvent.pointerId (snd m) = pid)
         (pre ++ m :: post) ->
  PointerEvent.pointerId eEnd = pid ->
  ending = PointerUp eEnd \/ ending = PointerCancel eEnd ->
  Forall (fun m => displacement_sq start (snd m) < 16) pre ->
  16 <= displacement_sq start (snd m) ->
  run ((session_props size t0, PointerDown down pinId)
         :: move_gestures size (pre ++ m :: post)
            ++ [(session_props size tEnd, ending)]) d
  = (idle,
     ((fun m' => onMovePin pinId (reported size m')) <$> (m :: post))
     ++ [onCommitMovePin pinId (reported size (List.last (m :: post) m))]).
Proof.
  intros Hdown Hstart Hms Hend Hending Hbelow Hcross.
  apply Forall_app in Hms as [Hpre Hrest].
  apply Forall_cons in Hrest as [Hm Hpost].
  cbn [run step]. rewrite (startDrag_held t0 d down Hdown Hstart).
  unfold move_gestures. rewrite fmap_app, fmap_cons, <- !app_assoc.
  fold (move_gestures size pre). fold (move_gestures size post).
  rewrite run_app, (run_clicks pre Hpre Hbelow). cbn [fst snd app].
  cbn [run step fst snd]. destruct m as [t e]. cbn [fst snd] in *.
  rewrite (moveDrag_report t e None false Hm (or_intror Hcross)).
  rewrite run_app, (run_reports post (t, e) Hpost). cbn [fst snd run].
  assert (E : step (session_props size tEnd) ending
                (held pinId pid start
                   (Some (reported size (List.last post (t, e)))) true)
              = (idle,
                 [onCommitMovePin pinId
                    (reported size (List.last post (t, e)))])).
  { destruct Hending as [-> | ->]; cbn [step]; by apply endDrag_commit. }
  rewrite E, last_cons. reflexivity.
Qed.

(** Events of other pointers leave a held session alone. *)
Lemma step_foreign (pg : Props * gesture) (last : option Percent)
  (moved : bool) :
  of_session pid (Foreign pg) ->
  step (fst pg) (snd pg) (held pinId pid start last moved)
  = (held pinId pid start last moved, []).
Proof.
  destruct pg as [props g]. cbn [of_session fst snd]. intros H.
  assert (Hother : forall e,
             PointerEvent.pointerId e <> pid ->
             other_pointer (Some pid) e = true).
  { intros e He. unfold other_pointer.
    apply negb_true_iff, Z.eqb_neq. congruence. }
  destruct g as [e other | e | e | e]; cbn [step]; [contradiction | ..].
  - unfold moveDrag. cbn [held draggingPinId pointerId].
    by rewrite pinId_set, (Hother e H).
  - unfold endDrag. cbn [held draggingPinId pointerId].
    by rewrite pinId_set, (Hother e H).
  - unfold endDrag. cbn [held draggingPinId pointerId].
    by rewrite pinId_set, (Hother e H).
Qed.

(** A move of the session's pointer leaves the session held. *)
Lemma moveDrag_held (t : Transform.t) (e : PointerEvent.t)
  (last : option Percent) (moved : bool) :
  PointerEvent.pointerId e = pid ->
  exists (last' : option Percent) (moved' : bool),
    fst (moveDrag (session_props size t) (held pinId pid start last moved) e)
    = held pinId pid start last' moved'.
Proof.
  intros Hp. unfold moveDrag.
  cbn [held draggingPinId pointerId startClient hasMoved lastPercent].
  rewrite pinId_set, (same_pointer e Hp), hasImageSize_session.
  cbn [negb imageSize session_props].
  destruct (negb moved && _); by eexists _, _.
Qed.

(** With the foreign events left out, a held session runs the same. *)
Lemma run_session_gestures (evs : list session_event)
  (last : option Percent) (moved : bool) :
  Forall (of_session pid) evs ->
  run (session_gestures size evs) (held pinId pid start last moved)
  = run (move_gestures size (own_moves evs))
        (held pinId pid start last moved).
Proof.
  revert last moved.
  induction evs as [| [[t e] | pg] rest IH]; intros last moved Hevs;
    [reflexivity | |]; apply Forall_cons in Hevs as [Hev Hrest].
  - cbn [of_session snd] in Hev.
    destruct (moveDrag_held t e last moved Hev) as (last' & moved' & E).
    cbn [session_gestures own_moves omap list_omap move_gestures fmap
         list_fmap run step fst snd] in *.
    destruct (moveDrag _ _ e) as [d1 out1]. cbn [fst] in E. subst d1.
    unfold session_gestures, own_moves, move_gestures in IH.
    by rewrite (IH last' moved' Hrest).
  - pose proof (step_foreign pg last moved Hev) as E.
    destruct pg as [props g]. cbn [fst snd] in E.
    cbn [session_gestures own_moves omap list_omap fmap list_fmap run] in *.
    rewrite E. unfold session_gestures, own_moves in IH.
    rewrite (IH last moved Hrest).
    by destruct (run _ _).
Qed.

Lemma own_moves_pointer (evs : list session_event) :
  Forall (of_session pid) evs ->
  Forall (fun m => PointerEvent.pointerId (snd m) = pid) (own_moves evs).
Proof.
  induction evs as [| [m | pg] rest IH]; intros Hevs; [constructor | |];
    apply Forall_cons in Hevs as [Hev Hrest];
    cbn [own_moves omap list_omap].
  - constructor; [exact Hev | by apply IH].
  - by apply IH.
Qed.

(** A session runs as its own moves alone would. *)
Lemma session_without_foreign (t0 : Transform.t) (d : DragRef)
  (down : PointerEvent.t) (evs : list session_event)
  (ending : Props * gesture) :
  PointerEvent.pointerId down = pid ->
  start = Point.mk (PointerEvent.clientX down) (PointerEvent.clientY down) ->
  Forall (of_session pid) evs ->
  run ((session_props size t0, PointerDown down pinId)
         :: session_gestures size evs ++ [ending]) d
  = run ((session_props size t0, PointerDown down pinId)
           :: move_gestures size (own_moves evs) ++ [ending]) d.
Proof.
  intros Hdown Hstart Hevs. cbn [run step].
  rewrite (startDrag_held t0 d down Hdown Hstart).
  by rewrite !run_app, (run_session_gestures evs None false Hevs).
Qed.

End DragSession.

(** C4. A drag session of a marker in edit mode that no other pointer-down
    interrupts: pointer-down on the pin, then moves of the same pointer,
    with moves, releases and cancels of other pointers in between, then
    the pointer-up or pointer-cancel of the session's pointer. The moves
    of the session are those of its own pointer.
    - While every move stays closer than 4 pixels to the point of the
      pointer-down, nothing is reported and the release commits nothing.
    - From the first move that is 4 pixels or more away, that move and
      every later one report a live position, and the release issues one
      commit, for the position of the last move, which lies in [0,100] on
      both axes.
    The distance is compared on its square: dx*dx + dy*dy against 16. *)
Theorem drag_threshold_and_commit
  (size : Size.t) (pinId : jsval) (t0 tEnd : Transform.t)
  (d : PinLayer.DragRef) (down eEnd : PinLayer.PointerEvent.t)
  (evs : list PinLayer.session_event)
  (ending : PinLayer.gesture) :
  (0 < Size.width size)%Q ->
  (0 < Size.height size)%Q ->
  is_nullish pinId = false ->
  Forall (PinLayer.of_session (PinLayer.PointerEvent.pointerId down)) evs ->
  PinLayer.PointerEvent.pointerId eEnd
  = PinLayer.PointerEvent.pointerId down ->
  ending = PinLayer.PointerUp eEnd \/ ending = PinLayer.PointerCancel eEnd ->
  let start :=
    Point.mk (PinLayer.PointerEvent.clientX down)
             (PinLayer.PointerEvent.clientY down) in
  let ms := PinLayer.own_moves evs in
  let session :=
    (PinLayer.session_props size t0, PinLayer.PointerDown down pinId)
      :: PinLayer.session_gestures size evs
         ++ [(PinLayer.session_props size tEnd, ending)] in
  (Forall (fun m => (PinLayer.displacement_sq start (snd m) < 16)%Q) ms ->
   PinLayer.run session d = (PinLayer.idle, []))
  /\ (forall (pre post : list (Transform.t * PinLayer.PointerEvent.t))
        (m : Transform.t * PinLayer.PointerEvent.t),
        ms = pre ++ m :: post ->
        Forall (fun m => (PinLayer.displacement_sq start (snd m) < 16)%Q)
               pre ->
        (16 <= PinLayer.displacement_sq start (snd m))%Q ->
        let final := PinLayer.reported size (List.last (m :: post) m) in
        PinLayer.run session d
        = (PinLayer.idle,
           ((fun m' => PinLayer.onMovePin pinId (PinLayer.reported size m'))
              <$> (m :: post))
           ++ [PinLayer.onCommitMovePin pinId final])
        /\ PinLayer.in_range final).
Proof.
  intros Hw Hh Hpin Hevs Hend Hending start ms session. subst session.
  rewrite (session_without_foreign size Hw Hh pinId Hpin
             (PinLayer.PointerEvent.pointerId down) start
             t0 d down evs _ eq_refl eq_refl Hevs).
  pose proof (own_moves_pointer (PinLayer.PointerEvent.pointerId down)
                evs Hevs) as Hms.
  fold ms in Hms |- *. clearbody ms. split.
  - intros Hbelow.
    by apply (session_click size Hw Hh pinId Hpin
                (PinLayer.PointerEvent.pointerId down) start
                t0 tEnd d down eEnd ms ending).
  - intros pre post m -> Hbelow Hcross final. subst final. split.
    + by apply (session_drag size Hw Hh pinId Hpin
                  (PinLayer.PointerEvent.pointerId down) start
                  t0 tEnd d down eEnd pre post m ending).
    + unfold PinLayer.reported. apply toPercent_range.
Qed.

(** A click that wobbles by (2, 2) while a second pointer moves, and a
    drag that crosses the threshold on its second move while a second
    pointer moves and is released. *)
Lemma drag_threshold_and_commit_witness :
  let props := PinLayer.session_props PinLayer.photo PinLayer.shown in
  let click :=
    (props, PinLayer.PointerDown PinLayer.down_at (JNum 2))
      :: PinLayer.session_gestures PinLayer.photo
           [PinLayer.Own PinLayer.nudge;
            PinLayer.Foreign
              (props, PinLayer.PointerMove PinLayer.second_finger)]
         ++ [(props, PinLayer.PointerUp PinLayer.release)] in
  let drag :=
    (props, PinLayer.PointerDown PinLayer.down_at (JNum 2))
      :: PinLayer.session_gestures PinLayer.photo
           [PinLayer.Own PinLayer.nudge;
            PinLayer.Foreign
              (props, PinLayer.PointerMove PinLayer.second_finger);
            PinLayer.Own PinLayer.pull;
            PinLayer.Foreign
              (props, PinLayer.PointerUp PinLayer.second_finger);
            PinLayer.Own PinLayer.settle]
         ++ [(props, PinLayer.PointerCancel PinLayer.release)] in
  PinLayer.run click PinLayer.idle = (PinLayer.idle, [])
  /\ PinLayer.run drag PinLayer.idle
     = (PinLayer.idle,
        [PinLayer.onMovePin (JNum 2)
           (PinLayer.reported PinLayer.photo PinLayer.pull);
         PinLayer.onMovePin (JNum 2)
           (PinLayer.reported PinLayer.photo PinLayer.settle);
         PinLayer.onCommitMovePin (JNum 2)
           (PinLayer.reported PinLayer.photo PinLayer.settle)]).
Proof.
  intros props.
  assert (Hw : (0 < Size.width PinLayer.photo)%Q) by reflexivity.
  assert (Hh : (0 < Size.height PinLayer.photo)%Q) by reflexivity.
  assert (Hother :
            PinLayer.PointerEvent.pointerId PinLayer.second_finger
            <> PinLayer.PointerEvent.pointerId PinLayer.down_at)
    by discriminate.
  assert (Hclick :
           Forall
             (PinLayer.of_session
                (PinLayer.PointerEvent.pointerId PinLayer.down_at))
             [PinLayer.Own PinLayer.nudge;
              PinLayer.Foreign
                (props, PinLayer.PointerMove PinLayer.second_finger)])
    by (constructor; [reflexivity |];
        constructor; [exact Hother | constructor]).
  assert (Hdrag :
           Forall
             (PinLayer.of_session
                (PinLayer.PointerEvent.pointerId PinLayer.down_at))
             [PinLayer.Own PinLayer.nudge;
              PinLayer.Foreign
                (props, PinLayer.PointerMove PinLayer.second_finger);
              PinLayer.Own PinLayer.pull;
              PinLayer.Foreign
                (props, PinLayer.PointerUp PinLayer.second_finger);
              PinLayer.Own PinLayer.settle])
    by (constructor; [reflexivity |];
        constructor; [exact Hother |];
        constructor; [reflexivity |];
        constructor; [exact Hother |];
        constructor; [reflexivity | constructor]).
  split.
  - apply (proj1 (drag_threshold_and_commit PinLayer.photo (JNum 2)
                    PinLayer.shown PinLayer.shown PinLayer.idle
                    PinLayer.down_at PinLayer.release _
                    (PinLayer.PointerUp PinLayer.release)
                    Hw Hh eq_refl Hclick eq_refl (or_introl eq_refl))).
    constructor; [reflexivity | constructor].
  - apply (proj2 (drag_threshold_and_commit PinLayer.photo (JNum 2)
                    PinLayer.shown PinLayer.shown PinLayer.idle
                    PinLayer.down_at PinLayer.release _
                    (PinLayer.PointerCancel PinLayer.release)
                    Hw Hh eq_refl Hdrag eq_refl (or_intror eq_refl))
             [PinLayer.nudge] [PinLayer.settle] PinLayer.pull eq_refl).
    + constructor; [reflexivity | constructor].
    + vm_compute. discriminate.
Defined.

(** The claim as first stated, for every session, fails when a second
    pointer goes down on another marker before the first is released:
    the first session has moved 50 pixels and reported that move, and then
    its next move reports nothing and its release commits nothing; nor
    does the release of the second pointer. *)
Lemma pointer_down_replaces_session :
  (16 <= PinLayer.displacement_sq (Point.mk 400 300) (snd PinLayer.far))%Q
  /\ PinLayer.run PinLayer.interrupted PinLayer.idle
     = (PinLayer.idle,
        [PinLayer.onMovePin (JNum 2)
           (PinLayer.reported PinLayer.photo PinLayer.far)])
  /\ ~ (exists last : PinLayer.Percent,
          In (PinLayer.onCommitMovePin (JNum 2) last)
             (snd (PinLayer.run PinLayer.interrupted PinLayer.idle))).
Proof.
  assert (E : PinLayer.run PinLayer.interrupted PinLayer.idle
              = (PinLayer.idle,
                 [PinLayer.onMovePin (JNum 2)
                    (PinLayer.reported PinLayer.photo PinLayer.far)]))
    by (vm_compute; reflexivity).
  split; [vm_compute; discriminate |]. split; [exact E |].
  rewrite E. cbn [snd]. intros [last [H | []]]. discriminate H.
Qed.

(** ** The pin list of the application *)

Section PinList.
Import App.

Lemma strict_eq_same (a b c : jsval) :
  strict_eq a c = true -> strict_eq b c = true -> strict_eq a b = true.
Proof.
  destruct a, b, c; cbn [strict_eq]; try discriminate; try reflexivity.
  - intros H1 H2. apply Bool.eqb_prop in H1, H2. subst.
    apply Bool.eqb_reflx.
  - rewrite !Qeq_bool_iff. intros H1 H2. by rewrite H1, H2.
  - rewrite !String.eqb_eq. congruence.
Qed.

Lemma updatePinLocal_pins (pinId : jsval) (patch : pin) (s : State) :
  pins (updatePinLocal pinId patch s)
  = (fun p : pin =>
       if strict_eq (get p "id") pinId then spread p patch else p)
    <$> pins s.
Proof. reflexivity. Qed.

Lemma updatePinLocal_lookup (pinId : jsval) (patch : pin) (s : State)
  (i : nat) (p : pin) :
  pins s !! i = Some p ->
  pins (updatePinLocal pinId patch s) !! i
  = Some (if strict_eq (get p "id") pinId then spread p patch else p).
Proof.
  intros H. by rewrite updatePinLocal_pins, list_lookup_fmap, H.
Qed.

Lemma updatePinLocal_only_touches (pinId : jsval) (patch : pin) (s : State) :
  only_touches pinId (pins s) (pins (updatePinLocal pinId patch s)).
Proof.
  split.
  - by rewrite updatePinLocal_pins, length_fmap.
  - intros i p Hi Hid. by rewrite (updatePinLocal_lookup _ _ _ _ _ Hi), Hid.
Qed.

Lemma updatePinLocal_single (pinId : jsval) (patch : pin) (s : State)
  (i j : nat) :
  distinct_ids (pins s) ->
  pins (updatePinLocal pinId patch s) !! i <> pins s !! i ->
  pins (updatePinLocal pinId patch s) !! j <> pins s !! j ->
  i = j.
Proof.
  intros Hdistinct Hi Hj.
  assert (touched :
            forall k, pins (updatePinLocal pinId patch s) !! k <> pins s !! k ->
                      exists p, pins s !! k = Some p
                                /\ strict_eq (get p "id") pinId = true).
  { intros k Hk. destruct (pins s !! k) as [p |] eqn:E.
    - exists p. split; [reflexivity |].
      rewrite (updatePinLocal_lookup _ _ _ _ _ E) in Hk.
      destruct (strict_eq (get p "id") pinId); [reflexivity | done].
    - rewrite updatePinLocal_pins, list_lookup_fmap, E in Hk. done. }
  destruct (touched i Hi) as (p & Ep & Hp).
  destruct (touched j Hj) as (q & Eq & Hq).
  apply (Hdistinct i j p q Ep Eq). by apply (strict_eq_same _ _ pinId).
Qed.

End PinList.

(** C10. A local mutation routed through [updatePinLocal] leaves every pin
    whose [id] differs from [pinId] as it was, at its index, and keeps the
    length of the list; a pin with that [id] receives the patch on top of
    its own properties. When the ids in the list are distinct, at most one
    entry changes. The live drag preview, the mark-watered, the patch and
    the move-commit reconciliations are such mutations, and a failed
    request changes nothing. Nothing but the list is touched. *)
Theorem updatePinLocal_frame
  (pinId : jsval) (patch : gmap string jsval) (s : App.State) :
  let s' := App.updatePinLocal pinId patch s in
  App.only_touches pinId (App.pins s) (App.pins s')
  /\ (forall (i : nat) (p : gmap string jsval),
        App.pins s !! i = Some p ->
        strict_eq (App.get p "id") pinId = true ->
        App.pins s' !! i = Some (App.spread p patch))
  /\ (App.distinct_ids (App.pins s) ->
      forall i j : nat,
        App.pins s' !! i <> App.pins s !! i ->
        App.pins s' !! j <> App.pins s !! j ->
        i = j)
  /\ (App.mode s' = App.mode s
      /\ App.selectedPinId s' = App.selectedPinId s
      /\ App.isDetailsOpen s' = App.isDetailsOpen s
      /\ App.transformRef s' = App.transformRef s
      /\ App.imageSizeRef s' = App.imageSizeRef s)
  /\ (forall next : PinLayer.Percent,
        App.handleMovePin pinId next s
        = App.updatePinLocal pinId
            {[ "xPercent" := JNum (PinLayer.xPercent next);
               "yPercent" := JNum (PinLayer.yPercent next) ]} s)
  /\ (App.handleMarkWatered_settled pinId (Resolved patch) s = s'
      /\ App.handleUpdatePin_settled pinId (Resolved patch) s = s'
      /\ App.handleCommitMovePin_settled pinId (Resolved patch) s = s')
  /\ (forall message : string,
        App.handleMarkWatered_settled pinId (Rejected message) s = s
        /\ App.handleUpdatePin_settled pinId (Rejected message) s = s
        /\ App.handleCommitMovePin_settled pinId (Rejected message) s = s).
Proof.
  intros s'. subst s'.
  split; [apply updatePinLocal_only_touches |].
  split.
  { intros i p Hi Hid. by rewrite (updatePinLocal_lookup _ _ _ _ _ Hi), Hid. }
  split.
  { intros Hdistinct i j. by apply updatePinLocal_single. }
  split; [by repeat split |].
  split; [reflexivity |].
  split; by repeat split.
Qed.

(** Dragging the fern of the sample garden to (30, 60): the ids 1, 2, 3
    are distinct, so the rose and the mint stay, the fern takes the new
    position, and only index 1 changes. *)
Lemma updatePinLocal_frame_witness :
  let patch : gmap string jsval :=
    {[ "xPercent" := JNum 30; "yPercent" := JNum 60 ]} in
  let s' :=
    App.handleMovePin (JNum 2)
      {| PinLayer.xPercent := 30; PinLayer.yPercent := 60 |} App.garden in
  App.pins s' !! 0%nat = Some App.rose
  /\ App.pins s' !! 1%nat = Some (App.spread App.fern patch)
  /\ App.pins s' !! 2%nat = Some App.mint
  /\ forall i : nat,
      App.pins s' !! i <> App.pins App.garden !! i -> i = 1%nat.
Proof.
  intros patch s'. subst s'.
  destruct (updatePinLocal_frame (JNum 2) patch App.garden)
    as ((_ & Hframe) & Hpatch & Hone & _).
  cbv zeta in *.
  assert (Hdistinct : App.distinct_ids (App.pins App.garden)).
  { intros i j p q Hi Hj.
    destruct i as [| [| [| i]]]; destruct j as [| [| [| j]]];
      cbn in Hi, Hj; try discriminate; try reflexivity;
      injection Hi as <-; injection Hj as <-;
      vm_compute; discriminate. }
  split; [| split; [| split]].
  - apply (Hframe 0%nat); reflexivity.
  - apply (Hpatch 1%nat); reflexivity.
  - apply (Hframe 2%nat); reflexivity.
  - intros i Hi. apply (Hone Hdistinct i 1%nat Hi). intros H.
    apply (f_equal (fun o : option (gmap string jsval) =>
                      match o with
                      | Some p => App.get p "xPercent"
                      | None => JUndefined
                      end)) in H.
    vm_compute in H. discriminate H.
Defined.

(** C8. When [deletePin] resolves, the pins with that [id] are gone from
    the list and the others stay in their order; the details panel is
    closed and the selection cleared, whichever pin was selected, so in
    particular when it was the deleted one. When [deletePin] rejects, the
    state is the one before: list, selection and panel. *)
Theorem handleDeletePin_outcomes (pinId : jsval) (s : App.State) :
  (let s' := App.handleDeletePin_settled pinId (Resolved tt) s in
   App.pins s'
   = List.filter
       (fun p : gmap string jsval => negb (strict_eq (App.get p "id") pinId))
       (App.pins s)
   /\ (forall p : gmap string jsval,
         In p (App.pins s')
         <-> In p (App.pins s) /\ strict_eq (App.get p "id") pinId = false)
   /\ App.isDetailsOpen s' = false
   /\ App.selectedPinId s' = JNull
   /\ App.mode s' = App.mode s)
  /\ (forall message : string,
        App.handleDeletePin_settled pinId (Rejected message) s = s).
Proof.
  split; [| reflexivity].
  cbv zeta. split; [reflexivity |].
  split; [| by repeat split].
  intros p. cbn [App.handleDeletePin_settled App.pins App.setPins
                 App.setSelectedPinId App.setIsDetailsOpen].
  rewrite List.filter_In, negb_true_iff. reflexivity.
Qed.

(** In the sample garden the fern is selected and its panel open.
    Deleting it leaves the rose and the mint and closes the panel; a
    failed delete leaves the garden as it is. *)
Example handleDeletePin_garden :
  let s' := App.handleDeletePin_settled (JNum 2) (Resolved tt) App.garden in
  App.pins s' = [App.rose; App.mint]
  /\ App.selectedPinId s' = JNull
  /\ App.isDetailsOpen s' = false
  /\ App.handleDeletePin_settled (JNum 2) (Rejected "Request failed: 500")
       App.garden = App.garden.
Proof. cbv zeta. repeat split. Qed.

(** * Further properties of the code *)

(** ** Panning *)

Section Panning.
Import ZoomableImage.
Local Open Scope Q_scope.

Lemma pan_axis (v lo : Q) :
  lo <= 0 ->
  (lo <= v <= 0 -> clamp v lo 0 == v)
  /\ (v <= lo -> clamp v lo 0 == lo)
  /\ (0 <= v -> clamp v lo 0 == 0).
Proof.
  intros Hlo. destruct (clamp_cases v lo 0 Hlo) as (H1 & H2 & H3).
  repeat split; assumption.
Qed.

End Panning.

(** X1. A pan: the mouse goes down at [down] and moves to [to]. On each
    axis the offset follows the pointer, offset + (to - down), as long as
    that stays within [min(0, container - natural * scale), 0]; beyond
    that interval it stops at the bound it crossed. *)
Theorem pan_follows_pointer
  (env : ZoomableImage.Env) (s : ZoomableImage.State)
  (img : ZoomableImage.Img) (down to : ZoomableImage.MouseEvent) :
  ZoomableImage.imgRef env = Some img ->
  let size := ZoomableImage.getContainerSize env in
  let p := ZoomableImage.pos s in
  let p' :=
    ZoomableImage.pos
      (fst (ZoomableImage.handleMouseMove env
              (ZoomableImage.handleMouseDown s down) to)) in
  Page.follows_pointer
    (Math.min 0
       (Size.width size
        - ZoomableImage.naturalWidth img * ZoomableImage.scale s))
    (Point.x p + (ZoomableImage.clientX to - ZoomableImage.clientX down))
    (Point.x p')
  /\ Page.follows_pointer
       (Math.min 0
          (Size.height size
           - ZoomableImage.naturalHeight img * ZoomableImage.scale s))
       (Point.y p + (ZoomableImage.clientY to - ZoomableImage.clientY down))
       (Point.y p').
Proof.
  intros Himg size p p'. subst p' p size.
  unfold ZoomableImage.handleMouseMove, ZoomableImage.handleMouseDown.
  cbn [ZoomableImage.isDragging ZoomableImage.set_dragStart
       ZoomableImage.set_isDragging negb].
  rewrite Himg.
  cbn [fst ZoomableImage.pos ZoomableImage.setPos Point.x Point.y
       ZoomableImage.getBoundsFor ZoomableImage.dragStart
       ZoomableImage.scale ZoomableImage.set_dragStart
       ZoomableImage.set_isDragging].
  split.
  - set (lo := Math.min 0 _).
    assert (Hlo : (lo <= 0)%Q) by apply min_zero_nonpos.
    set (v := (ZoomableImage.clientX to
               - (ZoomableImage.clientX down
                  - Point.x (ZoomableImage.pos s)))%Q).
    set (wanted := (Point.x (ZoomableImage.pos s) + _)%Q).
    assert (Ev : (v == wanted)%Q) by (subst v wanted; ring).
    clearbody v wanted lo.
    destruct (pan_axis v lo Hlo) as (H1 & H2 & H3).
    repeat split; intros H.
    + apply Qeq_trans with v; [apply H1; lra | exact Ev].
    + apply H2. lra.
    + apply H3. lra.
  - set (lo := Math.min 0 _).
    assert (Hlo : (lo <= 0)%Q) by apply min_zero_nonpos.
    set (v := (ZoomableImage.clientY to
               - (ZoomableImage.clientY down
                  - Point.y (ZoomableImage.pos s)))%Q).
    set (wanted := (Point.y (ZoomableImage.pos s) + _)%Q).
    assert (Ev : (v == wanted)%Q) by (subst v wanted; ring).
    clearbody v wanted lo.
    destruct (pan_axis v lo Hlo) as (H1 & H2 & H3).
    repeat split; intros H.
    + apply Qeq_trans with v; [apply H1; lra | exact Ev].
    + apply H2. lra.
    + apply H3. lra.
Qed.

(** On the sample page: grabbing at (400, 300) and moving 50 px to the
    left moves the offset from -400/3 to -550/3. *)
Lemma pan_follows_pointer_witness :
  (Point.x
     (ZoomableImage.pos
        (fst (ZoomableImage.handleMouseMove ZoomableImage.env_800x600
                (ZoomableImage.handleMouseDown ZoomableImage.loaded
                   {| ZoomableImage.clientX := 400;
                      ZoomableImage.clientY := 300 |})
                {| ZoomableImage.clientX := 350;
                   ZoomableImage.clientY := 300 |})))
   == Point.x (ZoomableImage.pos ZoomableImage.loaded) + (350 - 400))%Q.
Proof.
  destruct (pan_follows_pointer ZoomableImage.env_800x600
              ZoomableImage.loaded ZoomableImage.img_1600x900
              {| ZoomableImage.clientX := 400; ZoomableImage.clientY := 300 |}
              {| ZoomableImage.clientX := 350; ZoomableImage.clientY := 300 |}
              eq_refl) as ((Hx & _) & _).
  apply Hx. split; vm_compute; discriminate.
Defined.

(** X2. Once the mouse is released (mouseup, blur or mouseleave), mouse
    moves change nothing and report nothing, however many follow. *)
Theorem released_moves_ignored
  (env : ZoomableImage.Env) (s : ZoomableImage.State)
  (moves : list ZoomableImage.MouseEvent) :
  let w :=
    {| ZoomableImage.env := env;
       ZoomableImage.state := ZoomableImage.stopDragging s |} in
  ZoomableImage.run (ZoomableImage.MouseMove <$> moves) w = (w, []).
Proof.
  cbv zeta. induction moves as [| e rest IH]; [reflexivity |].
  cbn [fmap list_fmap ZoomableImage.run ZoomableImage.step].
  cbn [ZoomableImage.env ZoomableImage.state].
  rewrite (handleMouseMove_idle env (ZoomableImage.stopDragging s) e eq_refl).
  change (ZoomableImage.run (list_fmap _ _ ZoomableImage.MouseMove rest))
    with (ZoomableImage.run (ZoomableImage.MouseMove <$> rest)).
  by rewrite IH.
Qed.

(** ** Zooming *)

Section Zooming.
Import ZoomableImage.
Local Open Scope Q_scope.

Ltac cells :=
  cbn [fst snd scale minScale targetScale pos isDragging dragStart
       animationFrame lastWheel setScale setMinScale setPos set_isDragging
       set_dragStart set_targetScale set_animationFrame set_lastWheel
       env state mouseX mouseY relX relY Point.x Point.y] in *.

(** The anchor a wheel event stores, for the image drawn at its place. *)
Lemma handleWheel_anchor (env : Env) (s : State) (img : Img)
  (e : WheelEvent) :
  imgRef env = Some img ->
  lastWheel (handleWheel env s e (Page.image_rect img s))
  = {| mouseX := clientX e; mouseY := clientY e;
       relX := (clientX e - Point.x (pos s)) / (naturalWidth img * scale s);
       relY := (clientY e - Point.y (pos s)) / (naturalHeight img * scale s)
    |}.
Proof. intros E. unfold handleWheel. rewrite E. reflexivity. Qed.

(** The offset a frame stores is the zoomed offset for the scale it
    renders. *)
Lemma smoothZoomStep_pos (env : Env) (s : State) (img : Img) :
  imgRef env = Some img ->
  pos (fst (smoothZoomStep env s))
  = computeZoomedPos env s img (scale (fst (smoothZoomStep env s))).
Proof.
  intros E. unfold smoothZoomStep. rewrite E. cells.
  destruct (Qltb _ _); reflexivity.
Qed.

(** In a state whose scales are in range the easing branch renders the
    scale a quarter of the way to the target: the clamp leaves it. *)
Lemma easing_scale (env : Env) (s : State) (img : Img) :
  imgRef env = Some img -> scale_ok s ->
  Qltb (Math.abs (targetScale s - scale s)) 0.001 = false ->
  let s' := fst (smoothZoomStep env s) in
  scale s' == scale s + (targetScale s - scale s) * 0.25
  /\ animationFrame s' = true
  /\ targetScale s' = targetScale s /\ minScale s' = minScale s
  /\ lastWheel s' = lastWheel s.
Proof.
  intros E (H0 & Ht & Hs) Hfar. unfold smoothZoomStep. rewrite E. cells.
  rewrite Hfar. cells. repeat split; try reflexivity.
  apply clamp_cases; lra.
Qed.

Lemma snap_scale (env : Env) (s : State) (img : Img) :
  imgRef env = Some img ->
  Qltb (Math.abs (targetScale s - scale s)) 0.001 = true ->
  let s' := fst (smoothZoomStep env s) in
  scale s' = targetScale s /\ animationFrame s' = false
  /\ targetScale s' = targetScale s.
Proof.
  intros E Hnear. unfold smoothZoomStep. rewrite E. cells.
  rewrite Hnear. cells. by repeat split.
Qed.

(** A frame on a world. *)
Lemma step_Frame (w : World) :
  animationFrame (state w) = true ->
  fst (step Frame w)
  = {| env := env w; state := fst (smoothZoomStep (env w) (state w)) |}.
Proof.
  intros H. cbn [step]. rewrite H.
  by destruct (smoothZoomStep (env w) (state w)).
Qed.

Lemma step_Frame_idle (w : World) :
  animationFrame (state w) = false -> step Frame w = (w, []).
Proof. intros H. cbn [step]. by rewrite H. Qed.

Lemma frames_idle (n : nat) (w : World) :
  animationFrame (state w) = false -> run (Page.frames n) w = (w, []).
Proof.
  intros H. induction n as [| n IH]; [reflexivity |].
  cbn [Page.frames repeat run]. rewrite (step_Frame_idle w H).
  fold (Page.frames n). by rewrite IH.
Qed.

Lemma frames_succ (n : nat) (w : World) :
  fst (run (Page.frames (S n)) w)
  = fst (run (Page.frames n) (fst (step Frame w))).
Proof.
  cbn [Page.frames repeat run]. fold (Page.frames n).
  destruct (step Frame w) as [w1 out1]. cbn [fst].
  by destruct (run (Page.frames n) w1).
Qed.

(** The distance to the target after [n] more easing frames is below the
    snapping distance: within [n + 1] frames the animation has snapped. *)
Lemma frames_settle (env0 : Env) (img : Img) (n : nat) :
  imgRef env0 = Some img ->
  forall s : State,
    scale_ok s -> animationFrame s = true ->
    Qabs (targetScale s - scale s)
    < 0.001 + inject_Z (Z.of_nat n) * (1 # 3000) ->
    exists k : nat,
      (k <= n + 1)%nat
      /\ let s' := state (fst (run (Page.frames k)
                                 {| env := env0; state := s |})) in
         scale s' = targetScale s /\ animationFrame s' = false
         /\ targetScale s' = targetScale s.
Proof.
  intros E. induction n as [| n IH]; intros s Hok Hrun Hnear.
  - exists 1%nat. split; [lia |].
    rewrite frames_succ, step_Frame by exact Hrun. cells.
    cbn [Page.frames repeat run fst state].
    apply (snap_scale env0 s img E). apply Qltb_true.
    unfold Math.abs. change (inject_Z (Z.of_nat 0)) with 0 in Hnear. lra.
  - destruct (Qltb (Math.abs (targetScale s - scale s)) 0.001) eqn:Hcmp.
    + exists 1%nat. split; [lia |].
      rewrite frames_succ, step_Frame by exact Hrun. cells.
      cbn [Page.frames repeat run fst state].
      by apply (snap_scale env0 s img E).
    + destruct (easing_scale env0 s img E Hok Hcmp)
        as (Hsc & Hfr & Htg & Hmin & _).
      pose proof (smoothZoomStep_scale_ok env0 s Hok) as Hok'.
      set (s1 := fst (smoothZoomStep env0 s)) in *.
      assert (Hnear' : Qabs (targetScale s1 - scale s1)
                       < 0.001 + inject_Z (Z.of_nat n) * (1 # 3000)).
      { rewrite Htg. apply Qabs_Qlt_condition.
        apply Qabs_Qlt_condition in Hnear.
        rewrite Nat2Z.inj_succ, <- Z.add_1_r, inject_Z_plus in Hnear.
        assert (Hn : 0 <= inject_Z (Z.of_nat n)).
        { change 0 with (inject_Z 0). rewrite <- Zle_Qle. lia. }
        change (inject_Z 1) with 1 in Hnear.
        split; lra. }
      destruct (IH s1 Hok' Hfr Hnear') as (k & Hk & Hs1 & Ha1 & Ht1).
      exists (S k). split; [lia |].
      rewrite frames_succ, step_Frame by exact Hrun. cells. fold s1.
      rewrite <- Htg. by repeat split.
Qed.

(** X3. Zooming keeps the point under the cursor in place. The wheel event
    [e] is taken over the image as it is drawn (container at the client
    origin, positive scale and natural size), and (u, v) is the image
    pixel under the cursor. Whatever frame of the animation follows, at
    the scale it renders the same pixel is under the cursor again, as
    long as the offset this asks for is within the pan bounds. *)
Theorem zoom_keeps_point_under_cursor
  (env : ZoomableImage.Env) (s s2 : ZoomableImage.State)
  (img : ZoomableImage.Img) (e : ZoomableImage.WheelEvent) (u v : Q) :
  ZoomableImage.imgRef env = Some img ->
  (0 < ZoomableImage.naturalWidth img)%Q ->
  (0 < ZoomableImage.naturalHeight img)%Q ->
  (0 < ZoomableImage.scale s)%Q ->
  (Point.x (ZoomableImage.pos s) + u * ZoomableImage.scale s
   == ZoomableImage.clientX e)%Q ->
  (Point.y (ZoomableImage.pos s) + v * ZoomableImage.scale s
   == ZoomableImage.clientY e)%Q ->
  ZoomableImage.lastWheel s2
  = ZoomableImage.lastWheel
      (ZoomableImage.handleWheel env s e (Page.image_rect img s)) ->
  let s' := fst (ZoomableImage.smoothZoomStep env s2) in
  ZoomableImage.within_bounds env img (ZoomableImage.scale s')
    (Point.mk (ZoomableImage.clientX e - u * ZoomableImage.scale s')
              (ZoomableImage.clientY e - v * ZoomableImage.scale s')) ->
  (Point.x (ZoomableImage.pos s') + u * ZoomableImage.scale s'
   == ZoomableImage.clientX e)%Q
  /\ (Point.y (ZoomableImage.pos s') + v * ZoomableImage.scale s'
      == ZoomableImage.clientY e)%Q.
Proof.
  intros Himg Hw Hh Hs Hu Hv Hanchor s'.
  rewrite (handleWheel_anchor env s img e Himg) in Hanchor.
  subst s'. rewrite (smoothZoomStep_pos env s2 img Himg).
  set (sc := ZoomableImage.scale (fst (ZoomableImage.smoothZoomStep env s2))).
  clearbody sc. intros [[Hx0 Hx1] [Hy0 Hy1]].
  cbn [Point.x Point.y] in *.
  unfold ZoomableImage.computeZoomedPos. rewrite Hanchor.
  cbn [ZoomableImage.mouseX ZoomableImage.mouseY ZoomableImage.relX
       ZoomableImage.relY Point.x Point.y ZoomableImage.getBoundsFor].
  assert (Ex : ((ZoomableImage.clientX e
                 - (ZoomableImage.clientX e - Point.x (ZoomableImage.pos s))
                   / (ZoomableImage.naturalWidth img * ZoomableImage.scale s)
                   * (ZoomableImage.naturalWidth img * sc))
                == ZoomableImage.clientX e - u * sc)%Q).
  { rewrite <- Hu. field. split; lra. }
  assert (Ey : ((ZoomableImage.clientY e
                 - (ZoomableImage.clientY e - Point.y (ZoomableImage.pos s))
                   / (ZoomableImage.naturalHeight img * ZoomableImage.scale s)
                   * (ZoomableImage.naturalHeight img * sc))
                == ZoomableImage.clientY e - v * sc)%Q).
  { rewrite <- Hv. field. split; lra. }
  split.
  - match goal with
    | |- (ZoomableImage.clamp ?raw ?lo 0 + _ == _)%Q =>
        assert (Hc : (ZoomableImage.clamp raw lo 0 == raw)%Q)
          by (apply clamp_cases; [apply min_zero_nonpos | lra]);
        rewrite Hc
    end.
    lra.
  - match goal with
    | |- (ZoomableImage.clamp ?raw ?lo 0 + _ == _)%Q =>
        assert (Hc : (ZoomableImage.clamp raw lo 0 == raw)%Q)
          by (apply clamp_cases; [apply min_zero_nonpos | lra]);
        rewrite Hc
    end.
    lra.
Qed.

(** On the sample page the cursor is over the centre of the image, the
    pixel (800, 450); after the wheel notch the first frame renders the
    scale 3/4 and the centre of the image is still under the cursor. *)
Lemma zoom_keeps_point_under_cursor_witness :
  let e :=
    {| mouse := {| clientX := 400; clientY := 300 |};
       deltaY := - (2000 # 9) |} in
  let s2 := handleWheel env_800x600 loaded e (Page.image_rect img_1600x900 loaded) in
  let s' := fst (smoothZoomStep env_800x600 s2) in
  Point.x (pos s') + 800 * scale s' == 400
  /\ Point.y (pos s') + 450 * scale s' == 300.
Proof.
  intros e s2 s'.
  apply (zoom_keeps_point_under_cursor env_800x600 loaded s2 img_1600x900
           e 800 450 eq_refl); try reflexivity.
  repeat split; vm_compute; discriminate.
Defined.

Lemma run_fst_app (evs1 evs2 : list event) (w : World) :
  fst (run (evs1 ++ evs2) w) = fst (run evs2 (fst (run evs1 w))).
Proof.
  revert w. induction evs1 as [| ev rest IH]; intros w; [reflexivity |].
  cbn [app run]. destruct (step ev w) as [w1 out1].
  specialize (IH w1). destruct (run (rest ++ evs2) w1) as [w2 out2].
  destruct (run rest w1) as [w3 out3]. cbn [fst] in *. exact IH.
Qed.

(** X4. The zoom animation ends. From a state whose scales are in range,
    with a frame queued, at most ceil(3000 * |target - scale|) + 1 frames
    run; from then on the rendered scale is the target itself and no
    frame is queued. *)
Theorem zoom_animation_settles (env0 : Env) (img : Img) (s : State) :
  imgRef env0 = Some img ->
  scale_ok s ->
  animationFrame s = true ->
  let n := Z.to_nat (Qceiling (3000 * Qabs (targetScale s - scale s))) in
  exists k : nat,
    (k <= n + 1)%nat
    /\ forall m : nat,
        (k <= m)%nat ->
        let s' :=
          state (fst (run (Page.frames m) {| env := env0; state := s |})) in
        scale s' = targetScale s /\ animationFrame s' = false.
Proof.
  intros E Hok Hrun n.
  assert (Hnear : Qabs (targetScale s - scale s)
                  < 0.001 + inject_Z (Z.of_nat n) * (1 # 3000)).
  { subst n. set (d := Qabs (targetScale s - scale s)).
    assert (Hd : 0 <= d) by apply Qabs_nonneg.
    pose proof (Qle_ceiling (3000 * d)) as Hc.
    assert (Hc0 : (0 <= Qceiling (3000 * d))%Z).
    { rewrite Zle_Qle. change (inject_Z 0) with 0. lra. }
    rewrite Z2Nat.id by exact Hc0. lra. }
  destruct (frames_settle env0 img n E s Hok Hrun Hnear)
    as (k & Hk & Hsc & Hfr & _).
  exists k. split; [exact Hk |].
  intros m Hm s'. subst s'.
  replace m with (k + (m - k))%nat by lia.
  unfold Page.frames. rewrite repeat_app, run_fst_app.
  fold (Page.frames k). fold (Page.frames (m - k)).
  rewrite (frames_idle (m - k) _ Hfr). cbn [fst]. by split.
Qed.

(** The zoom of the sample page, from 2/3 towards 1, is over within
    1001 frames. *)
Lemma zoom_animation_settles_witness :
  exists k : nat,
    (k <= 1001)%nat
    /\ forall m : nat,
        (k <= m)%nat ->
        let s' :=
          state (fst (run (Page.frames m)
                        {| env := env_800x600; state := zooming |})) in
        scale s' = targetScale zooming /\ animationFrame s' = false.
Proof.
  assert (Hok : scale_ok zooming) by (repeat split; vm_compute; discriminate).
  destruct (zoom_animation_settles env_800x600 img_1600x900 zooming
              eq_refl Hok eq_refl) as (k & Hk & Hsettled).
  exists k. split; [| exact Hsettled].
  assert (En : Z.to_nat
                 (Qceiling (3000 * Qabs (targetScale zooming - scale zooming)))
               = 1000%nat) by (vm_compute; reflexivity).
  rewrite En in Hk. exact Hk.
Defined.

(** X5. While the rendered scale is 0.001 or more away from the target, a
    frame moves it a quarter of the way: the distance to the target
    shrinks to three quarters, the scale lands between the old scale and
    the target, and the next frame is queued. (The scales are in range,
    so the clamp of the easing branch leaves the value.) *)
Theorem easing_step_quarter (env0 : Env) (img : Img) (s : State) :
  imgRef env0 = Some img ->
  scale_ok s ->
  0.001 <= Qabs (targetScale s - scale s) ->
  let s' := fst (smoothZoomStep env0 s) in
  scale s' == scale s + (targetScale s - scale s) / 4
  /\ Qabs (targetScale s' - scale s')
     == (3 # 4) * Qabs (targetScale s - scale s)
  /\ Qmin (scale s) (targetScale s) <= scale s'
     <= Qmax (scale s) (targetScale s)
  /\ animationFrame s' = true.
Proof.
  intros E Hok Hfar s'.
  assert (Hcmp : Qltb (Math.abs (targetScale s - scale s)) 0.001 = false)
    by (apply Qltb_false; exact Hfar).
  destruct (easing_scale env0 s img E Hok Hcmp) as (Hsc & Hfr & Htg & _).
  fold s' in Hsc, Hfr, Htg.
  assert (Hdiff : targetScale s' - scale s'
                  == (3 # 4) * (targetScale s - scale s))
    by (rewrite Htg; lra).
  split; [rewrite Hsc; field |]. split.
  { rewrite (Qabs_wd _ _ Hdiff), Qabs_Qmult. reflexivity. }
  split; [| exact Hfr].
  destruct (Q.min_spec (scale s) (targetScale s)) as [[? Em] | [? Em]];
    destruct (Q.max_spec (scale s) (targetScale s)) as [[? EM] | [? EM]];
    rewrite Em, EM; lra.
Qed.

Lemma easing_step_quarter_witness :
  scale (fst (smoothZoomStep env_800x600 zooming)) == 3 # 4.
Proof.
  assert (Hok : scale_ok zooming) by (repeat split; vm_compute; discriminate).
  assert (Hfar : 0.001 <= Qabs (targetScale zooming - scale zooming))
    by (vm_compute; discriminate).
  destruct (easing_step_quarter env_800x600 img_1600x900 zooming
              eq_refl Hok Hfar) as (H & _).
  rewrite H. reflexivity.
Defined.

(** X6. Loading (and so resizing) fits and centres the image: the scale,
    the minimum scale and the zoom target all become the cover scale,
    whatever the zoom was; the scaled image is at least as large as the
    container on both axes and exactly as large on one; and the centre of
    the image is the centre of the container. *)
Theorem load_fits_and_centres (env0 : Env) (img : Img) (s : State) :
  imgRef env0 = Some img ->
  0 < naturalWidth img ->
  0 < naturalHeight img ->
  let s' := fst (handleImageLoad env0 s) in
  let cw := Size.width (getContainerSize env0) in
  let ch := Size.height (getContainerSize env0) in
  let w := naturalWidth img * scale s' in
  let h := naturalHeight img * scale s' in
  (minScale s' = scale s' /\ targetScale s' = scale s')
  /\ (cw <= w /\ ch <= h)
  /\ (w == cw \/ h == ch)
  /\ (Point.x (pos s') + w / 2 == cw / 2
      /\ Point.y (pos s') + h / 2 == ch / 2).
Proof.
  intros E Hw Hh s' cw ch w h.
  destruct (handleImageLoad_state env0 s img E)
    as (Hsc & Hmin & Htg & Hpos & _).
  fold s' in Hsc, Hmin, Htg, Hpos. subst w h.
  rewrite Hmin, Htg, Hpos, Hsc. clear Hsc Hmin Htg Hpos.
  split; [by split |].
  assert (Hfit : calculateMinScale env0 img <= calculateMinScale env0 img)
    by lra.
  apply calculateMinScale_least in Hfit; [| assumption ..].
  split; [exact Hfit |]. split.
  - unfold calculateMinScale, Math.max. fold cw ch.
    destruct (Q.max_spec (cw / naturalWidth img) (ch / naturalHeight img))
      as [[_ EM] | [_ EM]]; rewrite EM; [right | left]; field; lra.
  - unfold centerImage. cbn [Point.x Point.y]. fold cw ch.
    split; field.
Qed.

Lemma load_fits_and_centres_witness :
  Point.x (pos loaded) + naturalWidth img_1600x900 * scale loaded / 2
  == 800 / 2.
Proof.
  assert (Hw : 0 < naturalWidth img_1600x900) by reflexivity.
  assert (Hh : 0 < naturalHeight img_1600x900) by reflexivity.
  destruct (load_fits_and_centres env_800x600 img_1600x900 initial
              eq_refl Hw Hh) as (_ & _ & _ & H & _).
  exact H.
Defined.

End Zooming.

(** ** The viewport and the application *)

Section Wiring.
Import ZoomableImage.
Local Open Scope Q_scope.

Ltac cells :=
  cbn [fst snd scale minScale targetScale pos isDragging dragStart
       animationFrame lastWheel setScale setMinScale setPos set_isDragging
       set_dragStart set_targetScale set_animationFrame set_lastWheel
       applyTransform handleMouseDown stopDragging env state] in *.

(** What a handler reports: nothing, and then scale and offset are as
    before; or the transform it has just stored; or, on a load, the image
    and that transform. *)
Lemma step_reports (ev : event) (w : World) :
  let w' := fst (step ev w) in
  let out := snd (step ev w) in
  (out = [] /\ Page.drawn (state w') = Page.drawn (state w))
  \/ out = [onTransformChange (Page.drawn (state w'))]
  \/ exists img,
      imgRef (env w) = Some img
      /\ out = [onImageMeta img; onTransformChange (Page.drawn (state w'))].
Proof.
  destruct ev as [| c win | e | e | | e rect |]; cbn [step].
  - unfold handleImageLoad. destruct (imgRef (env w)) as [img |] eqn:E.
    + right; right. exists img. by split.
    + left. by split.
  - unfold handleImageLoad. cbn [imgRef].
    destruct (imgRef (env w)) as [img |] eqn:E.
    + right; right. exists img. by split.
    + left. by split.
  - left. by split.
  - unfold handleMouseMove. destruct (negb (isDragging (state w)));
      [left; by split |].
    destruct (imgRef (env w)); [right; left; reflexivity | left; by split].
  - left. by split.
  - left. split; [reflexivity |]. unfold handleWheel.
    by destruct (imgRef (env w)).
  - destruct (animationFrame (state w)); [| left; by split].
    unfold smoothZoomStep. destruct (imgRef (env w)); [| left; by split].
    cells. destruct (Qltb _ _); right; left; reflexivity.
Qed.

Lemma deliver_all_app (cs1 cs2 : list callback) (a : App.State) :
  Page.deliver_all (cs1 ++ cs2) a
  = Page.deliver_all cs2 (Page.deliver_all cs1 a).
Proof. apply foldl_app. Qed.

(** The callbacks of the viewport touch the two refs only. *)
Lemma deliver_all_frame (cs : list callback) (a : App.State) :
  App.pins (Page.deliver_all cs a) = App.pins a
  /\ App.mode (Page.deliver_all cs a) = App.mode a
  /\ App.selectedPinId (Page.deliver_all cs a) = App.selectedPinId a
  /\ App.isDetailsOpen (Page.deliver_all cs a) = App.isDetailsOpen a.
Proof.
  revert a. induction cs as [| c rest IH]; intros a; [by repeat split |].
  cbn [Page.deliver_all foldl]. fold (Page.deliver_all rest (Page.deliver c a)).
  destruct (IH (Page.deliver c a)) as (-> & -> & -> & ->).
  by destruct c.
Qed.

Lemma step_sync (ev : event) (w : World) (a : App.State) :
  App.transformRef a = Page.drawn (state w) ->
  App.transformRef (Page.deliver_all (snd (step ev w)) a)
  = Page.drawn (state (fst (step ev w))).
Proof.
  intros H. destruct (step_reports ev w) as [[-> E] | [-> | (img & _ & ->)]].
  - cbn [Page.deliver_all foldl]. by rewrite E.
  - reflexivity.
  - reflexivity.
Qed.

Lemma run_sync (evs : list event) (w : World) (a : App.State) :
  App.transformRef a = Page.drawn (state w) ->
  App.transformRef (Page.deliver_all (snd (run evs w)) a)
  = Page.drawn (state (fst (run evs w))).
Proof.
  revert w a. induction evs as [| ev rest IH]; intros w a H; [exact H |].
  cbn [run]. pose proof (step_sync ev w a H) as H1.
  destruct (step ev w) as [w1 out1]. cbn [fst snd] in H1.
  specialize (IH w1 _ H1). destruct (run rest w1) as [w2 out2].
  cbn [fst snd] in *. by rewrite deliver_all_app.
Qed.

(** X7. The application never loses track of the viewport. If
    [transformRef] holds the transform the viewport draws with, then after
    any run of viewport events, with the callbacks delivered in order, it
    holds the transform the viewport draws with then; the pins, the mode,
    the selection and the panel are not touched. At the mount the two
    agree (scale 1, offset (0, 0)). *)
Theorem app_tracks_viewport (evs : list event) (w : World) (a : App.State) :
  App.transformRef a = Page.drawn (state w) ->
  let a' := Page.deliver_all (snd (run evs w)) a in
  App.transformRef a' = Page.drawn (state (fst (run evs w)))
  /\ App.pins a' = App.pins a
  /\ App.mode a' = App.mode a
  /\ App.selectedPinId a' = App.selectedPinId a
  /\ App.isDetailsOpen a' = App.isDetailsOpen a.
Proof.
  intros H a'. split; [by apply run_sync | apply deliver_all_frame].
Qed.

Lemma app_tracks_viewport_witness :
  let r :=
    run (Load :: zoom_then_pan) {| env := env_800x600; state := initial |} in
  App.transformRef (Page.deliver_all (snd r) App.initial)
  = Page.drawn (state (fst r)).
Proof.
  apply (app_tracks_viewport (Load :: zoom_then_pan)
           {| env := env_800x600; state := initial |} App.initial).
  reflexivity.
Defined.

Lemma calculateMinScale_pos (env0 : Env) (img : Img) :
  0 < naturalWidth img -> Page.roomy env0 -> 0 < calculateMinScale env0 img.
Proof.
  intros Hw [Hcw _]. unfold calculateMinScale.
  apply Qlt_le_trans
    with (Size.width (getContainerSize env0) / naturalWidth img);
    [| apply max_lower].
  apply Qlt_shift_div_l; lra.
Qed.

Lemma step_imgRef (ev : event) (w : World) :
  imgRef (env (fst (step ev w))) = imgRef (env w).
Proof.
  destruct ev; cbn [step]; try reflexivity.
  - by destruct (handleImageLoad (env w) (state w)).
  - by destruct (handleImageLoad _ (state w)).
  - by destruct (handleMouseMove (env w) (state w) e).
  - destruct (animationFrame (state w)); [| reflexivity].
    by destruct (smoothZoomStep (env w) (state w)).
Qed.

Lemma step_roomy (ev : event) (w : World) :
  Page.roomy_event ev -> Page.roomy (env w) ->
  Page.roomy (env (fst (step ev w))).
Proof.
  intros [_ Hroom] H. destruct ev as [| c win | e | e | | e rect |];
    cbn [step]; try exact H.
  - by destruct (handleImageLoad (env w) (state w)).
  - destruct (handleImageLoad _ (state w)). cbn [fst env].
    unfold Page.roomy, getContainerSize. cbn [containerRef window_inner].
    destruct c; exact Hroom.
  - by destruct (handleMouseMove (env w) (state w) e).
  - destruct (animationFrame (state w)); [| exact H].
    by destruct (smoothZoomStep (env w) (state w)).
Qed.

Lemma step_minScale_pos (img : Img) (ev : event) (w : World) :
  Page.roomy_event ev -> Page.roomy (env w) ->
  imgRef (env w) = Some img -> 0 < naturalWidth img ->
  0 < minScale (state w) -> 0 < minScale (state (fst (step ev w))).
Proof.
  intros Hev Hroom Himg Hw Hmin.
  pose proof (step_roomy ev w Hev Hroom) as Hroom'.
  destruct ev as [| c win | e | e | | e rect |]; cbn [step] in *.
  - destruct (handleImageLoad_state (env w) (state w) img Himg)
      as (_ & E & _).
    destruct (handleImageLoad (env w) (state w)) as [s' out]. cells.
    rewrite E. by apply calculateMinScale_pos.
  - set (env' := {| containerRef := c; window_inner := win;
                    imgRef := imgRef (env w) |}) in *.
    destruct (handleImageLoad_state env' (state w) img Himg) as (_ & E & _).
    destruct (handleImageLoad env' (state w)) as [s' out]. cells.
    rewrite E. by apply calculateMinScale_pos.
  - exact Hmin.
  - pose proof (handleMouseMove_scales (env w) (state w) e) as (_ & E & _).
    destruct (handleMouseMove (env w) (state w) e). cells. by rewrite E.
  - exact Hmin.
  - pose proof (handleWheel_scales (env w) (state w) e rect) as (_ & E & _).
    cells. by rewrite E.
  - destruct (animationFrame (state w)); [| exact Hmin].
    pose proof (smoothZoomStep_zoom (env w) (state w) img Himg)
      as (_ & _ & E & _).
    destruct (smoothZoomStep (env w) (state w)). cells. by rewrite E.
Qed.

Lemma step_imageSize (img : Img) (ev : event) (w : World) (a : App.State) :
  imgRef (env w) = Some img ->
  App.imageSizeRef a = Size.mk (naturalWidth img) (naturalHeight img) ->
  App.imageSizeRef (Page.deliver_all (snd (step ev w)) a)
  = Size.mk (naturalWidth img) (naturalHeight img).
Proof.
  intros Himg Hsize.
  destruct (step_reports ev w)
    as [[-> _] | [-> | (img' & Himg2 & ->)]]; try exact Hsize.
  rewrite Himg in Himg2. by injection Himg2 as <-.
Qed.

(** What holds of a page with room once the image has loaded. *)
Lemma run_guard (img : Img) (evs : list event) (w : World) (a : App.State) :
  Forall Page.roomy_event evs ->
  world_ok w -> Page.roomy (env w) -> imgRef (env w) = Some img ->
  0 < minScale (state w) ->
  App.transformRef a = Page.drawn (state w) ->
  App.imageSizeRef a = Size.mk (naturalWidth img) (naturalHeight img) ->
  let w' := fst (run evs w) in
  let a' := Page.deliver_all (snd (run evs w)) a in
  world_ok w' /\ 0 < minScale (state w')
  /\ App.transformRef a' = Page.drawn (state w')
  /\ App.imageSizeRef a' = Size.mk (naturalWidth img) (naturalHeight img).
Proof.
  revert w a. induction evs as [| ev rest IH];
    intros w a Hevs Hok Hroom Himg Hmin Hsync Hsize;
    [exact (conj Hok (conj Hmin (conj Hsync Hsize))) |].
  apply Forall_cons in Hevs as [Hev Hrest].
  assert (Hw : 0 < naturalWidth img).
  { destruct Hok as [(Hnat & _) _]. by destruct (Hnat img Himg). }
  pose proof (step_world_ok ev w (proj1 Hev) Hok) as Hok1.
  pose proof (step_roomy ev w Hev Hroom) as Hroom1.
  pose proof (step_imgRef ev w) as Himg1. rewrite Himg in Himg1.
  pose proof (step_minScale_pos img ev w Hev Hroom Himg Hw Hmin) as Hmin1.
  pose proof (step_sync ev w a Hsync) as Hsync1.
  pose proof (step_imageSize img ev w a Himg Hsize) as Hsize1.
  cbn [run]. destruct (step ev w) as [w1 out1]. cbn [fst snd] in *.
  specialize (IH w1 _ Hrest Hok1 Hroom1 Himg1 Hmin1 Hsync1 Hsize1).
  destruct (run rest w1) as [w2 out2]. cbn [fst snd] in *.
  by rewrite deliver_all_app.
Qed.

(** X8. On a page with room, once the image has loaded, the application
    can always place a pin: after any run of events the transform it
    holds has a positive scale, the image size it holds is the natural
    size, and [addPinAtClient] passes its guard and builds a payload for
    every click point. *)
Theorem add_pin_guard_open
  (env0 : Env) (img : Img) (evs : list event) (clientX clientY : Q) :
  sized env0 -> Page.roomy env0 -> imgRef env0 = Some img ->
  Forall Page.roomy_event evs ->
  let r := run (Load :: evs) {| env := env0; state := initial |} in
  let a := Page.deliver_all (snd r) App.initial in
  0 < Transform.scale (App.transformRef a)
  /\ App.imageSizeRef a = Size.mk (naturalWidth img) (naturalHeight img)
  /\ exists payload : gmap string jsval,
      App.addPinAtClient_payload a clientX clientY = Some payload.
Proof.
  intros Hsized Hroom Himg Hevs r a.
  assert (Hnat : 0 < naturalWidth img /\ 0 < naturalHeight img)
    by (destruct Hsized as (Hnat & _); by apply Hnat).
  destruct Hnat as [Hw Hh].
  set (w0 := {| env := env0; state := initial |}).
  assert (Hok0 : world_ok w0) by (split; [exact Hsized | apply initial_scale_ok]).
  assert (Hload : Page.roomy_event Load) by (by split).
  pose proof (step_world_ok Load w0 I Hok0) as Hok1.
  pose proof (step_roomy Load w0 Hload Hroom) as Hroom1.
  assert (Himg1 : imgRef (env (fst (step Load w0))) = Some img)
    by (rewrite step_imgRef; exact Himg).
  pose proof (step_sync Load w0 App.initial eq_refl) as Hsync1.
  assert (Hmin1 : 0 < minScale (state (fst (step Load w0)))).
  { cbn [step w0 env state].
    destruct (handleImageLoad_state env0 initial img Himg) as (_ & E & _).
    destruct (handleImageLoad env0 initial) as [s' out]. cells.
    rewrite E. by apply calculateMinScale_pos. }
  assert (Hsize1 : App.imageSizeRef
                     (Page.deliver_all (snd (step Load w0)) App.initial)
                   = Size.mk (naturalWidth img) (naturalHeight img)).
  { cbn [step w0 env state]. unfold handleImageLoad. rewrite Himg.
    reflexivity. }
  subst a r. cbn [run]. fold w0.
  destruct (step Load w0) as [w1 out1]. cbn [fst snd] in *.
  pose proof (run_guard img evs w1 _ Hevs Hok1 Hroom1 Himg1 Hmin1
                Hsync1 Hsize1) as (Hok2 & Hmin2 & Hsync2 & Hsize2).
  destruct (run evs w1) as [w2 out2]. cbn [fst snd] in *.
  rewrite deliver_all_app.
  set (a := Page.deliver_all out2 (Page.deliver_all out1 App.initial)) in *.
  destruct Hok2 as [_ (_ & _ & Hsc & _)].
  split; [| split; [exact Hsize2 |]].
  - rewrite Hsync2. cbn [Page.drawn Transform.scale]. lra.
  - unfold App.addPinAtClient_payload. rewrite Hsize2.
    cbn [Size.width Size.height].
    assert (Hw0 : Qeq_bool (naturalWidth img) 0 = false).
    { apply not_true_iff_false. rewrite Qeq_bool_iff. lra. }
    assert (Hh0 : Qeq_bool (naturalHeight img) 0 = false).
    { apply not_true_iff_false. rewrite Qeq_bool_iff. lra. }
    rewrite Hw0, Hh0. cbn [orb]. eexists. reflexivity.
Qed.

Lemma env_800x600_roomy : Page.roomy env_800x600.
Proof. split; reflexivity. Defined.

Lemma zoom_then_pan_roomy : Forall Page.roomy_event zoom_then_pan.
Proof.
  unfold zoom_then_pan.
  constructor; [split; [split; reflexivity | exact I] |].
  do 5 (constructor; [split; exact I |]). constructor.
Defined.

Lemma add_pin_guard_open_witness :
  let r :=
    run (Load :: zoom_then_pan) {| env := env_800x600; state := initial |} in
  exists payload : gmap string jsval,
    App.addPinAtClient_payload (Page.deliver_all (snd r) App.initial) 5000 (-20)
    = Some payload.
Proof.
  apply (add_pin_guard_open env_800x600 img_1600x900 zoom_then_pan 5000 (-20)
           env_800x600_sized env_800x600_roomy eq_refl zoom_then_pan_roomy).
Defined.

End Wiring.

(** ** The marker layer *)

Section MarkerLayer.
Import PinLayer.
Local Open Scope Q_scope.

Lemma clampPercent_cases (v : Q) :
  (v <= 0 -> clampPercent v == 0)
  /\ (100 <= v -> clampPercent v == 100)
  /\ (0 <= v <= 100 -> clampPercent v == v).
Proof.
  unfold clampPercent, Math.max, Math.min.
  destruct (Q.min_spec 100 v) as [[? Em] | [? Em]];
    destruct (Q.max_spec 0 (Qmin 100 v)) as [[? EM] | [? EM]];
    repeat split; intros; rewrite EM; lra.
Qed.

(** The sign and size of a quotient by a positive number. *)
Lemma ratio_bounds (a d : Q) :
  0 < d ->
  (a <= 0 -> a / d * 100 <= 0)
  /\ (d <= a -> 100 <= a / d * 100)
  /\ (0 <= a <= d -> 0 <= a / d * 100 <= 100).
Proof.
  intros Hd.
  assert (E : a == a / d * d) by (field; lra).
  assert (H0 : a <= 0 -> a / d <= 0).
  { intros Ha. apply Qle_shift_div_r; lra. }
  assert (H1 : d <= a -> 1 <= a / d).
  { intros Ha. apply Qle_shift_div_l; lra. }
  assert (H2 : 0 <= a -> 0 <= a / d).
  { intros Ha. apply Qle_shift_div_l; lra. }
  assert (H3 : a <= d -> a / d <= 1).
  { intros Ha. apply Qle_shift_div_r; lra. }
  repeat split; intros; try (specialize (H0 ltac:(lra)));
    try (specialize (H1 ltac:(lra))); try (specialize (H2 ltac:(lra)));
    try (specialize (H3 ltac:(lra))); lra.
Qed.

Lemma scaled_pos (a b : Q) : 0 < a -> 0 < b -> 0 < a * b.
Proof. intros Ha Hb. apply Qmult_lt_0_compat; assumption. Qed.

(** X9. A screen point left of, or above, the image gets the percentage
    0 on that axis, and one right of, or below, the image gets 100: a
    point outside the image is stored at the nearest edge. *)
Theorem toPercent_saturates
  (t : Transform.t) (size : Size.t) (cx cy : Q) :
  0 < Transform.scale t -> 0 < Size.width size -> 0 < Size.height size ->
  let p := toPercent t size cx cy in
  let left_edge := Point.x (Transform.pos t) in
  let top_edge := Point.y (Transform.pos t) in
  (cx <= left_edge -> xPercent p == 0)
  /\ (left_edge + Size.width size * Transform.scale t <= cx ->
      xPercent p == 100)
  /\ (cy <= top_edge -> yPercent p == 0)
  /\ (top_edge + Size.height size * Transform.scale t <= cy ->
      yPercent p == 100).
Proof.
  intros Hs Hw Hh p left_edge top_edge. subst p left_edge top_edge.
  unfold toPercent. cbn [xPercent yPercent].
  pose proof (scaled_pos _ _ Hw Hs) as Hdw.
  pose proof (scaled_pos _ _ Hh Hs) as Hdh.
  destruct (ratio_bounds (cx - Point.x (Transform.pos t)) _ Hdw)
    as (X0 & X1 & _).
  destruct (ratio_bounds (cy - Point.y (Transform.pos t)) _ Hdh)
    as (Y0 & Y1 & _).
  repeat split; intros H; apply clampPercent_cases;
    [apply X0 | apply X1 | apply Y0 | apply Y1]; lra.
Qed.

Lemma toPercent_saturates_witness :
  xPercent (toPercent shown photo 5000 (-20)) == 100
  /\ yPercent (toPercent shown photo 5000 (-20)) == 0.
Proof.
  assert (Hs : 0 < Transform.scale shown) by reflexivity.
  assert (Hw : 0 < Size.width photo) by reflexivity.
  assert (Hh : 0 < Size.height photo) by reflexivity.
  destruct (toPercent_saturates shown photo 5000 (-20) Hs Hw Hh)
    as (_ & Hx & Hy & _).
  split; [apply Hx | apply Hy]; vm_compute; discriminate.
Defined.

(** X10. For a screen point on the image, converting to percentages and
    back to the screen returns the point: on the image the two
    conversions are inverse in this direction too. *)
Theorem toScreen_toPercent_inside
  (t : Transform.t) (size : Size.t) (cx cy : Q) :
  0 < Transform.scale t -> 0 < Size.width size -> 0 < Size.height size ->
  Gestures.inside_image t size cx cy ->
  let p := toPercent t size cx cy in
  let back := toScreen t size (xPercent p) (yPercent p) in
  left back == cx /\ top back == cy.
Proof.
  intros Hs Hw Hh [[Hx0 Hx1] [Hy0 Hy1]] p back. subst back p.
  unfold toPercent, toScreen. cbn [xPercent yPercent left top].
  pose proof (scaled_pos _ _ Hw Hs) as Hdw.
  pose proof (scaled_pos _ _ Hh Hs) as Hdh.
  destruct (ratio_bounds (cx - Point.x (Transform.pos t)) _ Hdw)
    as (_ & _ & X).
  destruct (ratio_bounds (cy - Point.y (Transform.pos t)) _ Hdh)
    as (_ & _ & Y).
  destruct (clampPercent_cases
              ((cx - Point.x (Transform.pos t))
               / (Size.width size * Transform.scale t) * 100))
    as (_ & _ & Ex).
  destruct (clampPercent_cases
              ((cy - Point.y (Transform.pos t))
               / (Size.height size * Transform.scale t) * 100))
    as (_ & _ & Ey).
  rewrite Ex by (apply X; lra). rewrite Ey by (apply Y; lra).
  split; field; lra.
Qed.

Lemma toScreen_toPercent_inside_witness :
  let p := toPercent shown photo 400 300 in
  left (toScreen shown photo (xPercent p) (yPercent p)) == 400
  /\ top (toScreen shown photo (xPercent p) (yPercent p)) == 300.
Proof.
  assert (Hs : 0 < Transform.scale shown) by reflexivity.
  assert (Hw : 0 < Size.width photo) by reflexivity.
  assert (Hh : 0 < Size.height photo) by reflexivity.
  apply (toScreen_toPercent_inside shown photo 400 300 Hs Hw Hh).
  repeat split; vm_compute; discriminate.
Defined.

(** X11. A pin whose percentages are in [0, 100] is drawn on the image:
    its screen position lies between the edges of the image as the
    transform shows it. *)
Theorem toScreen_on_image
  (t : Transform.t) (size : Size.t) (xp yp : Q) :
  0 < Transform.scale t -> 0 < Size.width size -> 0 < Size.height size ->
  0 <= xp <= 100 -> 0 <= yp <= 100 ->
  let at_ := toScreen t size xp yp in
  Gestures.inside_image t size (left at_) (top at_).
Proof.
  intros Hs Hw Hh Hx Hy at_. subst at_.
  unfold Gestures.inside_image, toScreen. cbn [left top].
  pose proof (scaled_pos _ _ Hw Hs) as Hdw.
  pose proof (scaled_pos _ _ Hh Hs) as Hdh.
  assert (Ex : xp / 100 * Size.width size * Transform.scale t
               == xp / 100 * (Size.width size * Transform.scale t))
    by ring.
  assert (Ey : yp / 100 * Size.height size * Transform.scale t
               == yp / 100 * (Size.height size * Transform.scale t))
    by ring.
  rewrite Ex, Ey.
  set (dw := Size.width size * Transform.scale t) in *.
  set (dh := Size.height size * Transform.scale t) in *.
  assert (Fx : 0 <= xp / 100 <= 1)
    by (split; [apply Qle_shift_div_l | apply Qle_shift_div_r]; lra).
  assert (Fy : 0 <= yp / 100 <= 1)
    by (split; [apply Qle_shift_div_l | apply Qle_shift_div_r]; lra).
  clearbody dw dh.
  set (fx := xp / 100) in *. set (fy := yp / 100) in *. clearbody fx fy.
  assert (Gx : 0 <= fx * dw <= dw) by (split; nra).
  assert (Gy : 0 <= fy * dh <= dh) by (split; nra).
  split; split; lra.
Qed.

Lemma toScreen_on_image_witness :
  Gestures.inside_image shown photo
    (left (toScreen shown photo 37.5 80)) (top (toScreen shown photo 37.5 80)).
Proof.
  assert (Hs : 0 < Transform.scale shown) by reflexivity.
  assert (Hw : 0 < Size.width photo) by reflexivity.
  assert (Hh : 0 < Size.height photo) by reflexivity.
  apply (toScreen_on_image shown photo 37.5 80 Hs Hw Hh);
    split; vm_compute; discriminate.
Defined.

End MarkerLayer.

(** ** Pointer events the layer ignores *)

Section IgnoredGestures.
Import PinLayer.

Lemma step_idle_turned_away (props : Props) (g : gesture) :
  Gestures.turned_away (props, g) -> step props g idle = (idle, []).
Proof.
  intros H. destruct g as [e pinId | e | e | e]; cbn [step]; try reflexivity.
  unfold startDrag. cbn [Gestures.turned_away fst snd] in H.
  destruct H as [-> | H]; [reflexivity |].
  destruct (mode props); [reflexivity |]. by rewrite H.
Qed.

Lemma step_other_pointer (props : Props) (g : gesture) (d : DragRef)
  (pid : Z) :
  pointerId d = Some pid ->
  Gestures.of_other_pointer pid (props, g) -> step props g d = (d, []).
Proof.
  intros Hp H. cbn [Gestures.of_other_pointer snd] in H.
  assert (Hother : forall e,
             PointerEvent.pointerId e <> pid ->
             other_pointer (pointerId d) e = true).
  { intros e He. rewrite Hp. unfold other_pointer.
    apply negb_true_iff, Z.eqb_neq. congruence. }
  destruct g as [e pinId | e | e | e]; cbn [step]; [contradiction | ..].
  - unfold moveDrag. destruct (is_nullish (draggingPinId d)); [reflexivity |].
    by rewrite (Hother e H).
  - unfold endDrag. destruct (is_nullish (draggingPinId d)); [reflexivity |].
    by rewrite (Hother e H).
  - unfold endDrag. destruct (is_nullish (draggingPinId d)); [reflexivity |].
    by rewrite (Hother e H).
Qed.

(** X12. In view mode, or before the image size is known, no drag ever
    starts: if every pointer-down of a sequence of pointer events falls
    under such props, the whole sequence reports no move, commits
    nothing, and leaves the session idle. *)
Theorem view_mode_never_drags (gs : list (Props * gesture)) :
  Forall Gestures.turned_away gs -> run gs idle = (idle, []).
Proof.
  induction gs as [| [props g] rest IH]; intros H; [reflexivity |].
  apply Forall_cons in H as [Hg Hrest].
  cbn [run]. rewrite (step_idle_turned_away props g Hg).
  by rewrite (IH Hrest).
Qed.

(** The sample drag, tried in view mode. *)
Lemma view_mode_never_drags_witness :
  let looking :=
    {| mode := view; transform := shown; imageSize := Some photo |} in
  run [(looking, PointerDown down_at (JNum 2));
       (looking, PointerMove (snd pull));
       (looking, PointerUp release)] idle
  = (idle, []).
Proof.
  apply view_mode_never_drags.
  constructor; [left; reflexivity |].
  constructor; [exact I |]. constructor; [exact I | constructor].
Defined.

(** X13. While a session belongs to one pointer, the moves, releases and
    cancels of any other pointer do nothing: no report, no commit, and
    the session is as it was. *)
Theorem other_pointers_ignored
  (gs : list (Props * gesture)) (d : DragRef) (pid : Z) :
  pointerId d = Some pid ->
  Forall (Gestures.of_other_pointer pid) gs ->
  run gs d = (d, []).
Proof.
  intros Hp. induction gs as [| [props g] rest IH]; intros H; [reflexivity |].
  apply Forall_cons in H as [Hg Hrest].
  cbn [run]. rewrite (step_other_pointer props g d pid Hp Hg).
  by rewrite (IH Hrest).
Qed.

(** Pointer 7 holds the fern; pointer 9 moves and lifts. *)
Lemma other_pointers_ignored_witness :
  let holding := held (JNum 2) 7 (Point.mk 400 300) None false in
  let editing := session_props photo shown in
  run [(editing, PointerMove (PointerEvent.mk 9 700 100));
       (editing, PointerUp (PointerEvent.mk 9 700 100))] holding
  = (holding, []).
Proof.
  intros holding editing.
  apply (other_pointers_ignored _ holding 7%Z eq_refl).
  constructor; [cbn; lia |]. constructor; [cbn; lia | constructor].
Defined.

End IgnoredGestures.

(** ** Reconciling pins *)

Section Reconciling.
Import App.

Lemma strict_eq_sym (a b : jsval) : strict_eq a b = strict_eq b a.
Proof.
  destruct a, b; cbn [strict_eq]; try reflexivity.
  - by destruct b, b0.
  - apply eq_true_iff_eq. rewrite !Qeq_bool_iff. split; intros H; by rewrite H.
  - apply String.eqb_sym.
Qed.

Lemma strict_eq_trans (a b c : jsval) :
  strict_eq a b = true -> strict_eq b c = true -> strict_eq a c = true.
Proof.
  intros H1 H2. apply (strict_eq_same a c b H1).
  by rewrite strict_eq_sym.
Qed.

(** Two ids that are [===] compare alike with any third. *)
Lemma strict_eq_congr (a b c : jsval) :
  strict_eq a b = true -> strict_eq a c = strict_eq b c.
Proof.
  intros H. destruct (strict_eq b c) eqn:E.
  - by apply (strict_eq_trans a b c).
  - destruct (strict_eq a c) eqn:E'; [| reflexivity].
    rewrite <- E. symmetry. apply (strict_eq_trans b a c); [| exact E'].
    by rewrite strict_eq_sym.
Qed.

(** The [id] of a patched pin, up to [===]. *)
Lemma patched_id (pinId : jsval) (patch p : pin) (other : jsval) :
  Pins.keeps_id pinId patch ->
  strict_eq (get p "id") pinId = true ->
  strict_eq (get (spread p patch) "id") other = strict_eq pinId other.
Proof.
  intros Hk Hid. unfold Pins.keeps_id in Hk. unfold get, spread.
  rewrite lookup_union. destruct (patch !! "id") as [v |] eqn:E.
  - rewrite (union_Some_l v). cbn [default]. by apply strict_eq_congr.
  - rewrite (left_id_L None _). by apply strict_eq_congr.
Qed.

Lemma updatePinLocal_state (pinId : jsval) (patch : pin) (s : State) :
  updatePinLocal pinId patch s
  = {| mode := mode s;
       pins :=
         (fun p : pin =>
            if strict_eq (get p "id") pinId then spread p patch else p)
         <$> pins s;
       selectedPinId := selectedPinId s;
       isDetailsOpen := isDetailsOpen s;
       transformRef := transformRef s;
       imageSizeRef := imageSizeRef s |}.
Proof. reflexivity. Qed.

(** X14. Two reconciliations of the same pin act as one whose patch has
    the properties of both, those of the later one winning; in
    particular, reconciling twice with the same patch is the same as doing
    it once. The first patch must leave the pin its id. Reconciling with
    an object without properties changes nothing. *)
Theorem updatePinLocal_last_writer_wins
  (pinId : jsval) (first later : gmap string jsval) (s : State) :
  Pins.keeps_id pinId first ->
  updatePinLocal pinId later (updatePinLocal pinId first s)
  = updatePinLocal pinId (spread first later) s
  /\ updatePinLocal pinId first (updatePinLocal pinId first s)
     = updatePinLocal pinId first s
  /\ updatePinLocal pinId ∅ s = s.
Proof.
  intros Hk.
  assert (Hmerge : forall later' : gmap string jsval,
             updatePinLocal pinId later' (updatePinLocal pinId first s)
             = updatePinLocal pinId (spread first later') s).
  { intros later'. rewrite !updatePinLocal_state. cbn [pins mode selectedPinId
      isDetailsOpen transformRef imageSizeRef]. f_equal.
    rewrite <- list_fmap_compose. apply list_fmap_ext. intros i p _.
    cbn [compose]. destruct (strict_eq (get p "id") pinId) eqn:Hid.
    - rewrite (patched_id pinId first p pinId Hk Hid).
      assert (Hrefl : strict_eq pinId pinId = true).
      { apply (strict_eq_same pinId pinId (get p "id"));
          by rewrite strict_eq_sym. }
      rewrite Hrefl. unfold spread. by rewrite (assoc_L (∪)).
    - by rewrite Hid. }
  split; [apply Hmerge |]. split.
  { rewrite Hmerge. unfold spread. by rewrite (idemp_L (∪)). }
  rewrite updatePinLocal_state. destruct s as [m ps sel op tr im].
  cbn [pins mode selectedPinId isDetailsOpen transformRef imageSizeRef].
  f_equal. rewrite <- (list_fmap_id ps) at 2. apply list_fmap_ext.
  intros i p _. unfold spread. rewrite (left_id_L ∅ (∪)).
  by destruct (strict_eq _ _).
Qed.

(** The fern is dragged to (30, 60), then the backend answers with its
    record: the two reconciliations are one with the merged patch. *)
Lemma updatePinLocal_last_writer_wins_witness :
  let move : gmap string jsval :=
    {[ "xPercent" := JNum 30; "yPercent" := JNum 60 ]} in
  let dto : gmap string jsval :=
    {[ "id" := JNum 2; "xPercent" := JNum 30; "yPercent" := JNum 60;
       "name" := JStr "Fern" ]} in
  updatePinLocal (JNum 2) dto (updatePinLocal (JNum 2) move garden)
  = updatePinLocal (JNum 2) (spread move dto) garden.
Proof.
  intros move dto.
  apply (proj1 (updatePinLocal_last_writer_wins (JNum 2) move dto garden
                  ltac:(unfold Pins.keeps_id;
                        by replace (move !! "id") with (@None jsval)))).
Defined.

(** X15. Reconciliations of two different pins commute: whichever answer
    arrives first, the list ends the same. Each patch must leave its pin
    its id. *)
Theorem updatePinLocal_commutes
  (idA idB : jsval) (patchA patchB : gmap string jsval) (s : State) :
  strict_eq idA idB = false ->
  Pins.keeps_id idA patchA ->
  Pins.keeps_id idB patchB ->
  updatePinLocal idA patchA (updatePinLocal idB patchB s)
  = updatePinLocal idB patchB (updatePinLocal idA patchA s).
Proof.
  intros Hne HkA HkB. rewrite !updatePinLocal_state.
  cbn [pins mode selectedPinId isDetailsOpen transformRef imageSizeRef].
  f_equal. rewrite <- !list_fmap_compose. apply list_fmap_ext.
  intros i p _. cbn [compose].
  assert (HneB : strict_eq idB idA = false) by (by rewrite strict_eq_sym).
  destruct (strict_eq (get p "id") idA) eqn:HA;
    destruct (strict_eq (get p "id") idB) eqn:HB.
  - rewrite (strict_eq_congr _ _ idB HA) in HB. congruence.
  - rewrite (patched_id idA patchA p idB HkA HA), Hne.
    rewrite ?HA, ?HB. reflexivity.
  - rewrite (patched_id idB patchB p idA HkB HB), HneB.
    rewrite ?HA, ?HB. reflexivity.
  - rewrite ?HA, ?HB. reflexivity.
Qed.

(** The answers for the fern and for the mint, in either order. *)
Lemma updatePinLocal_commutes_witness :
  let watered : gmap string jsval :=
    {[ "id" := JNum 2; "lastWatered" := JStr "2026-02-20T10:12:30Z" ]} in
  let moved : gmap string jsval :=
    {[ "xPercent" := JNum 30; "yPercent" := JNum 60 ]} in
  updatePinLocal (JNum 2) watered (updatePinLocal (JNum 3) moved garden)
  = updatePinLocal (JNum 3) moved (updatePinLocal (JNum 2) watered garden).
Proof.
  intros watered moved.
  apply (updatePinLocal_commutes (JNum 2) (JNum 3) watered moved garden).
  - reflexivity.
  - unfold Pins.keeps_id.
    by replace (watered !! "id") with (Some (JNum 2)).
  - unfold Pins.keeps_id. by replace (moved !! "id") with (@None jsval).
Defined.

(** X16. Creating a pin and then deleting it gives the list back: when no
    pin of the list has the id of the created pin, the successful create
    followed by the successful delete of that id leaves the pins as they
    were. A failed create adds nothing. *)
Theorem create_then_delete
  (created : gmap string jsval) (pinId : jsval) (s : State) :
  strict_eq (get created "id") pinId = true ->
  Pins.fresh_id pinId (pins s) ->
  pins (handleDeletePin_settled pinId (Resolved tt)
          (addPinAtClient_settled (Resolved created) s))
  = pins s
  /\ forall message : string,
      addPinAtClient_settled (Rejected message) s = s.
Proof.
  intros Hid Hfresh. split; [| reflexivity].
  cbn [handleDeletePin_settled addPinAtClient_settled pins setPins
       setSelectedPinId setIsDetailsOpen].
  rewrite List.filter_app. cbn [List.filter]. rewrite Hid. cbn [negb].
  rewrite app_nil_r. unfold Pins.fresh_id in Hfresh.
  induction (pins s) as [| p rest IH]; [reflexivity |].
  apply Forall_cons in Hfresh as [Hp Hrest].
  cbn [List.filter]. rewrite Hp. cbn [negb]. by rewrite (IH Hrest).
Qed.

Lemma create_then_delete_witness :
  let basil : gmap string jsval :=
    {[ "id" := JNum 4; "xPercent" := JNum 5; "yPercent" := JNum 5 ]} in
  pins (handleDeletePin_settled (JNum 4) (Resolved tt)
          (addPinAtClient_settled (Resolved basil) garden))
  = pins garden.
Proof.
  intros basil.
  apply (create_then_delete basil (JNum 4) garden).
  - by replace (get basil "id") with (JNum 4).
  - unfold Pins.fresh_id, garden. cbn [pins].
    repeat (constructor; [vm_compute; reflexivity |]). constructor.
Defined.

End Reconciling.

(** ** Selection, popup and panel *)

Section Overlays.
Import App.

Lemma strict_eq_refl (a : jsval) : strict_eq a a = true.
Proof.
  destruct a; cbn [strict_eq]; try reflexivity.
  - by destruct b.
  - apply Qeq_bool_iff. reflexivity.
  - apply String.eqb_refl.
Qed.

(** With distinct ids, looking a pin up by its id finds that pin. *)
Lemma find_by_id (ps : list pin) (i : nat) (p : pin) :
  distinct_ids ps -> ps !! i = Some p ->
  List.find (fun q : pin => strict_eq (get q "id") (get p "id")) ps = Some p.
Proof.
  intros Hd Hi.
  destruct (List.find _ ps) as [q |] eqn:E.
  - apply List.find_some in E as [Hin Hq].
    apply list_elem_of_In, list_elem_of_lookup in Hin as [j Hj].
    by rewrite (Hd j i q p Hj Hi Hq) in Hj; rewrite Hj in Hi.
  - assert (Hin : In p ps).
    { apply list_elem_of_In, list_elem_of_lookup. by exists i. }
    pose proof (List.find_none _ _ E p Hin) as Hp. cbv beta in Hp.
    by rewrite strict_eq_refl in Hp.
Qed.

Lemma selectedPin_spec (s : State) (q : pin) :
  selectedPin s = Some q ->
  q ∈ pins s /\ strict_eq (get q "id") (selectedPinId s) = true.
Proof.
  intros E. apply List.find_some in E as [Hin Hq].
  split; [by apply list_elem_of_In | exact Hq].
Qed.

(** X17. At most one overlay is shown. While the details panel is
    rendered no popup is; the pin of the panel is a pin of the list with
    the selected id; and when the ids of the list are distinct, the popup
    is rendered for at most one pin. *)
Theorem one_overlay (s : State) :
  (forall p q : gmap string jsval,
      Pins.detailsPanel s = Some q -> Pins.isActive s p = false)
  /\ (forall q : gmap string jsval,
        Pins.detailsPanel s = Some q ->
        q ∈ pins s /\ strict_eq (get q "id") (selectedPinId s) = true)
  /\ (distinct_ids (pins s) ->
      forall (i j : nat) (p q : gmap string jsval),
        pins s !! i = Some p -> pins s !! j = Some q ->
        Pins.isActive s p = true -> Pins.isActive s q = true -> i = j).
Proof.
  split; [| split].
  - intros p q. unfold Pins.detailsPanel, Pins.isActive.
    destruct (isDetailsOpen s); [| discriminate].
    intros _. apply andb_false_r.
  - intros q. unfold Pins.detailsPanel.
    destruct (isDetailsOpen s); [| discriminate]. apply selectedPin_spec.
  - intros Hd i j p q Hi Hj. unfold Pins.isActive.
    rewrite !andb_true_iff. intros [Hp _] [Hq _].
    apply (Hd i j p q Hi Hj). by apply (strict_eq_same _ _ (selectedPinId s)).
Qed.

Lemma garden_distinct_ids : distinct_ids (pins garden).
Proof.
  intros i j p q Hi Hj.
  destruct i as [| [| [| i]]]; destruct j as [| [| [| j]]];
    cbn in Hi, Hj; try discriminate; try reflexivity;
    injection Hi as <-; injection Hj as <-;
    vm_compute; discriminate.
Defined.

(** In the sample garden the panel shows the fern and the fern has no
    popup; with the panel closed, only index 1 can have the popup. *)
Lemma one_overlay_witness :
  let popup := handleOpenPin (JNum 2) (handleCloseDetails garden) in
  Pins.isActive garden fern = false
  /\ forall (j : nat) (q : gmap string jsval),
      pins popup !! j = Some q -> Pins.isActive popup q = true -> j = 1%nat.
Proof.
  intros popup. split.
  - apply (proj1 (one_overlay garden) fern fern). reflexivity.
  - intros j q Hj Hq.
    destruct (one_overlay popup) as (_ & _ & Hone).
    apply (Hone garden_distinct_ids j 1%nat q fern Hj eq_refl Hq).
    reflexivity.
Defined.

(** X18. A click on a marker selects its pin, panel open or not. With
    distinct ids, after [handleOpenPin] on the id of a pin of the list,
    that pin is the selected one; if the panel was open it now shows
    that pin, and if it was closed the popup is rendered for that pin and
    for no other. [handleOpenDetails] on the id renders the panel for
    it. *)
Theorem marker_click_selects (s : State) (i : nat) (p : gmap string jsval) :
  distinct_ids (pins s) ->
  pins s !! i = Some p ->
  let s' := handleOpenPin (get p "id") s in
  selectedPin s' = Some p
  /\ (isDetailsOpen s = true -> Pins.detailsPanel s' = Some p)
  /\ (isDetailsOpen s = false ->
      Pins.isActive s' p = true
      /\ forall (j : nat) (q : gmap string jsval),
          pins s !! j = Some q -> Pins.isActive s' q = true -> j = i)
  /\ Pins.detailsPanel (handleOpenDetails (get p "id") s) = Some p.
Proof.
  intros Hd Hi s'.
  assert (Hsel : selectedPin s' = Some p) by (by apply (find_by_id _ i)).
  split; [exact Hsel |]. split; [| split].
  - intros Hopen. unfold Pins.detailsPanel. subst s'.
    cbn [handleOpenPin setSelectedPinId isDetailsOpen]. by rewrite Hopen.
  - intros Hclosed. subst s'. unfold Pins.isActive.
    cbn [handleOpenPin setSelectedPinId isDetailsOpen selectedPinId].
    rewrite Hclosed, strict_eq_refl. split; [reflexivity |].
    intros j q Hj Hq. apply andb_true_iff in Hq as [Hq _].
    by apply (Hd j i q p Hj Hi).
  - unfold Pins.detailsPanel.
    cbn [handleOpenDetails setSelectedPinId setIsDetailsOpen isDetailsOpen].
    by apply (find_by_id _ i).
Qed.

(** Clicking the mint while the panel shows the fern. *)
Lemma marker_click_selects_witness :
  Pins.detailsPanel (handleOpenPin (get mint "id") garden) = Some mint.
Proof.
  destruct (marker_click_selects garden 2%nat mint garden_distinct_ids eq_refl)
    as (_ & Hpanel & _).
  apply Hpanel. reflexivity.
Defined.

(** X19. A click on the background. It asks for a new pin only in edit
    mode with Ctrl held; it never changes the pins, the mode or the
    panel. While the panel is open it changes nothing at all; while the
    panel is closed it clears the selection, so that afterwards no pin
    with an id other than [null] has its popup rendered. *)
Theorem background_click (e : Pins.Click) (s : State) :
  let s' := fst (Pins.handleTopLevelClick e s) in
  let request := snd (Pins.handleTopLevelClick e s) in
  (pins s' = pins s /\ mode s' = mode s
   /\ isDetailsOpen s' = isDetailsOpen s)
  /\ (mode s = view \/ Pins.ctrlKey e = false -> request = None)
  /\ (isDetailsOpen s = true -> s' = s)
  /\ (isDetailsOpen s = false ->
      selectedPinId s' = JNull
      /\ forall p : gmap string jsval,
          strict_eq (get p "id") JNull = false -> Pins.isActive s' p = false).
Proof.
  cbv zeta. unfold Pins.handleTopLevelClick. cbn [fst snd].
  split; [| split; [| split]].
  - destruct (negb (isDetailsOpen s) && _); by repeat split.
  - intros [-> | Hctrl]; [reflexivity |].
    rewrite Hctrl. by destruct (mode s).
  - intros ->. reflexivity.
  - intros Hclosed. rewrite Hclosed. cbn [negb andb].
    assert (Hnull : selectedPinId
                      (if negb (strict_eq (selectedPinId s) JNull)
                       then setSelectedPinId JNull s else s) = JNull).
    { destruct (selectedPinId s) eqn:E; cbn [strict_eq negb];
        try reflexivity. exact E. }
    split; [exact Hnull |].
    intros p Hp. unfold Pins.isActive. by rewrite Hnull, Hp.
Qed.

Lemma background_click_witness :
  snd (Pins.handleTopLevelClick
         {| Pins.ctrlKey := false; Pins.clientX := 10; Pins.clientY := 10 |}
         garden) = None
  /\ fst (Pins.handleTopLevelClick
            {| Pins.ctrlKey := true; Pins.clientX := 10; Pins.clientY := 10 |}
            garden) = garden
  /\ selectedPinId
       (fst (Pins.handleTopLevelClick
               {| Pins.ctrlKey := false; Pins.clientX := 10;
                  Pins.clientY := 10 |}
               (handleClosePopup (handleOpenPin (JNum 2)
                                    (handleCloseDetails garden)))))
     = JNull.
Proof.
  split; [| split].
  - apply (background_click
             {| Pins.ctrlKey := false; Pins.clientX := 10;
                Pins.clientY := 10 |} garden).
    right. reflexivity.
  - apply (background_click
             {| Pins.ctrlKey := true; Pins.clientX := 10;
                Pins.clientY := 10 |} garden).
    reflexivity.
  - apply (background_click
             {| Pins.ctrlKey := false; Pins.clientX := 10;
                Pins.clientY := 10 |}
             (handleClosePopup (handleOpenPin (JNum 2)
                                  (handleCloseDetails garden)))).
    reflexivity.
Defined.

End Overlays.

(** ** The details panel *)

Section PanelTexts.
Import DetailsPanel.

Lemma trimStart_clean (s : string) : starts_clean (trimStart s).
Proof.
  induction s as [| c rest IH]; [exact I |].
  cbn [trimStart]. destruct (is_white c) eqn:E; [exact IH | exact E].
Qed.

Lemma trimStart_fix (s : string) : starts_clean s -> trimStart s = s.
Proof. destruct s as [| c rest]; [reflexivity |]. cbn. by intros ->. Qed.

Lemma trimEnd_clean (s : string) : starts_clean s -> starts_clean (trimEnd s).
Proof.
  destruct s as [| c rest]; [exact id |].
  cbn [starts_clean trimEnd]. intros E. rewrite E. exact E.
Qed.

Lemma trimEnd_idem (s : string) : trimEnd (trimEnd s) = trimEnd s.
Proof.
  induction s as [| c rest IH]; [reflexivity |].
  cbn [trimEnd].
  destruct (is_white c && String.eqb (trimEnd rest) "") eqn:E; [reflexivity |].
  cbn [trimEnd]. by rewrite IH, E.
Qed.

Lemma trim_idem (s : string) : trim (trim s) = trim s.
Proof.
  unfold trim.
  rewrite (trimStart_fix (trimEnd (trimStart s)))
    by apply trimEnd_clean, trimStart_clean.
  apply trimEnd_idem.
Qed.

Lemma digit_not_white (c : ascii) : is_digit c = true -> is_white c = false.
Proof.
  destruct c as [[] [] [] [] [] [] [] []]; cbn; congruence.
Qed.

Lemma trimEnd_digits (s : string) : all_digits s = true -> trimEnd s = s.
Proof.
  induction s as [| c rest IH]; [reflexivity |].
  cbn [all_digits trimEnd]. intros [Hc Hrest]%andb_true_iff.
  by rewrite (digit_not_white c Hc), (IH Hrest).
Qed.

Lemma trim_digits (s : string) : all_digits s = true -> trim s = s.
Proof.
  intros H. unfold trim. rewrite trimStart_fix; [by apply trimEnd_digits |].
  destruct s as [| c rest]; [exact I |].
  cbn [all_digits] in H. apply andb_true_iff in H as [Hc _].
  by apply digit_not_white.
Qed.

Lemma all_digits_occurs (s : string) (c : ascii) :
  occurs c s -> is_digit c = false -> all_digits s = false.
Proof.
  induction s as [| c' rest IH]; [contradiction |].
  cbn [occurs all_digits]. intros [<- | Hin] Hc.
  - by rewrite Hc.
  - rewrite (IH Hin Hc). apply andb_false_r.
Qed.

(** The digits stdpp's [pretty] writes, read back. *)
Lemma pretty_char_digit (d : N) : is_digit (pretty_N_char d) = true.
Proof. unfold pretty_N_char. by repeat case_match. Qed.

Lemma pretty_char_value (d : N) :
  (d < 10)%N -> digit_value (pretty_N_char d) = Z.of_N d.
Proof.
  intros H.
  assert (d = 0 \/ d = 1 \/ d = 2 \/ d = 3 \/ d = 4 \/ d = 5 \/ d = 6
          \/ d = 7 \/ d = 8 \/ d = 9)%N
    as [-> | [-> | [-> | [-> | [-> | [-> | [-> | [-> | [-> | ->]]]]]]]]]
    by lia; reflexivity.
Qed.

Lemma pretty_go_digits (x : N) (s : string) :
  all_digits (pretty_N_go x s) = all_digits s
  /\ number_from 0 (pretty_N_go x s) = number_from (Z.of_N x) s.
Proof.
  revert s. induction (N.lt_wf_0 x) as [x _ IH]. intros s.
  destruct (N.eq_dec x 0%N) as [-> | Hx].
  - by rewrite pretty_N_go_0.
  - rewrite pretty_N_go_step by lia.
    destruct (IH (x `div` 10)%N ltac:(apply N.div_lt; lia)
                 (String (pretty_N_char (x `mod` 10)) s)) as [Hd Hn].
    split.
    + rewrite Hd. cbn [all_digits]. by rewrite pretty_char_digit.
    + rewrite Hn. cbn [number_from].
      rewrite pretty_char_value by (apply N.mod_lt; lia).
      f_equal. rewrite (N.div_mod x 10) at 3 by lia. lia.
Qed.

Lemma pretty_positive_digits (n : Z) :
  (1 <= n)%Z ->
  is_digits (pretty n) = true /\ number_from 0 (pretty n) = n.
Proof.
  intros Hn. destruct n as [| p | p]; try lia.
  change (pretty (Z.pos p)) with (pretty_N_go (N.pos p) "").
  destruct (pretty_go_digits (N.pos p) "") as [Hd Hnum].
  cbn [all_digits number_from] in Hd, Hnum.
  split; [| exact Hnum]. unfold is_digits. rewrite Hd, andb_true_r.
  apply negb_true_iff, String.eqb_neq. intros E.
  rewrite E in Hnum. discriminate Hnum.
Qed.

Lemma normalizeText_trim (s : string) :
  normalizeText (Some (trim s)) = normalizeText (Some s).
Proof. apply trim_idem. Qed.

Lemma parseInterval_trimmed (s : string) :
  parseInterval (Some (trim s)) = parseInterval (Some s).
Proof. unfold parseInterval. by rewrite normalizeText_trim. Qed.

Lemma parseInterval_blank (input : option string) :
  normalizeText input = "" ->
  parseInterval input = {| value := None; error := "" |}.
Proof. unfold parseInterval. by intros ->. Qed.

Lemma parseInterval_rejects (input : option string) (c : ascii) :
  occurs c (normalizeText input) -> is_digit c = false ->
  parseInterval input = {| value := None; error := whole_days_please |}.
Proof.
  intros Hc Hnd. unfold parseInterval.
  destruct (String.eqb_spec (normalizeText input) "") as [E | _].
  { rewrite E in Hc. destruct Hc. }
  unfold is_digits. by rewrite (all_digits_occurs _ c Hc Hnd), andb_false_r.
Qed.

Lemma nearest_double_exact (n : Z) :
  (n < 2 ^ 53)%Z -> nearest_double n = Whole n.
Proof.
  intros H. unfold nearest_double.
  destruct (Z.ltb_spec n (2 ^ 53)); [reflexivity | lia].
Qed.

(** Above 2^53 [Number] rounds to the nearest double, ties to even, and
    the largest double is followed by [Infinity]. *)
Example Number_rounds :
  Number "9007199254740992" = Whole 9007199254740992
  /\ Number "9007199254740993" = Whole 9007199254740992
  /\ Number "9007199254740995" = Whole 9007199254740996
  /\ nearest_double (2 ^ 1024 - 2 ^ 970 - 1) = Whole (2 ^ 1024 - 2 ^ 971)
  /\ nearest_double (2 ^ 1024 - 2 ^ 970) = Infinity.
Proof. repeat split; vm_compute; reflexivity. Qed.

(** A 1 followed by 309 zeros is [Infinity], which is not an integer. *)
Example parseInterval_overflow :
  parseInterval (Some ("1" +:+ String.concat "" (repeat "0" 309)))
  = {| value := None; error := whole_days_please |}.
Proof. vm_compute. reflexivity. Qed.

(** The outcome of [parseInterval] by the double of the trimmed input. *)
Lemma parseInterval_digits (input : option string) :
  normalizeText input <> "" ->
  is_digits (normalizeText input) = true ->
  parseInterval input
  = match Number (normalizeText input) with
    | Whole days =>
        if (days <? 1)%Z then {| value := None; error := whole_days_please |}
        else {| value := Some days; error := "" |}
    | Infinity => {| value := None; error := whole_days_please |}
    end.
Proof.
  intros Hne Hd. unfold parseInterval.
  destruct (String.eqb_spec (normalizeText input) "") as [E | _]; [done |].
  rewrite Hd. cbn [negb].
  destruct (Number (normalizeText input)) as [days |]; [| reflexivity].
  cbn [isInteger negb orb less_than]. by destruct (days <? 1)%Z.
Qed.

Lemma parseInterval_value (input : option string) (n : Z) :
  value (parseInterval input) = Some n ->
  (1 <= n)%Z /\ error (parseInterval input) = ""
  /\ is_digits (normalizeText input) = true
  /\ Number (normalizeText input) = Whole n.
Proof.
  destruct (String.eqb_spec (normalizeText input) "") as [E | E].
  { by rewrite (parseInterval_blank input E). }
  destruct (is_digits (normalizeText input)) eqn:Hd.
  - rewrite (parseInterval_digits input E Hd).
    destruct (Number (normalizeText input)) as [days |]; [| discriminate].
    destruct (Z.ltb_spec days 1); [discriminate |].
    cbn [value error]. intros [= <-]. by repeat split.
  - unfold parseInterval.
    destruct (String.eqb (normalizeText input) ""); [discriminate |].
    rewrite Hd. discriminate.
Qed.

Lemma parseInterval_error (input : option string) :
  error (parseInterval input) <> "" ->
  parseInterval input = {| value := None; error := whole_days_please |}
  /\ normalizeText input <> "".
Proof.
  destruct (String.eqb_spec (normalizeText input) "") as [E | E].
  { by rewrite (parseInterval_blank input E). }
  intros H. split; [| exact E]. revert H.
  destruct (is_digits (normalizeText input)) eqn:Hd.
  - rewrite (parseInterval_digits input E Hd).
    destruct (Number (normalizeText input)) as [days |]; [| done].
    by destruct (days <? 1)%Z.
  - unfold parseInterval.
    destruct (String.eqb (normalizeText input) ""); [done |].
    by rewrite Hd.
Qed.

Lemma parseInterval_infinite (input : option string) :
  Number (normalizeText input) = Infinity ->
  error (parseInterval input) = "" ->
  normalizeText input = "".
Proof.
  intros Hinf He.
  destruct (String.eqb_spec (normalizeText input) "") as [E | E]; [done |].
  exfalso. revert He.
  destruct (is_digits (normalizeText input)) eqn:Hd.
  - by rewrite (parseInterval_digits input E Hd), Hinf.
  - unfold parseInterval.
    destruct (String.eqb_spec (normalizeText input) "") as [E' | _];
      [contradiction |].
    by rewrite Hd.
Qed.

(** X20. [parseInterval]: white space around the input does not count;
    a blank or missing input means "unknown", without an error; an
    accepted value is at least 1, comes without an error, from an input
    that is all digits once trimmed, and is the double [Number] gives
    for it; an error comes with no value; an input with any character
    other than a digit, after trimming, is an error, and so is one with
    so many digits that its double is [Infinity]. *)
Theorem parseInterval_validates (input : option string) :
  let trimmed := normalizeText input in
  let r := parseInterval input in
  (forall s : string, parseInterval (Some (trim s)) = parseInterval (Some s))
  /\ (trimmed = "" -> r = {| value := None; error := "" |})
  /\ (forall n : Z,
        value r = Some n ->
        (1 <= n)%Z /\ error r = "" /\ is_digits trimmed = true
        /\ Number trimmed = Whole n)
  /\ (error r <> "" -> value r = None /\ trimmed <> "")
  /\ (forall c : ascii,
        occurs c trimmed -> is_digit c = false ->
        r = {| value := None; error := whole_days_please |})
  /\ (trimmed <> "" -> Number trimmed = Infinity ->
      r = {| value := None; error := whole_days_please |}).
Proof.
  intros trimmed r. subst trimmed r.
  split; [apply parseInterval_trimmed |].
  split; [apply parseInterval_blank |].
  split; [apply parseInterval_value |].
  split; [| split; [apply parseInterval_rejects |]].
  - intros H. destruct (parseInterval_error input H) as [-> Hne]. by split.
  - intros Hne Hinf.
    destruct (String.eqb_spec (error (parseInterval input)) "") as [E | E].
    + by pose proof (parseInterval_infinite input Hinf E).
    + apply (parseInterval_error input E).
Qed.

Lemma parseInterval_validates_witness :
  parseInterval (Some "  12 ") = parseInterval (Some (trim "  12 "))
  /\ parseInterval (Some "1.5")
     = {| value := None; error := whole_days_please |}
  /\ parseInterval (Some "   ") = {| value := None; error := "" |}.
Proof.
  split; [| split].
  - symmetry. apply (parseInterval_validates None).
  - apply (parseInterval_validates (Some "1.5")) with (c := "."%char).
    + right. left. reflexivity.
    + reflexivity.
  - apply (parseInterval_validates (Some "   ")). reflexivity.
Defined.

(** The text of a number of days below 2^53 is read back exactly. *)
Lemma parseInterval_shown (n : Z) :
  (1 <= n < 2 ^ 53)%Z ->
  parseInterval (Some (pretty n)) = {| value := Some n; error := "" |}.
Proof.
  intros [Hn Hbound]. destruct (pretty_positive_digits n Hn) as [Hd Hnum].
  assert (Hall : all_digits (pretty n) = true)
    by (by apply andb_true_iff in Hd as [_ ?]).
  assert (Htrim : normalizeText (Some (pretty n)) = pretty n)
    by apply (trim_digits _ Hall).
  assert (Hne : pretty n <> "").
  { apply andb_true_iff in Hd as [Hd _].
    by apply negb_true_iff, String.eqb_neq in Hd. }
  rewrite parseInterval_digits; rewrite Htrim; [| done..].
  unfold Number. rewrite Hnum, (nearest_double_exact n Hbound).
  destruct (Z.ltb_spec n 1); [lia | reflexivity].
Qed.

(** X21. The interval field round-trips: the text the form shows for an
    interval of [n] days, [String(n)], is parsed back to [n], for every
    whole [n] from 1 up to 2^53. *)
Theorem parseInterval_of_shown (n : Z) :
  (1 <= n < 2 ^ 53)%Z ->
  parseInterval (Some (pretty n)) = {| value := Some n; error := "" |}.
Proof. apply parseInterval_shown. Qed.

Lemma parseInterval_of_shown_witness :
  parseInterval (Some (pretty 14%Z)) = {| value := Some 14%Z; error := "" |}.
Proof. apply parseInterval_of_shown. lia. Defined.

End PanelTexts.

Section Saving.
Import DetailsPanel.

Lemma normalizeText_trimmed (value : option string) :
  trimmed (normalizeText value).
Proof. apply trim_idem. Qed.

(** The text shown for an interval that is not a whole number of days of
    1 or more is refused. *)
Lemma parseInterval_shown_bad (n : Z) :
  (n < 1)%Z ->
  parseInterval (Some (pretty n))
  = {| value := None; error := whole_days_please |}.
Proof.
  intros Hn. destruct n as [| p | p]; [reflexivity | lia |].
  apply (parseInterval_rejects _ "-"%char); [| reflexivity].
  change (pretty (Z.neg p)) with (String "-"%char (pretty (N.pos p))).
  change (normalizeText (Some (String "-"%char (pretty (N.pos p)))))
    with (trim (String "-"%char (pretty (N.pos p)))).
  unfold trim. cbn [trimStart is_white trimEnd andb]. left. reflexivity.
Qed.

(** The three branches of [handleSave], by the fields of the form. *)
Lemma handleSave_cases (pin : Pin.t) (draft : Draft.t) :
  let name' := normalizeText (Some (Draft.name draft)) in
  let type' := normalizeText (Some (Draft.type draft)) in
  let parsed := parseInterval (Some (Draft.wateringIntervalDays draft)) in
  let patch :=
    {| Patch.name :=
         if String.eqb name' (normalizeText (Pin.name pin)) then None
         else Some name';
       Patch.type :=
         if String.eqb type' (normalizeText (Pin.type pin)) then None
         else Some type';
       Patch.wateringIntervalDays :=
         if bool_decide (value parsed = Pin.wateringIntervalDays pin)
         then None else Some (value parsed) |} in
  (name' <> "" /\ type' <> "" /\ error parsed = ""
   /\ handleSave pin draft
      = if no_changes patch then NothingToSave else Request (Pin.id pin) patch)
  \/ ((name' = "" \/ type' = "" \/ error parsed <> "")
      /\ exists errors, handleSave pin draft = Invalid errors).
Proof.
  intros name' type' parsed patch. unfold handleSave.
  fold name' type' parsed.
  destruct (String.eqb_spec name' "") as [En | En].
  { right. split; [by left |]. by eexists. }
  destruct (String.eqb_spec type' "") as [Et | Et].
  { right. split; [by right; left |]. by eexists. }
  destruct (String.eqb_spec (error parsed) "") as [Ee | Ee].
  - left. by repeat split.
  - right. split; [by right; right |]. by eexists.
Qed.

(** X22. What [handleSave] sends. A request is addressed to the pin shown
    and carries at least one field. A name or type it carries is the
    trimmed text of the form, is not blank and differs from the pin's
    (trimmed) one; an interval it carries is "unknown" or a number of days
    of 1 or more, read from the form, and differs from the pin's. *)
Theorem handleSave_sends_changes
  (pin : Pin.t) (draft : Draft.t) (pinId : jsval) (patch : Patch.t) :
  handleSave pin draft = Request pinId patch ->
  pinId = Pin.id pin
  /\ no_changes patch = false
  /\ (forall v : string,
        Patch.name patch = Some v ->
        v = normalizeText (Some (Draft.name draft)) /\ trimmed v
        /\ v <> "" /\ v <> normalizeText (Pin.name pin))
  /\ (forall v : string,
        Patch.type patch = Some v ->
        v = normalizeText (Some (Draft.type draft)) /\ trimmed v
        /\ v <> "" /\ v <> normalizeText (Pin.type pin))
  /\ (forall v : option Z,
        Patch.wateringIntervalDays patch = Some v ->
        v = value (parseInterval (Some (Draft.wateringIntervalDays draft)))
        /\ v <> Pin.wateringIntervalDays pin
        /\ forall n : Z, v = Some n -> (1 <= n)%Z).
Proof.
  intros H.
  destruct (handleSave_cases pin draft)
    as [(Hn & Ht & He & Hs) | (_ & errors & Hs)];
    rewrite Hs in H; [| discriminate].
  match type of H with
  | (if no_changes ?p then _ else _) = _ =>
      destruct (no_changes p) eqn:Hc; [discriminate |];
      injection H as <- <-
  end.
  split; [reflexivity |]. split; [exact Hc |].
  cbn [Patch.name Patch.type Patch.wateringIntervalDays].
  split; [| split].
  - intros v.
    destruct (String.eqb_spec (normalizeText (Some (Draft.name draft)))
                (normalizeText (Pin.name pin))) as [_ | Hd];
      [discriminate |].
    intros [= <-]. repeat split; [apply normalizeText_trimmed | done..].
  - intros v.
    destruct (String.eqb_spec (normalizeText (Some (Draft.type draft)))
                (normalizeText (Pin.type pin))) as [_ | Hd];
      [discriminate |].
    intros [= <-]. repeat split; [apply normalizeText_trimmed | done..].
  - intros v. case_bool_decide as Hd; [discriminate |].
    intros [= <-]. repeat split; [done |].
    intros n Hv.
    by apply (parseInterval_value
                (Some (Draft.wateringIntervalDays draft)) n).
Qed.

(** A draft of 9007199254740993 days against a pin of 9007199254740992:
    the draft is read as the same double, so nothing is sent. *)
Example handleSave_same_double :
  handleSave
    (Pin.mk (JNum 2) (Some "Fern") (Some "Fern") (Some 9007199254740992%Z))
    (Draft.mk "Fern" "Fern" "9007199254740993")
  = NothingToSave.
Proof. vm_compute. reflexivity. Qed.

Lemma handleSave_sends_changes_witness :
  Patch.name
    {| Patch.name := Some "Lady fern"; Patch.type := None;
       Patch.wateringIntervalDays := Some (Some 3%Z) |}
  = Some "Lady fern"
  /\ trimmed "Lady fern" /\ "Lady fern" <> normalizeText (Pin.name fern).
Proof.
  split; [reflexivity |].
  destruct (handleSave_sends_changes fern fern_edited (JNum 2)
              {| Patch.name := Some "Lady fern"; Patch.type := None;
                 Patch.wateringIntervalDays := Some (Some 3%Z) |}
              eq_refl) as (_ & _ & Hname & _ & _).
  destruct (Hname "Lady fern" eq_refl) as (_ & Htrim & _ & Hnew).
  exact (conj Htrim Hnew).
Defined.

(** X23. Saving is idempotent. Once the pin carries the fields of the patch
    that was sent (the merge [{...pin, ...patch}] of a confirmed save),
    saving the same form again sends nothing. *)
Theorem handleSave_twice_sends_once
  (pin : Pin.t) (draft : Draft.t) (pinId : jsval) (patch : Patch.t) :
  handleSave pin draft = Request pinId patch ->
  handleSave (reconciled pin patch) draft = NothingToSave.
Proof.
  intros H.
  destruct (handleSave_cases pin draft)
    as [(Hn & Ht & He & Hs) | (_ & errors & Hs)];
    rewrite Hs in H; [| discriminate].
  match type of H with
  | (if no_changes ?p then _ else _) = _ =>
      destruct (no_changes p); [discriminate |]; injection H as _ <-
  end.
  destruct (handleSave_cases
              (reconciled pin
                 {| Patch.name :=
                      if String.eqb (normalizeText (Some (Draft.name draft)))
                           (normalizeText (Pin.name pin))
                      then None
                      else Some (normalizeText (Some (Draft.name draft)));
                    Patch.type :=
                      if String.eqb (normalizeText (Some (Draft.type draft)))
                           (normalizeText (Pin.type pin))
                      then None
                      else Some (normalizeText (Some (Draft.type draft)));
                    Patch.wateringIntervalDays :=
                      if bool_decide
                           (value (parseInterval
                                     (Some (Draft.wateringIntervalDays draft)))
                            = Pin.wateringIntervalDays pin)
                      then None
                      else Some (value (parseInterval
                                   (Some (Draft.wateringIntervalDays draft))))
                 |}) draft)
    as [(_ & _ & _ & Hs') | ([? | [? | ?]] & _)]; try contradiction.
  rewrite Hs'. clear Hs Hs'.
  unfold reconciled, no_changes.
  cbn [Pin.name Pin.type Pin.wateringIntervalDays Pin.id
       Patch.name Patch.type Patch.wateringIntervalDays].
  assert (Hname :
    String.eqb (normalizeText (Some (Draft.name draft)))
      (normalizeText
         match
           (if String.eqb (normalizeText (Some (Draft.name draft)))
                 (normalizeText (Pin.name pin))
            then None
            else Some (normalizeText (Some (Draft.name draft))))
         with
         | Some v => Some v
         | None => Pin.name pin
         end) = true).
  { destruct (String.eqb_spec (normalizeText (Some (Draft.name draft)))
                (normalizeText (Pin.name pin))) as [E | _].
    - apply String.eqb_eq. exact E.
    - apply String.eqb_eq. symmetry. apply trim_idem. }
  assert (Htype :
    String.eqb (normalizeText (Some (Draft.type draft)))
      (normalizeText
         match
           (if String.eqb (normalizeText (Some (Draft.type draft)))
                 (normalizeText (Pin.type pin))
            then None
            else Some (normalizeText (Some (Draft.type draft))))
         with
         | Some v => Some v
         | None => Pin.type pin
         end) = true).
  { destruct (String.eqb_spec (normalizeText (Some (Draft.type draft)))
                (normalizeText (Pin.type pin))) as [E | _].
    - apply String.eqb_eq. exact E.
    - apply String.eqb_eq. symmetry. apply trim_idem. }
  rewrite Hname, Htype.
  destruct (decide (value (parseInterval
                             (Some (Draft.wateringIntervalDays draft)))
                    = Pin.wateringIntervalDays pin)) as [E | E].
  - rewrite (bool_decide_eq_true_2 _ E). by rewrite (bool_decide_eq_true_2 _ E).
  - rewrite (bool_decide_eq_false_2 _ E). by rewrite bool_decide_eq_true_2.
Qed.

Lemma handleSave_twice_sends_once_witness :
  handleSave
    (reconciled fern
       {| Patch.name := Some "Lady fern"; Patch.type := None;
          Patch.wateringIntervalDays := Some (Some 3%Z) |})
    fern_edited
  = NothingToSave.
Proof.
  apply (handleSave_twice_sends_once fern fern_edited (JNum 2)). reflexivity.
Defined.

(** X24. A form nobody touched sends nothing. Saving the draft that
    [resetDraftFromPin] fills in from the pin never makes a request,
    whatever the pin holds; it closes the editor when the pin has a name
    and a type that are not blank and an interval that is unknown or 1 or
    more, and shows errors otherwise. Intervals are whole numbers within
    2^53. *)
Theorem untouched_form_sends_nothing (pin : Pin.t) :
  (forall n : Z,
     Pin.wateringIntervalDays pin = Some n -> (- 2 ^ 53 < n < 2 ^ 53)%Z) ->
  let valid :=
    normalizeText (Pin.name pin) <> ""
    /\ normalizeText (Pin.type pin) <> ""
    /\ forall n : Z, Pin.wateringIntervalDays pin = Some n -> (1 <= n)%Z in
  (forall (pinId : jsval) (patch : Patch.t),
     handleSave pin (resetDraftFromPin pin) <> Request pinId patch)
  /\ (valid -> handleSave pin (resetDraftFromPin pin) = NothingToSave)
  /\ (~ valid ->
      exists errors, handleSave pin (resetDraftFromPin pin) = Invalid errors).
Proof.
  intros Hbound valid.
  assert (Hname : forall v : option string,
            normalizeText (Some (default "" v)) = normalizeText v)
    by (by intros []).
  assert (Hparsed :
    parseInterval (Some (Draft.wateringIntervalDays (resetDraftFromPin pin)))
    = match Pin.wateringIntervalDays pin with
      | None => {| value := None; error := "" |}
      | Some n =>
          if (n <? 1)%Z then {| value := None; error := whole_days_please |}
          else {| value := Some n; error := "" |}
      end).
  { unfold resetDraftFromPin. cbn [Draft.wateringIntervalDays].
    destruct (Pin.wateringIntervalDays pin) as [n |] eqn:En; [| reflexivity].
    destruct (Z.ltb_spec n 1).
    - by apply parseInterval_shown_bad.
    - apply parseInterval_shown. specialize (Hbound n eq_refl). lia. }
  assert (Hcases :
    (valid /\ handleSave pin (resetDraftFromPin pin) = NothingToSave)
    \/ (~ valid
        /\ exists errors,
             handleSave pin (resetDraftFromPin pin) = Invalid errors)).
  { destruct (handleSave_cases pin (resetDraftFromPin pin))
      as [(Hn & Ht & He & Hs) | (Hbad & Herr)].
    - left. rewrite Hs. clear Hs. rewrite Hparsed in He |- *.
      unfold resetDraftFromPin in Hn, Ht |- *.
      cbn [Draft.name Draft.type] in Hn, Ht |- *.
      rewrite Hname in Hn, Ht |- *. rewrite Hname.
      assert (Hi : forall n : Z,
                Pin.wateringIntervalDays pin = Some n -> (1 <= n)%Z).
      { intros n E. rewrite E in He.
        destruct (Z.ltb_spec n 1); [discriminate He | done]. }
      split; [by repeat split |].
      unfold no_changes. cbn [Patch.name Patch.type Patch.wateringIntervalDays].
      rewrite !String.eqb_refl.
      rewrite bool_decide_eq_true_2; [reflexivity |].
      destruct (Pin.wateringIntervalDays pin) as [n |]; [| reflexivity].
      destruct (Z.ltb_spec n 1); [discriminate He | reflexivity].
    - right. split; [| exact Herr].
      intros (Vn & Vt & Vi). rewrite Hparsed in Hbad.
      unfold resetDraftFromPin in Hbad. cbn [Draft.name Draft.type] in Hbad.
      rewrite !Hname in Hbad.
      destruct Hbad as [? | [? | He]]; [done | done |].
      destruct (Pin.wateringIntervalDays pin) as [n |]; [| done].
      specialize (Vi n eq_refl).
      destruct (Z.ltb_spec n 1); [lia | done]. }
  split; [| split].
  - intros pinId patch E.
    destruct Hcases as [[_ H] | [_ [errors H]]]; rewrite H in E; discriminate.
  - intros V. destruct Hcases as [[_ H] | [NV _]]; [exact H | contradiction].
  - intros NV. destruct Hcases as [[V _] | [_ H]]; [contradiction | exact H].
Qed.

Lemma untouched_form_sends_nothing_witness :
  handleSave fern (resetDraftFromPin fern) = NothingToSave.
Proof.
  assert (H : forall n : Z,
            Pin.wateringIntervalDays fern = Some n ->
            (- 2 ^ 53 < n < 2 ^ 53)%Z) by (intros n; discriminate).
  destruct (untouched_form_sends_nothing fern H) as (_ & Hvalid & _).
  apply Hvalid. split; [discriminate |]. split; [discriminate |].
  intros n. discriminate.
Defined.

End Saving.

(** ** Labels for any number of days *)

Section DaysAgo.
Import DateFormatter.
Local Open Scope Z_scope.

(** X25. [formatLastWatered] counts whole days: a timestamp that lies [d]
    whole days back, for any [d] of 2 or more, is labelled with [d] in
    decimal followed by " days ago", and the label depends on the clock
    only through that count. *)
Theorem formatLastWatered_days_ago
  (Date_parse : string -> option Z) (now now' : Z) (iso : string)
  (last d : Z) :
  iso <> "" ->
  Date_parse iso = Some last ->
  2 <= d ->
  d * MS_PER_DAY <= now - last < (d + 1) * MS_PER_DAY ->
  formatLastWatered Date_parse now (IsoString iso)
  = pretty d +:+ " days ago"
  /\ (d * MS_PER_DAY <= now' - last < (d + 1) * MS_PER_DAY ->
      formatLastWatered Date_parse now' (IsoString iso)
      = formatLastWatered Date_parse now (IsoString iso)).
Proof.
  intros Hne Hparse Hd Hspan.
  assert (Hlabel : forall clock : Z,
            d * MS_PER_DAY <= clock - last < (d + 1) * MS_PER_DAY ->
            formatLastWatered Date_parse clock (IsoString iso)
            = pretty d +:+ " days ago").
  { intros clock H. rewrite (format_string _ _ _ Hne), Hparse.
    rewrite (whole_days _ d H).
    destruct (Z.leb_spec (clock - last) 0) as [Hle | _];
      [unfold MS_PER_DAY in H; lia |].
    destruct (Z.leb_spec d 0) as [? | _]; [lia |].
    destruct (Z.eqb_spec d 1) as [? | _]; [lia | reflexivity]. }
  split; [by apply Hlabel |].
  intros H'. by rewrite !Hlabel.
Qed.

Lemma formatLastWatered_days_ago_witness :
  formatLastWatered parse_sample 1773000000000 (IsoString "2026-02-20T10:12:30Z")
  = "16 days ago".
Proof.
  assert (Hne : "2026-02-20T10:12:30Z" <> "") by discriminate.
  assert (Hspan : 16 * MS_PER_DAY <= 1773000000000 - 1771582350000
                  < (16 + 1) * MS_PER_DAY) by (unfold MS_PER_DAY; lia).
  exact (proj1 (formatLastWatered_days_ago parse_sample 1773000000000
                  1773000000000 "2026-02-20T10:12:30Z" 1771582350000 16
                  Hne eq_refl ltac:(lia) Hspan)).
Defined.

End DaysAgo.
